(** * Storage authority (sa/sa.go): authorization lifecycle, issuance ledger,
      rate-limit ranges and name-set digests.

    A shallow embedding of the functions of [sa/sa.go] together with the
    properties of its specification.  The database is a record of tables, a
    transaction a working copy of it, and every storage call may fail: a
    script of outcomes says which of the successive calls the driver
    refuses. *)

From Stdlib Require Import ZArith String Ascii List Lia Bool Sorted Permutation OrderedTypeEx.
From stdpp Require Import base tactics option list strings gmap fin_maps fin_sets sorting pretty.

Local Open Scope Z_scope.

(** ** Byte strings and big integers (net.IP, math/big) *)

Module Net.

(** A [net.IP] is a byte slice; bytes are integers in [0, 256).  The nil
    slice and the empty slice are both the empty list: the functions below
    return nil or a slice of 4 or 16 bytes, never an empty non-nil one. *)
Definition IP := list Z.

Definition isByte (b : Z) : Prop := 0 <= b < 256.
Definition wellFormed (ip : IP) : Prop := Forall isByte ip.

Definition v4InV6Prefix : list Z := [0; 0; 0; 0; 0; 0; 0; 0; 0; 0; 255; 255].

Definition bytesEqual (a b : list Z) : bool := bool_decide (a = b).
Definition isZeros (p : list Z) : bool := forallb (Z.eqb 0) p.
Definition allFF (p : list Z) : bool := forallb (Z.eqb 255) p.

(** [ip.To4()]: the 4-byte form of an IPv4 address, nil otherwise. *)
Definition To4 (ip : IP) : IP :=
  if (length ip =? 4)%nat then ip
  else if (length ip =? 16)%nat
          && isZeros (take 10 ip)
          && (nth 10 ip 0 =? 255) && (nth 11 ip 0 =? 255)
       then drop 12 ip
       else [].

(** [ip.To16()]: the 16-byte form, nil when the length is neither 4 nor 16. *)
Definition To16 (ip : IP) : IP :=
  if (length ip =? 4)%nat then v4InV6Prefix ++ ip
  else if (length ip =? 16)%nat then ip
  else [].

Fixpoint cidrFill (l : nat) (n : Z) : list Z :=
  match l with
  | O => []
  | S l' =>
      if 8 <=? n then 255 :: cidrFill l' (n - 8)
      else Z.lxor 255 (Z.shiftr 255 n) :: cidrFill l' 0
  end.

(** [net.CIDRMask(ones, bits)]. *)
Definition CIDRMask (ones bits : Z) : list Z :=
  if negb ((bits =? 32) || (bits =? 128)) then []
  else if (ones <? 0) || (bits <? ones) then []
  else cidrFill (Z.to_nat (bits / 8)) ones.

(** [ip.Mask(mask)]. *)
Definition Mask (ip : IP) (mask : list Z) : IP :=
  let mask :=
    if (length mask =? 16)%nat && (length ip =? 4)%nat && allFF (take 12 mask)
    then drop 12 mask else mask in
  let ip :=
    if (length mask =? 4)%nat && (length ip =? 16)%nat
       && bytesEqual (take 12 ip) v4InV6Prefix
    then drop 12 ip else ip in
  if (length ip =? length mask)%nat then zip_with Z.land ip mask else [].

(** [big.Int.SetBytes]: the bytes read as a big-endian unsigned integer. *)
Definition SetBytes (p : list Z) : Z := fold_left (fun a b => a * 256 + b) p 0.

Fixpoint bytesLE (fuel : nat) (z : Z) : list Z :=
  match fuel with
  | O => []
  | S fuel' => if z <=? 0 then [] else z mod 256 :: bytesLE fuel' (z / 256)
  end.

(** [big.Int.Bytes]: the shortest big-endian representation of the absolute
    value (empty for zero).  Only non-negative integers occur here. *)
Definition Bytes (z : Z) : list Z := rev (bytesLE (S (Z.to_nat (Z.log2 z))) z).

(** [net.ParseIP("ffff:ffff:ffff:ffff:ffff:ffff:ffff:ffff")]. *)
Definition maxIP : IP := replicate 16 255.

End Net.

Import Net.

(** [incrementIP]: the first address of the next subnet for a mask of
    [index] bits, or the highest address when the sum does not fit 16
    bytes.  [128-uint(index)] is unsigned 64-bit arithmetic. *)
Definition incrementIP (ip : IP) (index : Z) : IP :=
  let bigInt := SetBytes ip in
  let incr := Z.shiftl 1 ((128 - index) mod 2 ^ 64) in
  let bigInt := bigInt + incr in
  let resultBytes := Bytes bigInt in
  if (16 <? length resultBytes)%nat then maxIP
  else replicate (16 - length resultBytes) 0 ++ resultBytes.

(** [ipRange]: the query range, inclusive below and exclusive above. *)
Definition ipRange (ip : IP) : IP * IP :=
  let ip := To16 ip in
  let maskLength := if bool_decide (To4 ip <> []) then 128 else 48 in
  let mask := CIDRMask maskLength 128 in
  let begin := Mask ip mask in
  let end_ := incrementIP begin maskLength in
  (begin, end_).

Definition isIPv4 (ip : IP) : bool := bool_decide (To4 ip <> []).


(** ** Errors *)

(** Go's [error] values as they occur in sa.go. *)
Inductive error : Type :=
| errorString (msg : string)               (* errors.New, fmt.Errorf *)
| ErrNoRows                                (* sql.ErrNoRows *)
| NotFoundError (msg : string)             (* core.NotFoundError *)
| TooManyCertificatesError (msg : string)
| DriverError (msg : string).              (* reported by the database *)

#[global] Instance error_eq_dec : EqDecision error.
Proof. solve_decision. Defined.

(** ** The core data model (package core) *)

Definition Time := Z.
(** [time.Time{}], the zero time. *)
Definition zeroTime : Time := 0.

(** [core.AcmeStatus] is a string type: sa.go converts its values with
    [string(...)]. *)
Definition AcmeStatus := string.

(** Modelled from the spec: the status constants of package core, which is
    not part of sa.go; their values are the status names of the
    specification. *)
Definition StatusPending : AcmeStatus := "pending".
Definition StatusValid : AcmeStatus := "valid".
Definition StatusInvalid : AcmeStatus := "invalid".
Definition StatusDeactivated : AcmeStatus := "deactivated".

(** Modelled from the spec: the identifier, challenge and authorization types
    of package core, with the attributes the specification gives them.  sa.go
    reads the ID, the status, the expiry, the identifier and the challenges
    of an authorization. *)
Record AcmeIdentifier : Type := mkIdentifier {
  IdentType : string;
  IdentValue : string }.

Record Challenge : Type := mkChallenge {
  ChallengeID : Z;
  ChallengeType : string;
  ChallengeStatus : AcmeStatus;
  ChallengeToken : string }.

Record Authorization : Type := mkAuthorization {
  ID : string;
  Identifier : AcmeIdentifier;
  RegistrationID : Z;
  Status : AcmeStatus;
  Expires : option Time;
  Challenges : list Challenge }.

Definition emptyAuthorization : Authorization :=
  mkAuthorization "" (mkIdentifier "" "") 0 "" None [].

Definition withID (a : Authorization) (id : string) : Authorization :=
  mkAuthorization id (Identifier a) (RegistrationID a) (Status a) (Expires a) (Challenges a).
Definition withStatus (a : Authorization) (s : AcmeStatus) : Authorization :=
  mkAuthorization (ID a) (Identifier a) (RegistrationID a) s (Expires a) (Challenges a).
Definition withChallenges (a : Authorization) (cs : list Challenge) : Authorization :=
  mkAuthorization (ID a) (Identifier a) (RegistrationID a) (Status a) (Expires a) cs.

(** [core.Certificate], [core.CertificateStatus] and [core.FQDNSet]: the
    fields are those of the struct literals in [AddCertificate] and
    [addFQDNSet]. *)
Record Certificate : Type := mkCertificate {
  cert_RegistrationID : Z;
  cert_Serial : string;
  cert_Digest : string;
  cert_DER : list Z;
  cert_Issued : Time;
  cert_Expires : Time }.

Record CertificateStatus : Type := mkCertificateStatus {
  SubscriberApproved : bool;
  OCSPStatus : string;
  OCSPLastUpdated : Time;
  OCSPResponse : list Z;
  status_Serial : string;
  RevokedDate : Time;
  RevokedReason : Z;
  status_LockCol : Z }.

Record FQDNSet : Type := mkFQDNSet {
  SetHash : list Z;
  set_Serial : string;
  set_Issued : Time;
  set_Expires : Time }.

(** What the opaque decoder [x509.ParseCertificate] yields. *)
Record x509Certificate : Type := mkX509 {
  SerialNumber : Z;
  DNSNames : list string;
  NotBefore : Time;
  NotAfter : Time }.

(** ** The tables *)

(** The models gorp maps to the two authorization tables. *)
Record pendingauthzModel : Type := mkPendingAuthz {
  pending_Authorization : Authorization;
  LockCol : Z }.

Record authzModel : Type := mkAuthz {
  authz_Authorization : Authorization }.

(** A row of an authorization table, without its primary key [id] (the key
    of the table below).  The challenge list of an authorization is no
    column: it lives in the challenge table. *)
Record authzColumns : Type := mkColumns {
  col_Identifier : AcmeIdentifier;
  col_RegistrationID : Z;
  col_Status : AcmeStatus;
  col_Expires : option Time }.

Definition columns (a : Authorization) : authzColumns :=
  mkColumns (Identifier a) (RegistrationID a) (Status a) (Expires a).

Definition fromColumns (id : string) (c : authzColumns) : Authorization :=
  mkAuthorization id (col_Identifier c) (col_RegistrationID c) (col_Status c)
    (col_Expires c) [].

Definition columnsWithStatus (c : authzColumns) (s : AcmeStatus) : authzColumns :=
  mkColumns (col_Identifier c) (col_RegistrationID c) s (col_Expires c).

(** Modelled from the spec: [challModel] lives in sa/model.go.  sa.go reads
    and writes its ID and reads its AuthorizationID; the other columns are
    the challenge attributes of the specification. *)
Record challModel : Type := mkChall {
  chall_ID : Z;
  chall_AuthorizationID : string;
  chall_Type : string;
  chall_Status : AcmeStatus;
  chall_Token : string }.

Definition challWithID (c : challModel) (id : Z) : challModel :=
  mkChall id (chall_AuthorizationID c) (chall_Type c) (chall_Status c) (chall_Token c).

Record issuedName : Type := mkIssuedName {
  reversedName : string;
  name_serial : string;
  notBefore : Time }.

Record DbState : Type := mkDb {
  pendingAuthorizations : gmap string (authzColumns * Z);
  authz : gmap string authzColumns;
  challenges : list challModel;
  nextChallengeID : Z;
  certificates : gmap string Certificate;
  certificateStatus : gmap string CertificateStatus;
  issuedNames : list issuedName;
  fqdnSets : list FQDNSet }.

Definition emptyDb : DbState := mkDb ∅ ∅ [] 1 ∅ ∅ [] [].

Definition setPendingAuthorizations (db : DbState) t : DbState :=
  mkDb t (authz db) (challenges db) (nextChallengeID db) (certificates db)
       (certificateStatus db) (issuedNames db) (fqdnSets db).
Definition setAuthz (db : DbState) t : DbState :=
  mkDb (pendingAuthorizations db) t (challenges db) (nextChallengeID db) (certificates db)
       (certificateStatus db) (issuedNames db) (fqdnSets db).
Definition setChallenges (db : DbState) t n : DbState :=
  mkDb (pendingAuthorizations db) (authz db) t n (certificates db)
       (certificateStatus db) (issuedNames db) (fqdnSets db).
Definition setCertificates (db : DbState) t : DbState :=
  mkDb (pendingAuthorizations db) (authz db) (challenges db) (nextChallengeID db) t
       (certificateStatus db) (issuedNames db) (fqdnSets db).
Definition setCertificateStatus (db : DbState) t : DbState :=
  mkDb (pendingAuthorizations db) (authz db) (challenges db) (nextChallengeID db)
       (certificates db) t (issuedNames db) (fqdnSets db).
Definition setIssuedNames (db : DbState) t : DbState :=
  mkDb (pendingAuthorizations db) (authz db) (challenges db) (nextChallengeID db)
       (certificates db) (certificateStatus db) t (fqdnSets db).
Definition setFqdnSets (db : DbState) t : DbState :=
  mkDb (pendingAuthorizations db) (authz db) (challenges db) (nextChallengeID db)
       (certificates db) (certificateStatus db) (issuedNames db) t.

(** The names of the two authorization tables, as sa.go compares and
    interpolates them. *)
Definition pendingAuthorizationsTable : string := "pendingAuthorizations".
Definition authzTable : string := "authz".

(** ** Transactions (gorp) *)

(** A transaction works on a copy of the database.  [tx_script] holds the
    outcome of the storage calls still to come: [Some e] makes the next call
    fail with [e] before it touches anything, [None] (or an exhausted
    script) lets it through. *)
Record Transaction : Type := mkTx {
  tx_db : DbState;
  tx_script : list (option error) }.

Definition Tx (A : Type) : Type := Transaction -> (error + A) * Transaction.

Definition ret {A} (a : A) : Tx A := fun tx => (inr a, tx).
Definition fail {A} (e : error) : Tx A := fun tx => (inl e, tx).
Definition bind {A B} (m : Tx A) (k : A -> Tx B) : Tx B :=
  fun tx =>
    match m tx with
    | (inl e, tx') => (inl e, tx')
    | (inr a, tx') => k a tx'
    end.

Notation "'let*' x ':=' m 'in' k" := (bind m (fun x => k))
  (at level 10, x name, m at level 100, k at level 200).
Notation "'let*' ' pat ':=' m 'in' k" :=
  (bind m (fun x => match x with pat => k end))
  (at level 10, pat pattern, m at level 100, k at level 200).

(** One storage call inside a transaction. *)
Definition call {A} (op : DbState -> (error + A) * DbState) : Tx A :=
  fun tx =>
    match tx_script tx with
    | Some e :: rest => (inl e, mkTx (tx_db tx) rest)
    | o =>
        let '(r, db') := op (tx_db tx) in
        (r, mkTx db' (tl o))
    end.

(** The values handed to [tx.Insert], [tx.Update] and [tx.Delete]
    ([interface{}] in Go): gorp picks the table by the value's type. *)
Inductive row : Type :=
| RowPendingAuthz (r : pendingauthzModel)
| RowAuthz (r : authzModel)
| RowChall (r : challModel)
| RowCertificate (r : Certificate)
| RowCertificateStatus (r : CertificateStatus)
| RowFQDNSet (r : FQDNSet).

(** How a value reaches gorp: as a pointer to the struct, or as the struct
    itself.  gorp's writes work on pointers: the first thing [Insert],
    [Update] and [Delete] do with an argument is to look up its table
    ([tableForPointer]), which refuses a value of any other kind with an
    error, before the database is contacted.  sa.go hands [tx.Insert] and
    [tx.Update] pointers throughout ([&authzModel{...}], [&core.FQDNSet{...}],
    the results of [Get]); the argument of [Insert] and [Update] below is the
    struct pointed to.  The one argument of [tx.Delete] is a struct. *)
Inductive operand : Type :=
| pointerTo (r : row)
| structValue (r : row).

(** gorp's error for an argument that is no pointer; the text goes on with
    the value and its kind. *)
Definition passedNonPointer : error := errorString "gorp: passed non-pointer".

Definition duplicateEntry : error := DriverError "Error 1062: Duplicate entry".

Definition insertKeyed {V} (t : gmap string V) (k : string) (v : V)
  : error + gmap string V :=
  match t !! k with
  | Some _ => inl duplicateEntry
  | None => inr (<[k := v]> t)
  end.

(** [tx.Insert]: a row whose primary key is taken is refused; the challenge
    table has an auto-increment key, which is returned (gorp stores it into
    the model's ID field, see [NewPendingAuthorization]). *)
Definition Insert (r : row) : Tx Z :=
  call (fun db =>
    match r with
    | RowPendingAuthz m =>
        match insertKeyed (pendingAuthorizations db) (ID (pending_Authorization m))
                (columns (pending_Authorization m), LockCol m) with
        | inl e => (inl e, db)
        | inr t => (inr 0, setPendingAuthorizations db t)
        end
    | RowAuthz m =>
        match insertKeyed (authz db) (ID (authz_Authorization m))
                (columns (authz_Authorization m)) with
        | inl e => (inl e, db)
        | inr t => (inr 0, setAuthz db t)
        end
    | RowChall m =>
        let id := nextChallengeID db in
        (inr id, setChallenges db (challenges db ++ [challWithID m id]) (id + 1))
    | RowCertificate c =>
        match insertKeyed (certificates db) (cert_Serial c) c with
        | inl e => (inl e, db)
        | inr t => (inr 0, setCertificates db t)
        end
    | RowCertificateStatus c =>
        match insertKeyed (certificateStatus db) (status_Serial c) c with
        | inl e => (inl e, db)
        | inr t => (inr 0, setCertificateStatus db t)
        end
    | RowFQDNSet f => (inr 0, setFqdnSets db (fqdnSets db ++ [f]))
    end).

Definition updateKeyed {V} (t : gmap string V) (k : string) (v : V)
  : Z * gmap string V :=
  match t !! k with
  | Some _ => (1, <[k := v]> t)
  | None => (0, t)
  end.

Definition replaceChall (m : challModel) (c : challModel) : challModel :=
  if bool_decide (chall_ID c = chall_ID m) then m else c.

(** [tx.Update]: rewrites the row with the model's primary key and reports
    the number of rows changed. *)
Definition Update (r : row) : Tx Z :=
  call (fun db =>
    match r with
    | RowPendingAuthz m =>
        let '(n, t) := updateKeyed (pendingAuthorizations db) (ID (pending_Authorization m))
                         (columns (pending_Authorization m), LockCol m) in
        (inr n, setPendingAuthorizations db t)
    | RowAuthz m =>
        let '(n, t) := updateKeyed (authz db) (ID (authz_Authorization m))
                         (columns (authz_Authorization m)) in
        (inr n, setAuthz db t)
    | RowChall m =>
        let n := length (filter (fun c => chall_ID c = chall_ID m) (challenges db)) in
        (inr (Z.of_nat n),
         setChallenges db (map (replaceChall m) (challenges db)) (nextChallengeID db))
    | RowCertificate c =>
        let '(n, t) := updateKeyed (certificates db) (cert_Serial c) c in
        (inr n, setCertificates db t)
    | RowCertificateStatus c =>
        let '(n, t) := updateKeyed (certificateStatus db) (status_Serial c) c in
        (inr n, setCertificateStatus db t)
    | RowFQDNSet f => (inr 0, db)
    end).

Definition deleteKeyed {V} (t : gmap string V) (k : string) : Z * gmap string V :=
  match t !! k with
  | Some _ => (1, delete k t)
  | None => (0, t)
  end.

(** [tx.Delete]: an argument that is no pointer is refused without a
    storage call; for a pointer the row with the model's primary key is
    removed.  (No call of sa.go hands [tx.Delete] a pointer; what gorp checks
    then besides the key, the version column, is not modelled.) *)
Definition Delete (o : operand) : Tx Z :=
  match o with
  | structValue _ => fail passedNonPointer
  | pointerTo r =>
      call (fun db =>
        match r with
        | RowPendingAuthz m =>
            let '(n, t) :=
              deleteKeyed (pendingAuthorizations db) (ID (pending_Authorization m)) in
            (inr n, setPendingAuthorizations db t)
        | RowAuthz m =>
            let '(n, t) := deleteKeyed (authz db) (ID (authz_Authorization m)) in
            (inr n, setAuthz db t)
        | RowChall m =>
            let n := length (filter (fun c => chall_ID c = chall_ID m) (challenges db)) in
            (inr (Z.of_nat n),
             setChallenges db (filter (fun c => chall_ID c <> chall_ID m) (challenges db))
                           (nextChallengeID db))
        | RowCertificate c =>
            let '(n, t) := deleteKeyed (certificates db) (cert_Serial c) in
            (inr n, setCertificates db t)
        | RowCertificateStatus c =>
            let '(n, t) := deleteKeyed (certificateStatus db) (status_Serial c) in
            (inr n, setCertificateStatus db t)
        | RowFQDNSet f => (inr 0, db)
        end)
  end.

(** [tx.Select(&challs, getChallengesQuery, authID)].
    Modelled from the spec: [getChallengesQuery] is not part of sa.go; it
    yields the challenge rows associated with one authorization, here in
    stored order. *)
Definition SelectChallenges (authID : string) : Tx (list challModel) :=
  call (fun db =>
    (inr (filter (fun c => chall_AuthorizationID c = authID) (challenges db)), db)).

Definition setRowStatus (newStatus : AcmeStatus) (only : list AcmeStatus)
    (c : authzColumns) : option authzColumns :=
  if bool_decide (col_Status c ∈ only) then Some (columnsWithStatus c newStatus) else None.

Definition noSuchTable : error := DriverError "Error 1146: Table doesn't exist".

(** [tx.Exec("UPDATE <table> SET status = ? WHERE id = ? and status IN (?, ?)")]:
    the row is rewritten only if its status is, at that moment, one of
    [only]; the result is the number of rows changed. *)
Definition ExecUpdateStatus (table : string) (newStatus : AcmeStatus) (id : string)
    (only : list AcmeStatus) : Tx Z :=
  call (fun db =>
    if (table =? pendingAuthorizationsTable)%string then
      match pendingAuthorizations db !! id with
      | Some (c, lockCol) =>
          match setRowStatus newStatus only c with
          | Some c' =>
              (inr 1, setPendingAuthorizations db
                        (<[id := (c', lockCol)]> (pendingAuthorizations db)))
          | None => (inr 0, db)
          end
      | None => (inr 0, db)
      end
    else if (table =? authzTable)%string then
      match authz db !! id with
      | Some c =>
          match setRowStatus newStatus only c with
          | Some c' => (inr 1, setAuthz db (<[id := c']> (authz db)))
          | None => (inr 0, db)
          end
      | None => (inr 0, db)
      end
    else (inl noSuchTable, db)).

Definition syntaxError : error := DriverError "Error 1064: You have an error in your SQL syntax".

(** [tx.Exec("INSERT INTO issuedNames (reversedName, serial, notBefore) VALUES
    (?, ?, ?), ...")]: one statement for all rows.  With no row the text ends
    in [VALUES ;], which the database rejects. *)
Definition ExecInsertIssuedNames (values : list issuedName) : Tx Z :=
  call (fun db =>
    match values with
    | [] => (inl syntaxError, db)
    | _ => (inr (Z.of_nat (length values)), setIssuedNames db (issuedNames db ++ values))
    end).

(** Modelled from the spec: [getAuthz] lives in sa/authz.go, not in sa.go.
    It is the tagged lookup of the specification: it returns the stored
    entity and the tag of the location holding it, and fails with NotFound
    when neither location has the id.  The tag is the table's name: sa.go
    interpolates it into the UPDATE statement of [DeactivateAuthorization] and
    compares it with the two names in [FinalizeAuthorization] and
    [RevokeAuthorizationsByDomain].  The functions below read only the status
    and the key of the returned entity. *)
Definition getAuthz (id : string) : Tx (Authorization * string) :=
  call (fun db =>
    match pendingAuthorizations db !! id with
    | Some (pa, _) => (inr (fromColumns id pa, pendingAuthorizationsTable), db)
    | None =>
        match authz db !! id with
        | Some fa => (inr (fromColumns id fa, authzTable), db)
        | None => (inl (NotFoundError "No pendingAuthorization or authz with this ID"), db)
        end
    end).

(** Modelled from the spec: [authzIdExists] lives in sa/authz.go.  An id
    exists when a record in either storage location has it. *)
Definition authzIdExists (tx : Transaction) (id : string) : bool :=
  bool_decide (is_Some (pendingAuthorizations (tx_db tx) !! id))
  || bool_decide (is_Some (authz (tx_db tx) !! id)).

(** ** Name normalisation (package core) *)

Definition toLowerAscii (c : ascii) : ascii :=
  let n := N_of_ascii c in
  if ((65 <=? n) && (n <=? 90))%N then ascii_of_N (n + 32) else c.

(** [strings.ToLower] on the bytes of a domain name. *)
Fixpoint ToLower (s : string) : string :=
  match s with
  | EmptyString => EmptyString
  | String c s' => String (toLowerAscii c) (ToLower s')
  end.

Definition string_le (s1 s2 : string) : Prop := String.leb s1 s2 = true.

#[global] Instance string_le_dec : RelDecision string_le.
Proof. intros s1 s2. unfold string_le. apply _. Defined.

(** Modelled from the spec: [core.UniqueLowerNames] is not part of sa.go.
    It lower-cases every name, removes the duplicates and returns the names
    in an order that does not depend on the order of the input; the order
    taken here is the byte-wise one of [sort.Strings]. *)
Definition UniqueLowerNames (names : list string) : list string :=
  merge_sort string_le (remove_dups (map ToLower names)).

(** ** The storage authority *)

(** The authority's state: the committed database and the clock, with the
    two sources of events the code cannot see into: the outcomes of the
    storage calls to come ([script]) and the tokens [core.NewToken] will
    draw ([tokens], from position [tokenIndex]). *)
Record SQLStorageAuthority : Type := mkSA {
  dbMap : DbState;
  clk : Time;
  script : list (option error);
  tokens : nat -> string;
  tokenIndex : nat }.

Definition withScript (ssa : SQLStorageAuthority) (s : list (option error)) :=
  mkSA (dbMap ssa) (clk ssa) s (tokens ssa) (tokenIndex ssa).

(** [ssa.dbMap.Begin()]. *)
Definition Begin (ssa : SQLStorageAuthority)
  : (error + Transaction) * SQLStorageAuthority :=
  match script ssa with
  | Some e :: rest => (inl e, withScript ssa rest)
  | o => (inr (mkTx (dbMap ssa) (tl o)), withScript ssa (tl o))
  end.

(** Modelled from the spec: [Rollback] lives in sa/rollback.go.  It rolls the
    transaction back and returns the precipitating error unchanged. *)
Definition Rollback (tx : Transaction) (err : error) : error := err.

(** The authority once a transaction has been rolled back or abandoned: the
    committed database is the one from before [Begin]. *)
Definition leave (ssa : SQLStorageAuthority) (tx : Transaction) : SQLStorageAuthority :=
  withScript ssa (tx_script tx).

(** [tx.Commit()]: the working copy becomes the committed database, unless
    the call fails. *)
Definition Commit (ssa : SQLStorageAuthority) (tx : Transaction)
  : option error * SQLStorageAuthority :=
  match tx_script tx with
  | Some e :: rest => (Some e, withScript ssa rest)
  | o => (None, mkSA (tx_db tx) (clk ssa) (tl o) (tokens ssa) (tokenIndex ssa))
  end.

(** A storage call outside any transaction ([ssa.dbMap.Select...]). *)
Definition query {A} (ssa : SQLStorageAuthority) (q : DbState -> A)
  : (error + A) * SQLStorageAuthority :=
  match script ssa with
  | Some e :: rest => (inl e, withScript ssa rest)
  | o => (inr (q (dbMap ssa)), withScript ssa (tl o))
  end.

(** Modelled from the spec: [core.NewToken()] yields a random ID; here the
    next token of the stream. *)
Definition NewToken (ssa : SQLStorageAuthority) : string * SQLStorageAuthority :=
  (tokens ssa (tokenIndex ssa),
   mkSA (dbMap ssa) (clk ssa) (script ssa) (tokens ssa) (S (tokenIndex ssa))).

Section StorageAuthority.

(** What sa.go takes from the rest of the repository and from its
    libraries. *)

(** [pendingStatuses] (sa/authz.go): the statuses counted as pending. *)
Variable pendingStatuses : list AcmeStatus.
(** [authorizationTables] (sa/authz.go): the names of the authorization
    tables, in the order they are visited. *)
Variable authorizationTables : list string.
(** [challengeToModel], [modelToChallenge] (sa/model.go). *)
Variable challengeToModel : Challenge -> string -> error + challModel.
Variable modelToChallenge : challModel -> error + Challenge.
(** [x509.ParseCertificate], [core.Fingerprint256], [core.SerialToString],
    [core.ReverseName], [sha256.Sum256]. *)
Variable ParseCertificate : list Z -> error + x509Certificate.
Variable Fingerprint256 : list Z -> string.
Variable SerialToString : Z -> string.
Variable ReverseName : string -> string.
Variable Sum256 : string -> list Z.

(** Modelled from the spec: [statusIsPending] lives in sa/authz.go.  A
    status is pending when it is one of the statuses considered pending. *)
Definition statusIsPending (status : AcmeStatus) : bool :=
  bool_decide (status ∈ pendingStatuses).

(** The loop of [updateChallenges] over the supplied challenges, [challs]
    being the stored rows from position [i] on. *)
Fixpoint updateChallengeRows (challenges : list Challenge) (challs : list challModel)
  : Tx unit :=
  match challenges, challs with
  | authChall :: challenges', stored :: challs' =>
      match challengeToModel authChall (chall_AuthorizationID stored) with
      | inl err => fail err
      | inr chall =>
          let chall := challWithID chall (chall_ID stored) in
          let* _ := Update (RowChall chall) in
          updateChallengeRows challenges' challs'
      end
  | _, _ => ret tt
  end.

Definition updateChallenges (authID : string) (challenges : list Challenge) : Tx unit :=
  let* challs := SelectChallenges authID in
  if negb (length challs =? length challenges)%nat
  then fail (errorString "Invalid number of challenges provided")
  else updateChallengeRows challenges challs.

(** The loop of [NewPendingAuthorization] over the challenges; it yields the
    challenges as converted back from the inserted rows. *)
Fixpoint insertChallenges (authID : string) (cs : list Challenge) : Tx (list Challenge) :=
  match cs with
  | [] => ret []
  | c :: cs' =>
      match challengeToModel c authID with
      | inl err => fail err
      | inr challModel =>
          let* id := Insert (RowChall challModel) in
          let challModel := challWithID challModel id in
          match modelToChallenge challModel with
          | inl err => fail err
          | inr challenge =>
              let* rest := insertChallenges authID cs' in
              ret (challenge :: rest)
          end
      end
  end.

(** [for authzIdExists(tx, authz.ID) { authz.ID = core.NewToken() }]; the
    fuel bounds the number of times the condition is evaluated. *)
Fixpoint regenerateID (fuel : nat) (tx : Transaction) (ssa : SQLStorageAuthority)
    (id : string) : option (string * SQLStorageAuthority) :=
  match fuel with
  | O => None
  | S fuel' =>
      if authzIdExists tx id
      then let '(id', ssa') := NewToken ssa in regenerateID fuel' tx ssa' id'
      else Some (id, ssa)
  end.

(** [NewPendingAuthorization]; [None] when the fuel does not suffice for the
    id loop. *)
Definition NewPendingAuthorization (fuel : nat) (ssa : SQLStorageAuthority)
    (authz : Authorization)
  : option ((Authorization * option error) * SQLStorageAuthority) :=
  let result := emptyAuthorization in
  match Begin ssa with
  | (inl err, ssa) => Some ((result, Some err), ssa)
  | (inr tx, ssa) =>
      let '(id, ssa) := NewToken ssa in
      match regenerateID fuel tx ssa id with
      | None => None
      | Some (id, ssa) =>
          let authz := withID authz id in
          let authz := withStatus authz StatusPending in
          let pendingAuthz := mkAuthz authz in
          match (let* _ := Insert (RowAuthz pendingAuthz) in
                 insertChallenges (ID (authz_Authorization pendingAuthz)) (Challenges authz)) tx
          with
          | (inl err, tx) => Some ((result, Some (Rollback tx err)), leave ssa tx)
          | (inr challenges', tx) =>
              let '(err, ssa) := Commit ssa tx in
              let result := authz_Authorization pendingAuthz in
              let result := withChallenges result challenges' in
              Some ((result, err), ssa)
          end
      end
  end.

(** The statements of [UpdatePendingAuthorization] between [Begin] and
    [Commit]; each failure is followed by [Rollback] and [return]. *)
Definition updatePendingSteps (authz : Authorization) : Tx unit :=
  if negb (statusIsPending (Status authz))
  then fail (errorString "Use FinalizeAuthorization() to update to a final status")
  else
    let* '(dbAuthz, table) := getAuthz (ID authz) in
    if negb (statusIsPending (Status dbAuthz))
    then fail (errorString "Cannot update a non-pending authorization")
    else
      match
        (if (table =? "pendingAuthorization")%string
         then inr (RowPendingAuthz (mkPendingAuthz authz 0))
         else if (table =? "authz")%string
         then inr (RowAuthz (mkAuthz authz))
         else inl (errorString "Internal error. Table mismatch updating authz"))
      with
      | inl err => fail err
      | inr updateAuth =>
          let* _ := Update updateAuth in
          updateChallenges (ID authz) (Challenges authz)
      end.

Definition UpdatePendingAuthorization (ssa : SQLStorageAuthority) (authz : Authorization)
  : option error * SQLStorageAuthority :=
  match Begin ssa with
  | (inl err, ssa) => (Some err, ssa)
  | (inr tx, ssa) =>
      match updatePendingSteps authz tx with
      | (inl err, tx) => (Some (Rollback tx err), leave ssa tx)
      | (inr _, tx) => Commit ssa tx
      end
  end.

(** The statements of [FinalizeAuthorization] between [Begin] and [Commit];
    each failure is followed by [Rollback] and [return].  [newRow] and
    [updatedRow] are pointers ([&authzModel{authz}]); [oldRow] is the struct
    [pendingauthzModel{Authorization: dbAuthz}] itself, its [LockCol] zero. *)
Definition finalizeSteps (authz : Authorization) : Tx unit :=
  let* '(dbAuthz, table) := getAuthz (ID authz) in
  if negb (statusIsPending (Status dbAuthz))
  then fail (errorString "Cannot finalize an authorization that is not pending")
  else if statusIsPending (Status authz)
  then fail (errorString "Cannot finalize an authorization to a non-final status")
  else
    let* _ :=
      (if (table =? "pendingAuthorizations")%string then
         let oldRow := mkPendingAuthz dbAuthz 0 in
         let newRow := mkAuthz authz in
         let* _ := Insert (RowAuthz newRow) in
         let* _ := Delete (structValue (RowPendingAuthz oldRow)) in
         ret tt
       else if (table =? "authz")%string then
         let updatedRow := mkAuthz authz in
         let* _ := Update (RowAuthz updatedRow) in
         ret tt
       else fail (errorString "Internal error finalizing authz from unknown table")) in
    updateChallenges (ID authz) (Challenges authz).

Definition FinalizeAuthorization (ssa : SQLStorageAuthority) (authz : Authorization)
  : option error * SQLStorageAuthority :=
  match Begin ssa with
  | (inl err, ssa) => (Some err, ssa)
  | (inr tx, ssa) =>
      match finalizeSteps authz tx with
      | (inl err, tx) => (Some (Rollback tx err), leave ssa tx)
      | (inr _, tx) => Commit ssa tx
      end
  end.

(** [DeactivateAuthorization].  The first two returns leave the transaction
    open: it is neither committed nor rolled back. *)
Definition DeactivateAuthorization (ssa : SQLStorageAuthority) (id : string)
  : option error * SQLStorageAuthority :=
  match Begin ssa with
  | (inl err, ssa) => (Some err, ssa)
  | (inr tx, ssa) =>
      match getAuthz id tx with
      | (inl err, tx) => (Some err, leave ssa tx)
      | (inr (authz, table), tx) =>
          if negb (Status authz =? StatusPending)%string
             && negb (Status authz =? StatusValid)%string
          then (None, leave ssa tx)
          else
            match ExecUpdateStatus table StatusDeactivated id
                    [StatusPending; StatusValid] tx with
            | (inl err, tx) => (Some (Rollback tx err), leave ssa tx)
            | (inr _, tx) => Commit ssa tx
            end
      end
  end.

(** [hashNames]. *)
Definition hashNames (names : list string) : list Z :=
  let names := UniqueLowerNames names in
  Sum256 (String.concat "," names).

Definition addFQDNSet (names : list string) (serial : string) (issued expires : Time)
  : Tx unit :=
  let* _ := Insert (RowFQDNSet (mkFQDNSet (hashNames names) serial issued expires)) in
  ret tt.

Definition issuedNameRows (cert : x509Certificate) : list issuedName :=
  map (fun name =>
         mkIssuedName (ReverseName name) (SerialToString (SerialNumber cert)) (NotBefore cert))
      (DNSNames cert).

Definition addIssuedNames (cert : x509Certificate) : Tx unit :=
  let* _ := ExecInsertIssuedNames (issuedNameRows cert) in
  ret tt.

Definition newCertificate (ssa : SQLStorageAuthority) (certDER : list Z) (regID : Z)
    (parsedCertificate : x509Certificate) : Certificate :=
  mkCertificate regID (SerialToString (SerialNumber parsedCertificate))
    (Fingerprint256 certDER) certDER (clk ssa) (NotAfter parsedCertificate).

Definition newCertificateStatus (serial : string) : CertificateStatus :=
  mkCertificateStatus false "good" zeroTime [] serial zeroTime 0 0.

(** [AddCertificate]; the digest is a named result and is returned with
    every error raised after it was computed. *)
Definition AddCertificate (ssa : SQLStorageAuthority) (certDER : list Z) (regID : Z)
  : (string * option error) * SQLStorageAuthority :=
  match ParseCertificate certDER with
  | inl err => (("", Some err)%string, ssa)
  | inr parsedCertificate =>
      let digest := Fingerprint256 certDER in
      let serial := SerialToString (SerialNumber parsedCertificate) in
      let cert := newCertificate ssa certDER regID parsedCertificate in
      let certStatus := newCertificateStatus serial in
      match Begin ssa with
      | (inl err, ssa) => ((digest, Some err), ssa)
      | (inr tx, ssa) =>
          match (let* _ := Insert (RowCertificate cert) in
                 let* _ := Insert (RowCertificateStatus certStatus) in
                 let* _ := addIssuedNames parsedCertificate in
                 addFQDNSet (DNSNames parsedCertificate) serial
                   (NotBefore parsedCertificate) (NotAfter parsedCertificate)) tx
          with
          | (inl err, tx) => ((digest, Some (Rollback tx err)), leave ssa tx)
          | (inr _, tx) =>
              let '(err, ssa) := Commit ssa tx in ((digest, err), ssa)
          end
      end
  end.

(** The WHERE clause of the query of [countCertificatesByName]. *)
Definition matchesName (reversedDomain : string) (earliest latest : Time)
    (r : issuedName) : bool :=
  ((reversedName r =? reversedDomain)%string
   || String.prefix (reversedDomain +:+ ".") (reversedName r))
  && (earliest <? notBefore r) && (notBefore r <=? latest).

(** [SELECT serial from issuedNames WHERE ... LIMIT :limit]. *)
Definition selectSerials (reversedDomain : string) (earliest latest : Time) (limit : Z)
    (db : DbState) : list string :=
  take (Z.to_nat limit)
    (map name_serial (filter (fun r => matchesName reversedDomain earliest latest r = true)
                             (issuedNames db))).

(** [countCertificatesByName].  [count] is declared and compared with [max],
    and nothing assigns it. *)
Definition countCertificatesByName (ssa : SQLStorageAuthority) (domain : string)
    (earliest latest : Time) : (Z * option error) * SQLStorageAuthority :=
  let count := 0 in
  let max := 10000 in
  match query ssa (selectSerials (ReverseName domain) earliest latest (max + 1)) with
  | (inl err, ssa) =>
      if bool_decide (err = ErrNoRows) then ((0, None), ssa)
      else ((-1, Some err), ssa)
  | (inr serials, ssa) =>
      if max <? count
      then ((max, Some (TooManyCertificatesError
                          ("More than 10000 issuedName entries for " +:+ domain +:+ "."))),
            ssa)
      else
        let serialMap : gset string := list_to_set serials in
        ((Z.of_nat (size serialMap), None), ssa)
  end.

(** The WHERE clause of the query of [CountPendingAuthorizations]. *)
Definition countsAsPending (regID : Z) (now : Time) (statuses : list AcmeStatus)
    (a : authzColumns) : bool :=
  (col_RegistrationID a =? regID)
  && match col_Expires a with Some e => now <? e | None => false end
  && bool_decide (col_Status a ∈ statuses).

(** [SELECT COUNT(1) FROM <table> WHERE registrationID = ? AND expires > ?
    AND status IN (...)]. *)
Definition selectCount (table : string) (regID : Z) (now : Time)
    (statuses : list AcmeStatus) (db : DbState) : error + Z :=
  if (table =? pendingAuthorizationsTable)%string then
    inr (Z.of_nat (length (filter
          (fun kv => countsAsPending regID now statuses kv.2.1 = true)
          (map_to_list (pendingAuthorizations db)))))
  else if (table =? authzTable)%string then
    inr (Z.of_nat (length (filter
          (fun kv => countsAsPending regID now statuses kv.2 = true)
          (map_to_list (authz db)))))
  else inl noSuchTable.

(** The loop of [CountPendingAuthorizations] over the tables. *)
Fixpoint countPendingLoop (tables : list string) (ssa : SQLStorageAuthority) (regID : Z)
    (count : Z) : (Z * option error) * SQLStorageAuthority :=
  match tables with
  | [] => ((count, None), ssa)
  | table :: tables' =>
      match query ssa (selectCount table regID (clk ssa) pendingStatuses) with
      | (inr (inr tableCount), ssa) => countPendingLoop tables' ssa regID (count + tableCount)
      | (_, ssa) => ((count, None), ssa)
      end
  end.

Definition CountPendingAuthorizations (ssa : SQLStorageAuthority) (regID : Z)
  : (Z * option error) * SQLStorageAuthority :=
  countPendingLoop authorizationTables ssa regID 0.

End StorageAuthority.

(** ** The read operations and the remaining writes *)

(** How a Go function ends: it returns, or it panics. *)
Inductive outcome (A : Type) : Type :=
| Returns (a : A)
| Panics (msg : string).

Arguments Returns {A} a.
Arguments Panics {A} msg.

#[global] Instance AcmeIdentifier_eq_dec : EqDecision AcmeIdentifier.
Proof. solve_decision. Defined.

(** Modelled from the spec: [core.IdentifierDNS] and [core.OCSPStatusRevoked],
    constants of package core; their values are the names the specification
    uses. *)
Definition IdentifierDNS : string := "dns".
Definition OCSPStatusRevoked : string := "revoked".

Definition emptyCertificate : Certificate := mkCertificate 0 "" "" [] zeroTime zeroTime.
Definition emptyCertificateStatus : CertificateStatus :=
  mkCertificateStatus false "" zeroTime [] "" zeroTime 0 0.

(** [GetAuthorization].  With an error of [getAuthz] the zero authorization
    is returned. *)
Definition GetAuthorization (ssa : SQLStorageAuthority) (id : string)
  : (Authorization * option error) * SQLStorageAuthority :=
  match Begin ssa with
  | (inl err, ssa) => ((emptyAuthorization, Some err), ssa)
  | (inr tx, ssa) =>
      match getAuthz id tx with
      | (inl err, tx) => ((emptyAuthorization, Some (Rollback tx err)), leave ssa tx)
      | (inr (authz, _), tx) =>
          let '(err, ssa) := Commit ssa tx in ((authz, err), ssa)
      end
  end.

(** The WHERE clause of the query of [GetValidAuthorizations]; the
    identifier column holds the JSON text of the identifier, and two
    identifiers have the same text exactly when they are equal. *)
Definition validFor (regID : Z) (now : Time) (names : list string) (c : authzColumns)
  : bool :=
  (col_RegistrationID c =? regID)
  && match col_Expires c with Some e => now <? e | None => false end
  && bool_decide (col_Identifier c ∈ map (mkIdentifier IdentifierDNS) names)
  && (col_Status c =? "valid")%string.

(** [SELECT * FROM authz WHERE registrationID = ? AND expires > ? AND
    identifier IN (...) AND status = 'valid'], the rows in the order the
    table yields them. *)
Definition selectValid (regID : Z) (now : Time) (names : list string) (db : DbState)
  : list Authorization :=
  map (fun kv => fromColumns kv.1 kv.2)
      (filter (fun kv => validFor regID now names kv.2 = true) (map_to_list (authz db))).

Section ReadOperations.

(** [strconv.Quote], the [%q] of [fmt]. *)
Variable Quote : string -> string.
(** [core.ValidSerial], [core.ReverseName], [sha256.Sum256]. *)
Variable ValidSerial : string -> bool.
Variable ReverseName : string -> string.
Variable Sum256 : string -> list Z.

(** The loop of [GetValidAuthorizations] over the rows.  Dereferencing the
    expiry of an entry of [byName] panics when it is nil. *)
Fixpoint latestByName (auths : list Authorization) (byName : gmap string Authorization)
  : outcome (error + gmap string Authorization) :=
  match auths with
  | [] => Returns (inr byName)
  | auth :: auths' =>
      match Expires auth with
      | None => latestByName auths' byName
      | Some expires =>
          if negb (IdentType (Identifier auth) =? IdentifierDNS)%string
          then Returns (inl (errorString
                 ("unknown identifier type: " +:+ Quote (IdentType (Identifier auth))
                  +:+ " on authz id " +:+ Quote (ID auth))))
          else
            match byName !! IdentValue (Identifier auth) with
            | None => latestByName auths' (<[IdentValue (Identifier auth) := auth]> byName)
            | Some existing =>
                match Expires existing with
                | None => Panics "invalid memory address or nil pointer dereference"
                | Some existingExpires =>
                    if existingExpires <? expires
                    then latestByName auths'
                           (<[IdentValue (Identifier auth) := auth]> byName)
                    else latestByName auths' byName
                end
            end
      end
  end.

(** [GetValidAuthorizations]; the nil map is the empty map. *)
Definition GetValidAuthorizations (ssa : SQLStorageAuthority) (registrationID : Z)
    (names : list string) (now : Time)
  : outcome ((gmap string Authorization * option error) * SQLStorageAuthority) :=
  if (length names =? 0)%nat
  then Returns ((∅, Some (errorString "GetValidAuthorizations: no names received")), ssa)
  else
    match query ssa (selectValid registrationID now names) with
    | (inl err, ssa) => Returns ((∅, Some err), ssa)
    | (inr auths, ssa) =>
        match latestByName auths ∅ with
        | Panics msg => Panics msg
        | Returns (inl err) => Returns ((∅, Some err), ssa)
        | Returns (inr byName) => Returns ((byName, None), ssa)
        end
    end.

(** The loop of [CountCertificatesByNames] over the domains. *)
Fixpoint countByNamesLoop (domains : list string) (ssa : SQLStorageAuthority)
    (earliest latest : Time) (ret : gmap string Z)
  : (gmap string Z * option error) * SQLStorageAuthority :=
  match domains with
  | [] => ((ret, None), ssa)
  | domain :: domains' =>
      match countCertificatesByName ReverseName ssa domain earliest latest with
      | ((_, Some err), ssa) => ((ret, Some err), ssa)
      | ((currentCount, None), ssa) =>
          countByNamesLoop domains' ssa earliest latest (<[domain := currentCount]> ret)
      end
  end.

Definition CountCertificatesByNames (ssa : SQLStorageAuthority) (domains : list string)
    (earliest latest : Time) : (gmap string Z * option error) * SQLStorageAuthority :=
  countByNamesLoop domains ssa earliest latest ∅.

(** [GetCertificate]. *)
Definition GetCertificate (ssa : SQLStorageAuthority) (serial : string)
  : (Certificate * option error) * SQLStorageAuthority :=
  if negb (ValidSerial serial)
  then ((emptyCertificate, Some (errorString ("Invalid certificate serial " +:+ serial))), ssa)
  else
    match query ssa (fun db => certificates db !! serial) with
    | (inl err, ssa) => ((emptyCertificate, Some err), ssa)
    | (inr None, ssa) =>
        ((emptyCertificate, Some (NotFoundError ("No certificate found for " +:+ serial))), ssa)
    | (inr (Some cert), ssa) => ((cert, None), ssa)
    end.

(** [GetCertificateStatus].  The row fetched is converted without a check:
    when there is none, the conversion of the nil value panics. *)
Definition GetCertificateStatus (ssa : SQLStorageAuthority) (serial : string)
  : outcome ((CertificateStatus * option error) * SQLStorageAuthority) :=
  if negb (ValidSerial serial)
  then Returns ((emptyCertificateStatus,
                 Some (errorString ("Invalid certificate serial " +:+ serial))), ssa)
  else
    match query ssa (fun db => certificateStatus db !! serial) with
    | (inl err, ssa) => Returns ((emptyCertificateStatus, Some err), ssa)
    | (inr None, ssa) =>
        Panics "interface conversion: interface is nil, not *core.CertificateStatus"
    | (inr (Some status), ssa) => Returns ((status, None), ssa)
    end.

Definition revokedStatus (status : CertificateStatus) (now : Time) (reasonCode : Z)
  : CertificateStatus :=
  mkCertificateStatus (SubscriberApproved status) OCSPStatusRevoked (OCSPLastUpdated status)
    (OCSPResponse status) (status_Serial status) now reasonCode (status_LockCol status).

(** The statements of [MarkCertificateRevoked] between [Begin] and [Commit];
    each failure is followed by [Rollback] and [return] (after [n == 0] the
    error returned is the one made there). *)
Definition markRevokedSteps (serial : string) (now : Time) (reasonCode : Z) : Tx unit :=
  let* statusObj := call (fun db => (inr (certificateStatus db !! serial), db)) in
  match statusObj with
  | None => fail (errorString ("No certificate with serial " +:+ serial))
  | Some status =>
      let status := revokedStatus status now reasonCode in
      let* n := Update (RowCertificateStatus status) in
      if n =? 0
      then fail (errorString "No certificate updated. Maybe the lock column was off?")
      else ret tt
  end.

(** [MarkCertificateRevoked]. *)
Definition MarkCertificateRevoked (ssa : SQLStorageAuthority) (serial : string)
    (reasonCode : Z) : outcome (option error * SQLStorageAuthority) :=
  match GetCertificate ssa serial with
  | ((_, Some _), ssa) =>
      Returns (Some (errorString ("Unable to mark certificate " +:+ serial
                                  +:+ " revoked: cert not found.")), ssa)
  | ((_, None), ssa) =>
      match GetCertificateStatus ssa serial with
      | Panics msg => Panics msg
      | Returns ((_, Some _), ssa) =>
          Returns (Some (errorString ("Unable to mark certificate " +:+ serial
                                      +:+ " revoked: cert status not found.")), ssa)
      | Returns ((_, None), ssa) =>
          match Begin ssa with
          | (inl err, ssa) => Returns (Some err, ssa)
          | (inr tx, ssa) =>
              match markRevokedSteps serial (clk ssa) reasonCode tx with
              | (inl err, tx) => Returns (Some (Rollback tx err), leave ssa tx)
              | (inr _, tx) => Returns (Commit ssa tx)
              end
          end
      end
  end.

(** [CountCertificatesRange]. *)
Definition CountCertificatesRange (ssa : SQLStorageAuthority) (start end_ : Time)
  : (Z * option error) * SQLStorageAuthority :=
  match query ssa (fun db =>
          Z.of_nat (length (filter
            (fun kv => (start <=? cert_Issued kv.2) && (cert_Issued kv.2 <? end_) = true)
            (map_to_list (certificates db))))) with
  | (inl err, ssa) => ((0, Some err), ssa)
  | (inr count, ssa) => ((count, None), ssa)
  end.

(** [SELECT COUNT(1) FROM fqdnSets WHERE setHash = ? AND issued > ?]. *)
Definition countSets (setHash : list Z) (after : Time) (db : DbState) : Z :=
  Z.of_nat (length (filter
    (fun f => SetHash f = setHash /\ after < set_Issued f) (fqdnSets db))).

(** [SELECT COUNT(1) FROM fqdnSets WHERE setHash = ? LIMIT 1]: the limit
    bounds the rows of the answer, which is one row, the count. *)
Definition countSetsEver (setHash : list Z) (db : DbState) : Z :=
  Z.of_nat (length (filter (fun f => SetHash f = setHash) (fqdnSets db))).

(** [CountFQDNSets]. *)
Definition CountFQDNSets (ssa : SQLStorageAuthority) (window : Z) (names : list string)
  : (Z * option error) * SQLStorageAuthority :=
  match query ssa (countSets (hashNames Sum256 names) (clk ssa + - window)) with
  | (inl err, ssa) => ((0, Some err), ssa)
  | (inr count, ssa) => ((count, None), ssa)
  end.

(** [FQDNSetExists]. *)
Definition FQDNSetExists (ssa : SQLStorageAuthority) (names : list string)
  : (bool * option error) * SQLStorageAuthority :=
  match query ssa (countSetsEver (hashNames Sum256 names)) with
  | (inl err, ssa) => ((0 <? 0, Some err), ssa)
  | (inr count, ssa) => ((0 <? count, None), ssa)
  end.

End ReadOperations.

(** The columns of the registrations table the query of
    [CountRegistrationsByIP] reads.  The table is kept beside [DbState]: no
    function above reads or writes it. *)
Record registrationRow : Type := mkRegistrationRow {
  reg_id : Z;
  initialIP : list Z;
  createdAt : Time }.

(** The order of byte strings in the database: byte by byte, a proper prefix
    first. *)
Fixpoint bytesCompare (a b : list Z) : comparison :=
  match a, b with
  | [], [] => Eq
  | [], _ :: _ => Lt
  | _ :: _, [] => Gt
  | x :: a', y :: b' =>
      match x ?= y with
      | Eq => bytesCompare a' b'
      | c => c
      end
  end.

(** The WHERE clause of the query of [CountRegistrationsByIP].  A nil slice
    is handed to the database as NULL, and no row compares with NULL. *)
Definition registeredIn (beginIP endIP : list Z) (earliest latest : Time)
    (r : registrationRow) : bool :=
  negb (bool_decide (beginIP = [])) && negb (bool_decide (endIP = []))
  && negb (bool_decide (bytesCompare beginIP (initialIP r) = Gt))
  && bool_decide (bytesCompare (initialIP r) endIP = Lt)
  && (earliest <? createdAt r) && (createdAt r <=? latest).

(** [CountRegistrationsByIP]. *)
Definition CountRegistrationsByIP (ssa : SQLStorageAuthority)
    (registrations : list registrationRow) (ip : IP) (earliest latest : Time)
  : (Z * option error) * SQLStorageAuthority :=
  let '(beginIP, endIP) := ipRange ip in
  match query ssa (fun _ =>
          Z.of_nat (length (filter
            (fun r => registeredIn beginIP endIP earliest latest r = true) registrations)))
  with
  | (inl err, ssa) => ((-1, Some err), ssa)
  | (inr count, ssa) => ((count, None), ssa)
  end.

(** ** Vocabulary of the properties *)

(** The set of names a list denotes: lower-cased, without order or
    repetition. *)
Definition nameSet (names : list string) : gset string :=
  list_to_set (map ToLower names).

(** A script without failure: every storage call to come goes through. *)
Definition quiet (s : list (option error)) : Prop := Forall (fun o => o = None) s.

(** The tables [selectCount] knows. *)
Definition knownTable (table : string) : Prop :=
  table = pendingAuthorizationsTable \/ table = authzTable.

(** The number of rows of one table the query of
    [CountPendingAuthorizations] counts. *)
Definition pendingIn (pendingStatuses : list AcmeStatus) (ssa : SQLStorageAuthority)
    (regID : Z) (table : string) : Z :=
  match selectCount table regID (clk ssa) pendingStatuses (dbMap ssa) with
  | inr n => n
  | inl _ => 0
  end.

Definition sumZ (l : list Z) : Z := foldr Z.add 0 l.

(** Where one id is stored, as [getAuthz] finds it: the columns and the name
    of the table. *)
Definition located (db : DbState) (id : string) : option (authzColumns * string) :=
  match pendingAuthorizations db !! id with
  | Some (c, _) => Some (c, pendingAuthorizationsTable)
  | None =>
      match authz db !! id with
      | Some c => Some (c, authzTable)
      | None => None
      end
  end.

(** The status of the authorization [id], whichever table holds it. *)
Definition statusOf (db : DbState) (id : string) : option AcmeStatus :=
  match located db id with
  | Some (c, _) => Some (col_Status c)
  | None => None
  end.

(** The challenge rows stored for one authorization. *)
Definition challengesOf (db : DbState) (authID : string) : list challModel :=
  filter (fun c => chall_AuthorizationID c = authID) (challenges db).

(** The challenge table once the rows [challs] have been rewritten, one by
    one, with the supplied challenges; [None] when a conversion fails. *)
Fixpoint rewriteChallengeRows (challengeToModel : Challenge -> string -> error + challModel)
    (challenges : list Challenge) (challs : list challModel) (table : list challModel)
  : option (list challModel) :=
  match challenges, challs with
  | authChall :: challenges', stored :: challs' =>
      match challengeToModel authChall (chall_AuthorizationID stored) with
      | inl _ => None
      | inr chall =>
          rewriteChallengeRows challengeToModel challenges' challs'
            (map (replaceChall (challWithID chall (chall_ID stored))) table)
      end
  | _, _ => Some table
  end.

(** The challenge table after a successful [updateChallenges]: as many
    challenges are supplied as rows are stored, and every conversion
    succeeds. *)
Definition rewrittenChallenges (challengeToModel : Challenge -> string -> error + challModel)
    (db : DbState) (authz : Authorization) : option (list challModel) :=
  let challs := challengesOf db (ID authz) in
  if (length challs =? length (Challenges authz))%nat
  then rewriteChallengeRows challengeToModel (Challenges authz) challs (challenges db)
  else None.

(** Whether a record in either storage location has the id. *)
Definition recordExists (db : DbState) (id : string) : bool :=
  bool_decide (is_Some (pendingAuthorizations db !! id))
  || bool_decide (is_Some (authz db !! id)).

(** The rows [NewPendingAuthorization] inserts for the challenges [cs] of the
    authorization [authID] when the challenge table's next key is [next],
    and the challenges it returns: one row per challenge, in order, each the
    model of its challenge with the next key as ID, and each returned
    challenge its row converted back. *)
Fixpoint insertedRows (challengeToModel : Challenge -> string -> error + challModel)
    (modelToChallenge : challModel -> error + Challenge)
    (authID : string) (next : Z) (cs : list Challenge)
    (rows : list challModel) (returned : list Challenge) : Prop :=
  match cs, rows, returned with
  | [], [], [] => True
  | c :: cs', row :: rows', c' :: returned' =>
      (exists m, challengeToModel c authID = inr m /\ row = challWithID m next)
      /\ modelToChallenge row = inr c'
      /\ insertedRows challengeToModel modelToChallenge authID (next + 1) cs' rows' returned'
  | _, _, _ => False
  end.

(** Challenges both conversions accept, whatever key the row is given. *)
Definition convertible (challengeToModel : Challenge -> string -> error + challModel)
    (modelToChallenge : challModel -> error + Challenge)
    (authID : string) (cs : list Challenge) : Prop :=
  Forall (fun c => exists m, challengeToModel c authID = inr m
                     /\ forall n, exists c', modelToChallenge (challWithID m n) = inr c') cs.

(** The operations of the store that write an authorization's status. *)
Inductive operation : Type :=
| OpNewPending (fuel : nat) (auth : Authorization)
| OpUpdatePending (auth : Authorization)
| OpFinalize (auth : Authorization)
| OpDeactivate (id : string).

(** The authority after one operation ([None]: the id loop of
    [NewPendingAuthorization] ran out of fuel). *)
Definition perform (pendingStatuses : list AcmeStatus)
    (challengeToModel : Challenge -> string -> error + challModel)
    (modelToChallenge : challModel -> error + Challenge)
    (op : operation) (ssa : SQLStorageAuthority) : option SQLStorageAuthority :=
  match op with
  | OpNewPending fuel auth =>
      match NewPendingAuthorization challengeToModel modelToChallenge fuel ssa auth with
      | Some (_, ssa') => Some ssa'
      | None => None
      end
  | OpUpdatePending auth =>
      Some (UpdatePendingAuthorization pendingStatuses challengeToModel ssa auth).2
  | OpFinalize auth =>
      Some (FinalizeAuthorization pendingStatuses challengeToModel ssa auth).2
  | OpDeactivate id => Some (DeactivateAuthorization ssa id).2
  end.

Section LedgerVocabulary.

Variable Fingerprint256 : list Z -> string.
Variable SerialToString : Z -> string.
Variable ReverseName : string -> string.
Variable Sum256 : string -> list Z.

(** The database once a certificate is recorded: the four kinds of rows. *)
Definition recorded (ssa : SQLStorageAuthority) (certDER : list Z) (regID : Z)
    (cert : x509Certificate) : DbState :=
  let db := dbMap ssa in
  let serial := SerialToString (SerialNumber cert) in
  setFqdnSets
    (setIssuedNames
       (setCertificateStatus
          (setCertificates db
             (<[serial := mkCertificate regID serial (Fingerprint256 certDER) certDER
                            (clk ssa) (NotAfter cert)]> (certificates db)))
          (<[serial := mkCertificateStatus false "good" zeroTime [] serial zeroTime 0 0]>
             (certificateStatus db)))
       (issuedNames db
          ++ map (fun name => mkIssuedName (ReverseName name) serial (NotBefore cert))
                 (DNSNames cert)))
    (fqdnSets db
       ++ [mkFQDNSet (hashNames Sum256 (DNSNames cert)) serial (NotBefore cert)
             (NotAfter cert)]).

(** The four inserts of [AddCertificate], as one sequence of steps. *)
Definition recordSteps (ssa : SQLStorageAuthority) (certDER : list Z) (regID : Z)
    (cert : x509Certificate) : Tx unit :=
  let* _ := Insert (RowCertificate
                      (newCertificate Fingerprint256 SerialToString ssa certDER regID cert)) in
  let* _ := Insert (RowCertificateStatus
                      (newCertificateStatus (SerialToString (SerialNumber cert)))) in
  let* _ := addIssuedNames SerialToString ReverseName cert in
  addFQDNSet Sum256 (DNSNames cert) (SerialToString (SerialNumber cert))
    (NotBefore cert) (NotAfter cert).

End LedgerVocabulary.

(** The number of distinct serials among the index rows
    [countCertificatesByName] fetches for a domain: the first 10,001 rows
    of the domain and its subdomains in the time window. *)
Definition serialsFetched (ReverseName : string -> string) (db : DbState)
    (earliest latest : Time) (domain : string) : Z :=
  Z.of_nat (size (list_to_set
    (selectSerials (ReverseName domain) earliest latest 10001 db) : gset string)).

(** ** Sample data *)

Module Sample.

(** A stand-in for the digest: the bytes of the text. *)
Definition Sum256 (s : string) : list Z :=
  map (fun c => Z.of_N (N_of_ascii c)) (list_ascii_of_string s).

Definition pendingStatuses : list AcmeStatus := [StatusPending].
Definition authorizationTables : list string := [authzTable; pendingAuthorizationsTable].

Definition challengeToModel (c : Challenge) (authID : string) : error + challModel :=
  inr (mkChall (ChallengeID c) authID (ChallengeType c) (ChallengeStatus c) (ChallengeToken c)).
Definition modelToChallenge (m : challModel) : error + Challenge :=
  inr (mkChallenge (chall_ID m) (chall_Type m) (chall_Status m) (chall_Token m)).

Definition example_com : AcmeIdentifier := mkIdentifier "dns" "example.com".

Definition http01 : Challenge := mkChallenge 0 "http-01" "pending" "token-1".
Definition dns01 : Challenge := mkChallenge 0 "dns-01" "pending" "token-2".

(** A pending authorization of registration 1, without challenge. *)
Definition pendingA : Authorization :=
  mkAuthorization "a" example_com 1 StatusPending (Some 100) [].

(** The same authorization held by the legacy table, and by the unified
    table. *)
Definition legacyDb : DbState :=
  setPendingAuthorizations emptyDb {[ "a"%string := (columns pendingA, 1) ]}.
Definition unifiedDb : DbState :=
  setAuthz emptyDb {[ "a"%string := columns pendingA ]}.

(** One pending authorization of registration 1 in each table. *)
Definition pendingB : Authorization :=
  mkAuthorization "b" example_com 1 StatusPending (Some 100) [].
Definition bothDb : DbState :=
  setAuthz legacyDb {[ "b"%string := columns pendingB ]}.

Definition authority (db : DbState) (s : list (option error)) : SQLStorageAuthority :=
  mkSA db 10 s (fun n => pretty n) 0.

Definition connectionLost : error := DriverError "invalid connection".

(** An authority whose first token is the id of a stored record. *)
Definition collidingAuthority (db : DbState) : SQLStorageAuthority :=
  mkSA db 10 [] (fun n => if (n =? 0)%nat then "a"%string else pretty n) 0.

(** The authorization in the unified table with one stored challenge, and
    the update that reports the challenge as valid. *)
Definition challengedDb : DbState :=
  setChallenges unifiedDb [mkChall 1 "a" "http-01" "pending" "token-1"] 2.
Definition pendingA_validated : Authorization :=
  withChallenges pendingA [mkChallenge 1 "http-01" "valid" "token-1"].

(** The authorization held by the legacy table, with the same stored
    challenge. *)
Definition challengedLegacyDb : DbState :=
  setChallenges legacyDb [mkChall 1 "a" "http-01" "pending" "token-1"] 2.

(** The same authorization, valid. *)
Definition validDb : DbState :=
  setAuthz emptyDb {[ "a"%string := columns (withStatus pendingA StatusValid) ]}.

(** Stand-ins for the decoder and the functions of package core. *)
Definition ParseCertificate (der : list Z) : error + x509Certificate :=
  match der with
  | [] => inl (errorString "asn1: syntax error")
  | b :: _ => inr (mkX509 b ["a.example.com"; "A.EXAMPLE.COM"; "b.example.com"]%string 5 95)
  end.
Definition Fingerprint256 (der : list Z) : string := pretty (Net.SetBytes der).
Definition SerialToString (n : Z) : string := pretty n.
Definition ReverseName (name : string) : string := name.

(** 10,001 index entries for example.com, each of another certificate. *)
Definition crowdedNames (reversedDomain : string) : list issuedName :=
  map (fun n : nat => mkIssuedName reversedDomain (pretty n) 5) (seq 0 (Z.to_nat 10001)).
Definition crowdedDb (reversedDomain : string) : DbState :=
  setIssuedNames emptyDb (crowdedNames reversedDomain).

(** Stand-ins for [core.ValidSerial] and for the quoting of [fmt]. *)
Definition ValidSerial (serial : string) : bool := negb (serial =? "")%string.
Definition Quote (s : string) : string := "'" +:+ s +:+ "'".

(** The certificate the stand-in decoder reads from the byte 7. *)
Definition cert7 : x509Certificate :=
  mkX509 7 ["a.example.com"; "A.EXAMPLE.COM"; "b.example.com"]%string 5 95.

(** A certificate row without status row. *)
Definition orphanDb : DbState :=
  setCertificates emptyDb {[ "7"%string := mkCertificate 1 "7" "7" [7] 10 95 ]}.

(** Four registrations: two from 1.2.3.4, one from 1.2.3.5 and one from
    2001:db8:0:1::7. *)
Definition registrations : list registrationRow :=
  [ mkRegistrationRow 1 (Net.v4InV6Prefix ++ [1; 2; 3; 4]) 20;
    mkRegistrationRow 2 (Net.v4InV6Prefix ++ [1; 2; 3; 5]) 30;
    mkRegistrationRow 3 [32; 1; 13; 184; 0; 1; 0; 0; 0; 0; 0; 0; 0; 0; 0; 7] 40;
    mkRegistrationRow 4 (Net.v4InV6Prefix ++ [1; 2; 3; 4]) 50 ].

End Sample.

(** * Properties *)

(** ** The range codec *)

Section RangeCodec.

Lemma fold_SetBytes (p : list Z) (a : Z) :
  fold_left (fun a b => a * 256 + b) p a = a * 256 ^ Z.of_nat (length p) + SetBytes p.
Proof.
  unfold SetBytes. revert a. induction p as [|b p IH]; intros a.
  - simpl. lia.
  - cbn [fold_left length]. rewrite IH, (IH (0 * 256 + b)).
    rewrite Nat2Z.inj_succ, Z.pow_succ_r by lia. ring.
Qed.

Lemma SetBytes_cons (b : Z) (p : list Z) :
  SetBytes (b :: p) = b * 256 ^ Z.of_nat (length p) + SetBytes p.
Proof. unfold SetBytes at 1. cbn [fold_left]. rewrite fold_SetBytes. ring. Qed.

Lemma SetBytes_app (p q : list Z) :
  SetBytes (p ++ q) = SetBytes p * 256 ^ Z.of_nat (length q) + SetBytes q.
Proof.
  unfold SetBytes at 1. rewrite fold_left_app. fold (SetBytes p).
  apply fold_SetBytes.
Qed.

Lemma SetBytes_zeros (n : nat) : SetBytes (replicate n 0) = 0.
Proof.
  induction n as [|n IH]; [reflexivity|].
  cbn [replicate]. rewrite SetBytes_cons, IH. lia.
Qed.

Lemma SetBytes_bound (p : list Z) :
  wellFormed p -> 0 <= SetBytes p < 256 ^ Z.of_nat (length p).
Proof.
  induction 1 as [|b p Hb _ IH].
  - cbn. lia.
  - rewrite SetBytes_cons. cbn [length]. rewrite Nat2Z.inj_succ, Z.pow_succ_r by lia.
    unfold isByte in Hb. nia.
Qed.

Lemma bytesLE_wellFormed (fuel : nat) (z : Z) : wellFormed (bytesLE fuel z).
Proof.
  revert z. induction fuel as [|fuel IH]; intros z; cbn [bytesLE].
  - constructor.
  - destruct (z <=? 0); constructor; [|apply IH].
    unfold isByte. apply Z.mod_pos_bound. lia.
Qed.

Lemma SetBytes_bytesLE (fuel : nat) (z : Z) :
  0 <= z < 256 ^ Z.of_nat fuel -> SetBytes (rev (bytesLE fuel z)) = z.
Proof.
  revert z. induction fuel as [|fuel IH]; intros z Hz.
  - cbn in *. lia.
  - cbn [bytesLE]. destruct (Z.leb_spec z 0) as [H0|H0].
    + cbn. lia.
    + cbn [rev]. rewrite SetBytes_app, IH.
      * cbn. pose proof (Z.div_mod z 256). lia.
      * rewrite Nat2Z.inj_succ, Z.pow_succ_r in Hz by lia.
        split; [apply Z.div_pos; lia|apply Z.div_lt_upper_bound; lia].
Qed.

Lemma length_bytesLE_le (n fuel : nat) (z : Z) :
  z < 256 ^ Z.of_nat n -> (length (bytesLE fuel z) <= n)%nat.
Proof.
  revert n z. induction fuel as [|fuel IH]; intros n z Hz; cbn [bytesLE].
  - cbn. lia.
  - destruct (Z.leb_spec z 0) as [H0|H0]; [cbn; lia|].
    destruct n as [|n]; [cbn in Hz; lia|].
    cbn [length]. apply le_n_S, IH.
    rewrite Nat2Z.inj_succ, Z.pow_succ_r in Hz by lia.
    apply Z.div_lt_upper_bound; lia.
Qed.

Lemma length_bytesLE_gt (n fuel : nat) (z : Z) :
  256 ^ Z.of_nat n <= z -> (n < fuel)%nat -> (n < length (bytesLE fuel z))%nat.
Proof.
  revert n z. induction fuel as [|fuel IH]; intros n z Hz Hn; [lia|].
  cbn [bytesLE].
  assert (0 < 256 ^ Z.of_nat n) by (apply Z.pow_pos_nonneg; lia).
  destruct (Z.leb_spec z 0) as [H0|H0]; [lia|].
  cbn [length]. destruct n as [|n]; [lia|].
  apply -> Nat.succ_lt_mono. apply IH; [|lia].
  rewrite Nat2Z.inj_succ, Z.pow_succ_r in Hz by lia.
  apply Z.div_le_lower_bound; lia.
Qed.

Lemma fuel_suffices (z : Z) : 0 <= z -> z < 256 ^ Z.of_nat (S (Z.to_nat (Z.log2 z))).
Proof.
  intros Hz. destruct (Z.eq_dec z 0) as [->|Hne].
  - cbn. lia.
  - pose proof (Z.log2_spec z ltac:(lia)) as [_ Hlt].
    pose proof (Z.log2_nonneg z) as Hl.
    rewrite Nat2Z.inj_succ, Z2Nat.id by lia.
    eapply Z.lt_le_trans; [exact Hlt|].
    change 256 with (2 ^ 8). rewrite <- Z.pow_mul_r by lia.
    apply Z.pow_le_mono_r; lia.
Qed.

Lemma SetBytes_Bytes (z : Z) : 0 <= z -> SetBytes (Bytes z) = z.
Proof.
  intros Hz. unfold Bytes. apply SetBytes_bytesLE. split; [lia|].
  by apply fuel_suffices.
Qed.

Lemma length_Bytes_le (n : nat) (z : Z) :
  z < 256 ^ Z.of_nat n -> (length (Bytes z) <= n)%nat.
Proof. intros Hz. unfold Bytes. rewrite length_rev. by apply length_bytesLE_le. Qed.

Lemma length_Bytes_gt (n : nat) (z : Z) :
  256 ^ Z.of_nat n <= z -> (n < length (Bytes z))%nat.
Proof.
  intros Hz. unfold Bytes. rewrite length_rev.
  assert (0 < 256 ^ Z.of_nat n) by (apply Z.pow_pos_nonneg; lia).
  apply length_bytesLE_gt; [done|].
  destruct (Nat.lt_ge_cases n (S (Z.to_nat (Z.log2 z)))) as [|Hge]; [done|exfalso].
  pose proof (fuel_suffices z ltac:(lia)) as Hf.
  assert (256 ^ Z.of_nat (S (Z.to_nat (Z.log2 z))) <= 256 ^ Z.of_nat n)
    by (apply Z.pow_le_mono_r; lia).
  lia.
Qed.

(** The sum fits 16 bytes: [incrementIP] returns it, padded to 16 bytes. *)
Lemma incrementIP_fits (ip : IP) (index : Z) :
  wellFormed ip -> 0 <= index <= 128 ->
  SetBytes ip + 2 ^ (128 - index) < 2 ^ 128 ->
  length (incrementIP ip index) = 16%nat
  /\ SetBytes (incrementIP ip index) = SetBytes ip + 2 ^ (128 - index).
Proof.
  intros Hwf Hi Hfit. unfold incrementIP.
  rewrite (Z.mod_small (128 - index)) by lia.
  rewrite Z.shiftl_1_l.
  pose proof (SetBytes_bound ip Hwf) as [Hlo _].
  assert (0 < 2 ^ (128 - index)) by (apply Z.pow_pos_nonneg; lia).
  set (z := SetBytes ip + 2 ^ (128 - index)) in *.
  pose proof (length_Bytes_le 16 z ltac:(change (256 ^ Z.of_nat 16) with (2 ^ 128); lia)) as Hlen.
  destruct (Nat.ltb_spec 16 (length (Bytes z))) as [|_]; [lia|].
  split.
  - rewrite length_app, length_replicate. lia.
  - rewrite SetBytes_app, SetBytes_zeros, SetBytes_Bytes by lia. lia.
Qed.

(** The sum does not fit 16 bytes: [incrementIP] returns the highest address. *)
Lemma incrementIP_clamps (ip : IP) (index : Z) :
  0 <= index <= 128 ->
  2 ^ 128 <= SetBytes ip + 2 ^ (128 - index) ->
  incrementIP ip index = maxIP.
Proof.
  intros Hi Hover. unfold incrementIP.
  rewrite (Z.mod_small (128 - index)) by lia.
  rewrite Z.shiftl_1_l.
  set (z := SetBytes ip + 2 ^ (128 - index)) in *.
  pose proof (length_Bytes_gt 16 z ltac:(change (256 ^ Z.of_nat 16) with (2 ^ 128); lia)).
  destruct (Nat.ltb_spec 16 (length (Bytes z))) as [|]; [done|lia].
Qed.

Lemma land_byte_255 (b : Z) : isByte b -> Z.land b 255 = b.
Proof.
  intros Hb. change 255 with (Z.ones 8). rewrite Z.land_ones by lia.
  apply Z.mod_small. exact Hb.
Qed.

Ltac bytes16 ip Hlen Hwf :=
  do 17 (destruct ip as [|? ip]; try discriminate Hlen);
  unfold wellFormed in Hwf;
  repeat match type of Hwf with
         | Forall _ (_ :: _) => apply Forall_cons in Hwf as [? Hwf]
         end.

Lemma Mask_128 (ip : IP) :
  wellFormed ip -> length ip = 16%nat -> Mask ip (CIDRMask 128 128) = ip.
Proof.
  intros Hwf Hlen.
  change (CIDRMask 128 128) with (replicate 16 255).
  bytes16 ip Hlen Hwf. cbn -[Z.land].
  by rewrite !land_byte_255.
Qed.

Lemma Mask_48 (ip : IP) :
  wellFormed ip -> length ip = 16%nat ->
  Mask ip (CIDRMask 48 128) = take 6 ip ++ replicate 10 0.
Proof.
  intros Hwf Hlen.
  change (CIDRMask 48 128) with (replicate 6 255 ++ replicate 10 0).
  bytes16 ip Hlen Hwf. cbn -[Z.land].
  by rewrite !land_byte_255, !Z.land_0_r.
Qed.

Lemma To4_16 (ip : IP) :
  length ip = 16%nat -> To4 ip <> [] ->
  take 12 ip = v4InV6Prefix.
Proof.
  intros Hlen. unfold To4. rewrite Hlen. cbn [Nat.eqb andb].
  do 17 (destruct ip as [|? ip]; try discriminate Hlen).
  cbn -[Z.eqb]. unfold v4InV6Prefix.
  repeat match goal with
         | |- context [(?a =? ?b)] =>
             destruct (Z.eqb_spec a b); cbn -[Z.eqb]; [subst|congruence]
         end.
  done.
Qed.

Lemma SetBytes_v4 (ip : IP) :
  wellFormed ip -> length ip = 16%nat -> take 12 ip = v4InV6Prefix ->
  SetBytes ip + 1 < 2 ^ 128.
Proof.
  intros Hwf Hlen Hpre.
  rewrite <- (take_drop 12 ip), Hpre, SetBytes_app.
  assert (wellFormed (drop 12 ip)) as Hd by (by apply Forall_drop).
  apply SetBytes_bound in Hd. rewrite length_drop, Hlen in *.
  change (Z.of_nat (16 - 12)) with 4 in *.
  change (SetBytes v4InV6Prefix) with 65535. lia.
Qed.

Lemma SetBytes_masked (ip : IP) :
  wellFormed ip -> length ip = 16%nat ->
  SetBytes (take 6 ip ++ replicate 10 0) = SetBytes ip / 2 ^ 80 * 2 ^ 80
  /\ 0 <= SetBytes ip / 2 ^ 80 < 2 ^ 48.
Proof.
  intros Hwf Hlen.
  assert (wellFormed (take 6 ip)) as Ht by (by apply Forall_take).
  assert (wellFormed (drop 6 ip)) as Hd by (by apply Forall_drop).
  apply SetBytes_bound in Ht, Hd.
  rewrite length_take, Hlen in Ht. rewrite length_drop, Hlen in Hd.
  change (Z.of_nat (6 `min` 16)) with 6 in Ht. change (Z.of_nat (16 - 6)) with 10 in Hd.
  assert (SetBytes ip = SetBytes (take 6 ip) * 2 ^ 80 + SetBytes (drop 6 ip)) as ->.
  { rewrite <- (take_drop 6 ip) at 1. rewrite SetBytes_app, length_drop, Hlen. done. }
  rewrite SetBytes_app, SetBytes_zeros, length_replicate.
  change (256 ^ Z.of_nat 10) with (2 ^ 80) in *. change (256 ^ 6) with (2 ^ 48) in *.
  change (256 ^ 10) with (2 ^ 80) in *.
  rewrite Z.div_add_l, (Z.div_small (SetBytes (drop 6 ip))) by lia.
  lia.
Qed.


End RangeCodec.

(** C8.  For an IPv4 address (given in 4 or in 16 bytes) [ipRange] returns
    the address itself, in its 16-byte form, and the address one higher.
    For any other 16-byte address it keeps the leading 48 bits, clears the
    other 80, and returns that network base with the base plus 2^80; when
    this sum exceeds the highest address, 2^128 - 1, the upper bound is the
    highest address. *)
Theorem ipRange_spec (ip : IP) :
  wellFormed ip -> length ip = 4%nat \/ length ip = 16%nat ->
  let '(begin, end_) := ipRange ip in
  length begin = 16%nat /\ length end_ = 16%nat /\
  if isIPv4 ip
  then begin = To16 ip /\ SetBytes end_ = SetBytes begin + 1
  else begin = take 6 ip ++ replicate 10 0
       /\ SetBytes begin = SetBytes ip / 2 ^ 80 * 2 ^ 80
       /\ SetBytes end_ = Z.min (SetBytes begin + 2 ^ 80) (2 ^ 128 - 1).
Proof.
  intros Hwf Hlen. unfold ipRange, isIPv4.
  assert (wellFormed (To16 ip) /\ length (To16 ip) = 16%nat
          /\ (To4 (To16 ip) <> [] <-> To4 ip <> [])
          /\ (To4 ip = [] -> To16 ip = ip)) as (Hwf16 & Hlen16 & Hv4 & Hsame).
  { destruct Hlen as [Hlen|Hlen]; unfold To16; rewrite Hlen; cbn [Nat.eqb].
    - repeat split.
      + apply Forall_app. split; [|done].
        unfold v4InV6Prefix. repeat constructor; unfold isByte; lia.
      + rewrite length_app, Hlen. reflexivity.
      + intros _. unfold To4. rewrite Hlen. cbn [Nat.eqb]. intros ->. discriminate Hlen.
      + intros _. do 5 (destruct ip as [|? ip]; try discriminate Hlen).
        cbn. discriminate.
      + unfold To4. rewrite Hlen. cbn [Nat.eqb]. intros ->. discriminate Hlen.
    - repeat split; done. }
  destruct (decide (To4 ip <> [])) as [H4|H6].
  - rewrite (bool_decide_eq_true_2 (To4 ip <> [])) by done.
    rewrite (bool_decide_eq_true_2 (To4 (To16 ip) <> [])) by (by apply Hv4).
    rewrite Mask_128 by done.
    apply Hv4 in H4. apply To4_16 in H4; [|done].
    pose proof (SetBytes_v4 _ Hwf16 Hlen16 H4) as Hfit.
    destruct (incrementIP_fits (To16 ip) 128 Hwf16 ltac:(lia)
                ltac:(change (2 ^ (128 - 128)) with 1; lia)) as [Hl Hv].
    change (2 ^ (128 - 128)) with 1 in Hv. done.
  - rewrite (bool_decide_eq_false_2 (To4 ip <> [])) by done.
    rewrite (bool_decide_eq_false_2 (To4 (To16 ip) <> [])) by (by rewrite Hv4).
    assert (To16 ip = ip) as Heq by (apply Hsame; by destruct (To4 ip); [|exfalso; apply H6]).
    rewrite Heq in *. rewrite Mask_48 by done.
    destruct (SetBytes_masked ip Hwf16 Hlen16) as [Hbase Hhi].
    assert (wellFormed (take 6 ip ++ replicate 10 0)) as Hwfb.
    { apply Forall_app. split; [by apply Forall_take|].
      apply Forall_replicate. unfold isByte. lia. }
    assert (length (take 6 ip ++ replicate 10 0) = 16%nat) as Hlb
      by (rewrite length_app, length_take, length_replicate; lia).
    split; [done|].
    change (128 - 48) with 80 in *.
    destruct (Z_lt_ge_dec (SetBytes (take 6 ip ++ replicate 10 0) + 2 ^ 80) (2 ^ 128))
      as [Hfit|Hover].
    + destruct (incrementIP_fits _ 48 Hwfb ltac:(lia) Hfit) as [Hl Hv].
      change (128 - 48) with 80 in Hv.
      repeat split; try done. rewrite Hv. lia.
    + rewrite incrementIP_clamps by (change (128 - 48) with 80; lia).
      repeat split; try done.
      change (SetBytes maxIP) with (2 ^ 128 - 1). lia.
Qed.

(** The theorem at 1.2.3.4. *)
Lemma ipRange_spec_witness :
  wellFormed [1; 2; 3; 4] /\ length [1; 2; 3; 4] = 4%nat /\
  let '(begin, end_) := ipRange [1; 2; 3; 4] in
  length begin = 16%nat /\ length end_ = 16%nat /\
  begin = To16 [1; 2; 3; 4] /\ SetBytes end_ = SetBytes begin + 1.
Proof.
  assert (wellFormed [1; 2; 3; 4]) as Hwf
    by (unfold wellFormed, isByte; repeat constructor; lia).
  split; [exact Hwf|]. split; [reflexivity|].
  apply (ipRange_spec [1; 2; 3; 4] Hwf). left. reflexivity.
Defined.

Example ipRange_1_2_3_4 :
  ipRange [1; 2; 3; 4]
  = ([0;0;0;0;0;0;0;0;0;0;255;255;1;2;3;4], [0;0;0;0;0;0;0;0;0;0;255;255;1;2;3;5]).
Proof. vm_compute. reflexivity. Qed.

Example ipRange_v6 :
  ipRange [32;1;13;184;0;1;2;3;4;5;6;7;8;9;10;11]
  = ([32;1;13;184;0;1;0;0;0;0;0;0;0;0;0;0], [32;1;13;184;0;2;0;0;0;0;0;0;0;0;0;0]).
Proof. vm_compute. reflexivity. Qed.

Example ipRange_top :
  ipRange [255;255;255;255;255;255;2;3;4;5;6;7;8;9;10;11]
  = ([255;255;255;255;255;255;0;0;0;0;0;0;0;0;0;0], maxIP).
Proof. vm_compute. reflexivity. Qed.

(** ** The name-set digest *)

Lemma string_le_iff (s1 s2 : string) :
  string_le s1 s2 <-> s1 = s2 \/ String_as_OT.lt s1 s2.
Proof.
  unfold string_le, String.leb.
  rewrite <- String_as_OT.cmp_lt, <- String_as_OT.cmp_eq. unfold String_as_OT.cmp.
  destruct (String.compare s1 s2); intuition congruence.
Qed.

#[global] Instance string_le_total : Total string_le.
Proof. intros s1 s2. apply String.leb_total. Qed.

#[global] Instance string_le_antisym : AntiSymm (=) string_le.
Proof. intros s1 s2. apply String.leb_antisym. Qed.

#[global] Instance string_le_trans : Transitive string_le.
Proof.
  intros s1 s2 s3. rewrite !string_le_iff.
  intros [->|H12] [->|H23]; auto.
  right. by eapply String_as_OT.lt_trans.
Qed.

(** What [UniqueLowerNames] returns: exactly the lower-cased names, each
    once, in ascending order. *)
Lemma UniqueLowerNames_spec (names : list string) :
  (forall x, x ∈ UniqueLowerNames names <-> x ∈ nameSet names)
  /\ NoDup (UniqueLowerNames names)
  /\ StronglySorted string_le (UniqueLowerNames names).
Proof.
  unfold UniqueLowerNames, nameSet. repeat split.
  - rewrite merge_sort_Permutation, elem_of_remove_dups. by rewrite elem_of_list_to_set.
  - rewrite elem_of_list_to_set, merge_sort_Permutation. by rewrite elem_of_remove_dups.
  - rewrite merge_sort_Permutation. apply NoDup_remove_dups.
  - apply StronglySorted_merge_sort; apply _.
Qed.

Lemma UniqueLowerNames_canonical (L1 L2 : list string) :
  nameSet L1 = nameSet L2 -> UniqueLowerNames L1 = UniqueLowerNames L2.
Proof.
  intros Hset.
  destruct (UniqueLowerNames_spec L1) as (Hin1 & Hnd1 & Hs1).
  destruct (UniqueLowerNames_spec L2) as (Hin2 & Hnd2 & Hs2).
  apply (StronglySorted_unique string_le); [done|done|].
  apply NoDup_Permutation; [done|done|].
  intros x. by rewrite Hin1, Hin2, Hset.
Qed.

(** C9.  Two name lists that denote the same set of names once lower-cased
    (whatever the order, the letter case and the repetitions) have the same
    digest. *)
Theorem hashNames_same_set (Sum256 : string -> list Z) (L1 L2 : list string) :
  nameSet L1 = nameSet L2 -> hashNames Sum256 L1 = hashNames Sum256 L2.
Proof.
  intros Hset. unfold hashNames. by rewrite (UniqueLowerNames_canonical L1 L2).
Qed.

(** The theorem on a certificate's names, with case and repetition, against
    the two names in another order. *)
Lemma hashNames_same_set_witness :
  nameSet ["a.example.com"; "A.EXAMPLE.COM"; "b.example.com"]%string
  = nameSet ["b.example.com"; "a.example.com"]%string
  /\ hashNames Sample.Sum256 ["a.example.com"; "A.EXAMPLE.COM"; "b.example.com"]%string
     = hashNames Sample.Sum256 ["b.example.com"; "a.example.com"]%string.
Proof.
  assert (nameSet ["a.example.com"; "A.EXAMPLE.COM"; "b.example.com"]%string
          = nameSet ["b.example.com"; "a.example.com"]%string) as H
    by (vm_compute; reflexivity).
  split; [exact H|]. exact (hashNames_same_set Sample.Sum256 _ _ H).
Defined.

Example UniqueLowerNames_example :
  UniqueLowerNames ["b.Example.com"; "A.example.com"; "a.EXAMPLE.com"]%string
  = ["a.example.com"; "b.example.com"]%string.
Proof. vm_compute. reflexivity. Qed.

(** ** Storage calls under a script *)

Lemma quiet_tl (s : list (option error)) : quiet s -> quiet (tl s).
Proof. destruct 1; [constructor|done]. Qed.

Lemma quiet_nil : quiet [].
Proof. constructor. Qed.

#[local] Hint Resolve quiet_tl quiet_nil : core.

Lemma query_quiet {A} (ssa : SQLStorageAuthority) (q : DbState -> A) :
  quiet (script ssa) ->
  query ssa q = (inr (q (dbMap ssa)), withScript ssa (tl (script ssa))).
Proof.
  intros Hq. unfold query. destruct (script ssa) as [|[e|] rest]; try done.
  by inversion Hq.
Qed.

Lemma query_fails {A} (ssa : SQLStorageAuthority) (q : DbState -> A) e rest :
  script ssa = Some e :: rest -> query ssa q = (inl e, withScript ssa rest).
Proof. intros Hs. unfold query. by rewrite Hs. Qed.

Lemma query_passes {A} (ssa : SQLStorageAuthority) (q : DbState -> A) rest :
  script ssa = None :: rest -> query ssa q = (inr (q (dbMap ssa)), withScript ssa rest).
Proof. intros Hs. unfold query. by rewrite Hs. Qed.

(** ** Counting pending authorizations *)

Section CountPending.

Variable pendingStatuses : list AcmeStatus.

Lemma countPendingLoop_nil_error (tables : list string) ssa regID count :
  (countPendingLoop pendingStatuses tables ssa regID count).1.2 = None.
Proof.
  revert ssa count. induction tables as [|table tables IH]; intros ssa count; [done|].
  cbn [countPendingLoop].
  destruct (query ssa _) as [[e|[e|n]] ssa']; auto.
Qed.

Lemma pendingIn_withScript ssa s regID table :
  pendingIn pendingStatuses (withScript ssa s) regID table
  = pendingIn pendingStatuses ssa regID table.
Proof. done. Qed.

Lemma countPendingLoop_partial (done_ : list string) table rest ssa regID count e s' :
  Forall knownTable done_ ->
  script ssa = replicate (length done_) None ++ Some e :: s' ->
  (countPendingLoop pendingStatuses (done_ ++ table :: rest) ssa regID count).1
  = (count + sumZ (map (pendingIn pendingStatuses ssa regID) done_), None).
Proof.
  revert ssa count. induction done_ as [|t done_ IH]; intros ssa count Hk Hs.
  - cbn in *. rewrite (query_fails _ _ e s') by done. cbn. f_equal. lia.
  - apply Forall_cons in Hk as [Ht Hk]. cbn [app length replicate] in *.
    cbn [countPendingLoop].
    rewrite (query_passes _ _ _ Hs).
    assert (selectCount t regID (clk ssa) pendingStatuses (dbMap ssa)
            = inr (pendingIn pendingStatuses ssa regID t)) as ->.
    { unfold pendingIn, selectCount. destruct Ht as [->| ->]; done. }
    rewrite IH by done. cbn [map sumZ foldr]. f_equal.
    unfold sumZ. rewrite Z.add_assoc. reflexivity.
Qed.

Lemma countPendingLoop_complete (tables : list string) ssa regID count :
  Forall knownTable tables -> quiet (script ssa) ->
  (countPendingLoop pendingStatuses tables ssa regID count).1
  = (count + sumZ (map (pendingIn pendingStatuses ssa regID) tables), None).
Proof.
  revert ssa count. induction tables as [|t tables IH]; intros ssa count Hk Hq.
  - cbn. f_equal. lia.
  - apply Forall_cons in Hk as [Ht Hk]. cbn [countPendingLoop].
    rewrite query_quiet by done.
    assert (selectCount t regID (clk ssa) pendingStatuses (dbMap ssa)
            = inr (pendingIn pendingStatuses ssa regID t)) as ->.
    { unfold pendingIn, selectCount. destruct Ht as [->| ->]; done. }
    rewrite IH by (cbn; auto). cbn [map sumZ foldr]. f_equal.
    unfold sumZ. rewrite Z.add_assoc. reflexivity.
Qed.

(** C10.  [CountPendingAuthorizations] never returns an error.  When the
    query against one of the tables fails, the tables before it having been
    counted, it returns the sum of the counts of those tables (zero when the
    first query fails) and a nil error. *)
Theorem CountPendingAuthorizations_swallows_failure
    (authorizationTables done_ : list string) (table : string) (rest : list string)
    (ssa : SQLStorageAuthority) (regID : Z) (e : error) (s' : list (option error)) :
  authorizationTables = done_ ++ table :: rest ->
  Forall knownTable done_ ->
  script ssa = replicate (length done_) None ++ Some e :: s' ->
  (CountPendingAuthorizations pendingStatuses authorizationTables ssa regID).1
  = (sumZ (map (pendingIn pendingStatuses ssa regID) done_), None)
  /\ forall ssa' regID',
       (CountPendingAuthorizations pendingStatuses authorizationTables ssa' regID').1.2 = None.
Proof.
  intros -> Hk Hs. split.
  - unfold CountPendingAuthorizations.
    by rewrite (countPendingLoop_partial done_ table rest ssa regID 0 e s').
  - intros ssa' regID'. apply countPendingLoop_nil_error.
Qed.

End CountPending.

(** The theorem with the unified table counted and the query against the
    legacy table failing: the count is 1, although two pending
    authorizations are stored. *)
Lemma CountPendingAuthorizations_swallows_failure_witness :
  let ssa := Sample.authority Sample.bothDb [None; Some Sample.connectionLost] in
  Sample.authorizationTables = [authzTable] ++ pendingAuthorizationsTable :: []
  /\ Forall knownTable [authzTable]
  /\ script ssa = replicate (length [authzTable]) None ++ Some Sample.connectionLost :: []
  /\ (CountPendingAuthorizations Sample.pendingStatuses Sample.authorizationTables ssa 1).1
     = (1, None).
Proof.
  intros ssa.
  assert (Forall knownTable [authzTable]) as Hk by (repeat constructor; by right).
  split; [reflexivity|]. split; [exact Hk|]. split; [reflexivity|].
  exact (proj1 (CountPendingAuthorizations_swallows_failure Sample.pendingStatuses
                  Sample.authorizationTables [authzTable] pendingAuthorizationsTable []
                  ssa 1 Sample.connectionLost [] eq_refl Hk eq_refl)).
Defined.

(** Without failure the same store yields 2; with the unified table alone
    and no failure it yields 1, the answer of the failing run above. *)
Example CountPendingAuthorizations_true_counts :
  (CountPendingAuthorizations Sample.pendingStatuses Sample.authorizationTables
     (Sample.authority Sample.bothDb []) 1).1 = (2, None)
  /\ (CountPendingAuthorizations Sample.pendingStatuses Sample.authorizationTables
        (Sample.authority (setPendingAuthorizations Sample.bothDb ∅) []) 1).1 = (1, None).
Proof. split; vm_compute; reflexivity. Qed.

(** ** Counting certificates by name *)

Section CountCertificates.

Variable ReverseName : string -> string.

Lemma filter_Forall {A} (P : A -> Prop) `{!forall x, Decision (P x)} (l : list A) :
  Forall P l -> filter P l = l.
Proof.
  induction 1 as [|x l Hx _ IH]; [done|].
  rewrite filter_cons_True by done. by rewrite IH.
Qed.

(** Whenever the query goes through, the result is the number of distinct
    serials among the rows fetched, at most 10,001 of them, and no error:
    the comparison of [count] with [max] never holds. *)
Lemma countCertificatesByName_fetched ssa domain earliest latest :
  quiet (script ssa) ->
  (countCertificatesByName ReverseName ssa domain earliest latest).1
  = (Z.of_nat (size (list_to_set
       (selectSerials (ReverseName domain) earliest latest 10001 (dbMap ssa)) : gset string)),
     None).
Proof.
  intros Hq. unfold countCertificatesByName. by rewrite query_quiet.
Qed.

(** The only errors [countCertificatesByName] returns are those of the
    query: the overflow error is never raised. *)
Lemma countCertificatesByName_errors ssa domain earliest latest err :
  (countCertificatesByName ReverseName ssa domain earliest latest).1.2 = Some err ->
  exists rest, script ssa = Some err :: rest.
Proof.
  unfold countCertificatesByName, query.
  destruct (script ssa) as [|[e|] rest]; cbn; try done.
  case_bool_decide; cbn; [done|]. intros [= ->]. by exists rest.
Qed.

Lemma crowdedNames_serials rd :
  selectSerials rd 0 10 10001 (Sample.crowdedDb rd) = map pretty (seq 0 (Z.to_nat 10001)).
Proof.
  unfold selectSerials, Sample.crowdedDb, Sample.crowdedNames. cbn [issuedNames setIssuedNames].
  rewrite filter_Forall.
  - rewrite map_map. cbn [name_serial].
    apply take_ge. rewrite length_map, length_seq. reflexivity.
  - apply Forall_forall. intros r Hr. apply list_elem_of_In, in_map_iff in Hr as (n & <- & _).
    unfold matchesName. cbn [reversedName notBefore]. by rewrite String.eqb_refl.
Qed.

(** C7, at a store holding 10,001 matching index entries with distinct
    serials: [countCertificatesByName] returns 10,001 and no error, where its
    documentation and the specification promise the cap of 10,000 and the
    overflow error. *)
Theorem countCertificatesByName_exceeds_cap :
  (countCertificatesByName ReverseName
     (Sample.authority (Sample.crowdedDb (ReverseName "example.com")) [])
     "example.com" 0 10).1
  = (10001, None).
Proof.
  rewrite countCertificatesByName_fetched by constructor.
  cbn [dbMap Sample.authority]. rewrite crowdedNames_serials.
  rewrite size_list_to_set.
  - rewrite length_map, length_seq. reflexivity.
  - apply NoDup_fmap_2; [apply _|]. apply NoDup_seq.
Qed.

End CountCertificates.

(** ** Transactions under a script *)

Lemma call_quiet {A} (op : DbState -> (error + A) * DbState) (tx : Transaction) :
  quiet (tx_script tx) ->
  call op tx = ((op (tx_db tx)).1, mkTx (op (tx_db tx)).2 (tl (tx_script tx))).
Proof.
  intros Hq. unfold call. destruct (tx_script tx) as [|[e|] rest].
  - by destruct (op (tx_db tx)).
  - by inversion Hq.
  - by destruct (op (tx_db tx)).
Qed.

(** A storage call that succeeds has run its operation on the working copy. *)
Lemma call_inr {A} (op : DbState -> (error + A) * DbState) tx a tx' :
  call op tx = (inr a, tx') -> op (tx_db tx) = (inr a, tx_db tx').
Proof.
  unfold call. destruct (tx_script tx) as [|[e|] rest]; try done;
    destruct (op (tx_db tx)) as [r db']; by intros [= -> <-].
Qed.

Lemma bind_inr {A B} (m : Tx A) (k : A -> Tx B) tx b tx' :
  bind m k tx = (inr b, tx') ->
  exists a tx1, m tx = (inr a, tx1) /\ k a tx1 = (inr b, tx').
Proof.
  unfold bind. destruct (m tx) as [[e|a] tx1]; [done|]. intros H. by exists a, tx1.
Qed.

Lemma bind_run {A B} (m : Tx A) (k : A -> Tx B) tx a tx1 :
  m tx = (inr a, tx1) -> bind m k tx = k a tx1.
Proof. intros H. unfold bind. by rewrite H. Qed.

Lemma bind_fails {A B} (m : Tx A) (k : A -> Tx B) tx e tx1 :
  m tx = (inl e, tx1) -> bind m k tx = (inl e, tx1).
Proof. intros H. unfold bind. by rewrite H. Qed.

Lemma setChallenges_same (db : DbState) :
  setChallenges db (challenges db) (nextChallengeID db) = db.
Proof. by destruct db. Qed.

(** [Commit] either fails and leaves the committed database, or installs the
    working copy. *)
Lemma Commit_cases (ssa : SQLStorageAuthority) (tx : Transaction) :
  (exists e, (Commit ssa tx).1 = Some e /\ dbMap (Commit ssa tx).2 = dbMap ssa)
  \/ ((Commit ssa tx).1 = None /\ dbMap (Commit ssa tx).2 = tx_db tx).
Proof.
  unfold Commit. destruct (tx_script tx) as [|[e|] rest]; cbn; eauto.
Qed.

Lemma Commit_quiet (ssa : SQLStorageAuthority) (tx : Transaction) :
  quiet (tx_script tx) ->
  (Commit ssa tx).1 = None /\ dbMap (Commit ssa tx).2 = tx_db tx.
Proof.
  intros Hq. unfold Commit. destruct (tx_script tx) as [|[e|] rest]; cbn; try done.
  by inversion Hq.
Qed.

Lemma Begin_quiet (ssa : SQLStorageAuthority) :
  quiet (script ssa) ->
  Begin ssa = (inr (mkTx (dbMap ssa) (tl (script ssa))), withScript ssa (tl (script ssa))).
Proof.
  intros Hq. unfold Begin. destruct (script ssa) as [|[e|] rest]; try done.
  by inversion Hq.
Qed.

(** The transaction [Begin] opens works on the committed database. *)
Lemma Begin_inr (ssa : SQLStorageAuthority) tx ssa1 :
  Begin ssa = (inr tx, ssa1) -> tx_db tx = dbMap ssa /\ dbMap ssa1 = dbMap ssa
  /\ tokens ssa1 = tokens ssa /\ tokenIndex ssa1 = tokenIndex ssa.
Proof.
  unfold Begin. destruct (script ssa) as [|[e|] rest]; try done; by intros [= <- <-].
Qed.

Lemma Begin_inl (ssa : SQLStorageAuthority) e ssa1 :
  Begin ssa = (inl e, ssa1) -> dbMap ssa1 = dbMap ssa.
Proof.
  unfold Begin. destruct (script ssa) as [|[e'|] rest]; try done; by intros [= <- <-].
Qed.

(** ** The authorization store *)

Section AuthorizationStore.

Variable pendingStatuses : list AcmeStatus.
Variable challengeToModel : Challenge -> string -> error + challModel.
Variable modelToChallenge : challModel -> error + Challenge.

Lemma getAuthz_quiet (id : string) (tx : Transaction) :
  quiet (tx_script tx) ->
  getAuthz id tx
  = (match located (tx_db tx) id with
     | Some (c, table) => inr (fromColumns id c, table)
     | None => inl (NotFoundError "No pendingAuthorization or authz with this ID")
     end, mkTx (tx_db tx) (tl (tx_script tx))).
Proof.
  intros Hq. unfold getAuthz. rewrite call_quiet by done. unfold located.
  destruct (pendingAuthorizations (tx_db tx) !! id) as [[c l]|]; [done|].
  by destruct (authz (tx_db tx) !! id).
Qed.

Lemma getAuthz_inr (id : string) tx a table tx' :
  getAuthz id tx = (inr (a, table), tx') ->
  tx_db tx' = tx_db tx
  /\ exists c, located (tx_db tx) id = Some (c, table) /\ a = fromColumns id c.
Proof.
  intros H. apply call_inr in H. unfold located.
  destruct (pendingAuthorizations (tx_db tx) !! id) as [[c l]|].
  - injection H as <- <- <-. eauto.
  - destruct (authz (tx_db tx) !! id) as [c|]; [|done].
    injection H as <- <- <-. eauto.
Qed.

(** [updateChallenges] touches the challenge table only. *)
Lemma updateChallengeRows_tables cs challs tx tx' :
  updateChallengeRows challengeToModel cs challs tx = (inr tt, tx') ->
  pendingAuthorizations (tx_db tx') = pendingAuthorizations (tx_db tx)
  /\ authz (tx_db tx') = authz (tx_db tx).
Proof.
  revert challs tx. induction cs as [|c cs IH]; intros [|st challs] tx; cbn [updateChallengeRows];
    try (by intros [= <-]).
  destruct (challengeToModel c (chall_AuthorizationID st)) as [e|m]; [done|].
  intros H. apply bind_inr in H as (n & tx1 & H1 & H2).
  apply call_inr in H1. injection H1 as _ H1.
  apply IH in H2 as [-> ->]. by rewrite <- H1.
Qed.

Lemma updateChallenges_tables authID cs tx tx' :
  updateChallenges challengeToModel authID cs tx = (inr tt, tx') ->
  pendingAuthorizations (tx_db tx') = pendingAuthorizations (tx_db tx)
  /\ authz (tx_db tx') = authz (tx_db tx).
Proof.
  unfold updateChallenges. intros H. apply bind_inr in H as (challs & tx1 & H1 & H2).
  apply call_inr in H1. injection H1 as _ H1.
  destruct (negb _); [done|].
  apply updateChallengeRows_tables in H2 as [-> ->]. by rewrite <- H1.
Qed.

(** Without failure of the storage, [updateChallenges] succeeds exactly when
    [rewrittenChallenges] is defined, and leaves that challenge table. *)
Lemma updateChallengeRows_quiet cs challs tx :
  quiet (tx_script tx) ->
  exists s', quiet s' /\
    match rewriteChallengeRows challengeToModel cs challs (challenges (tx_db tx)) with
    | Some t' =>
        updateChallengeRows challengeToModel cs challs tx
        = (inr tt, mkTx (setChallenges (tx_db tx) t' (nextChallengeID (tx_db tx))) s')
    | None => exists e tx', updateChallengeRows challengeToModel cs challs tx = (inl e, tx')
    end.
Proof.
  revert challs tx. induction cs as [|c cs IH]; intros challs tx Hq.
  - exists (tx_script tx). split; [done|]. cbn. rewrite setChallenges_same. by destruct tx, challs.
  - destruct challs as [|st challs].
    { exists (tx_script tx). split; [done|]. cbn. rewrite setChallenges_same. by destruct tx. }
    cbn [rewriteChallengeRows updateChallengeRows].
    destruct (challengeToModel c (chall_AuthorizationID st)) as [e|m].
    { exists []. split; [done|]. by exists e, tx. }
    set (m' := challWithID m (chall_ID st)).
    pose (tx1 := mkTx (setChallenges (tx_db tx) (map (replaceChall m') (challenges (tx_db tx)))
                         (nextChallengeID (tx_db tx))) (tl (tx_script tx))).
    destruct (IH challs tx1 ltac:(cbn; auto)) as (s' & Hs' & Hrun).
    exists s'. split; [done|].
    assert (forall k : Z -> Tx unit, bind (Update (RowChall m')) k tx
                 = k (Z.of_nat (length (filter (fun c => chall_ID c = chall_ID m')
                                          (challenges (tx_db tx))))) tx1) as Hstep.
    { intros k. unfold bind, Update. by rewrite call_quiet. }
    rewrite Hstep. exact Hrun.
Qed.

Lemma updateChallenges_select (authz : Authorization) (tx : Transaction) :
  quiet (tx_script tx) ->
  updateChallenges challengeToModel (ID authz) (Challenges authz) tx
  = let tx1 := mkTx (tx_db tx) (tl (tx_script tx)) in
    if (length (challengesOf (tx_db tx) (ID authz)) =? length (Challenges authz))%nat
    then updateChallengeRows challengeToModel (Challenges authz)
           (challengesOf (tx_db tx) (ID authz)) tx1
    else (inl (errorString "Invalid number of challenges provided"), tx1).
Proof.
  intros Hq. unfold updateChallenges, SelectChallenges, bind.
  rewrite call_quiet by done. cbn [fst snd]. fold (challengesOf (tx_db tx) (ID authz)).
  by destruct (_ =? _)%nat.
Qed.

Lemma updateChallenges_quiet (authz : Authorization) (tx : Transaction) :
  quiet (tx_script tx) ->
  exists s', quiet s' /\
    match rewrittenChallenges challengeToModel (tx_db tx) authz with
    | Some t' =>
        updateChallenges challengeToModel (ID authz) (Challenges authz) tx
        = (inr tt, mkTx (setChallenges (tx_db tx) t' (nextChallengeID (tx_db tx))) s')
    | None =>
        exists e tx',
          updateChallenges challengeToModel (ID authz) (Challenges authz) tx = (inl e, tx')
    end.
Proof.
  intros Hq. rewrite updateChallenges_select by done. unfold rewrittenChallenges. cbn zeta.
  destruct (length (challengesOf (tx_db tx) (ID authz)) =? length (Challenges authz))%nat.
  - destruct (updateChallengeRows_quiet (Challenges authz) (challengesOf (tx_db tx) (ID authz))
                (mkTx (tx_db tx) (tl (tx_script tx))) ltac:(cbn; auto)) as (s' & Hs' & Hrun).
    exists s'. split; [done|]. exact Hrun.
  - exists []. split; [done|]. eauto.
Qed.

(** Rewriting the challenges adds and removes no row and moves no key: the
    table keeps its keys in their order, and a row whose key is none of the
    rewritten rows' keys stays as it is. *)
Lemma rewriteChallengeRows_keys cs challs table t' :
  rewriteChallengeRows challengeToModel cs challs table = Some t' ->
  map chall_ID t' = map chall_ID table
  /\ forall i row, table !! i = Some row -> chall_ID row ∉ map chall_ID challs ->
                   t' !! i = Some row.
Proof.
  revert challs table. induction cs as [|c cs IH]; intros [|st challs] table;
    cbn [rewriteChallengeRows]; try (by intros [= <-]).
  destruct (challengeToModel c (chall_AuthorizationID st)) as [e|m]; [done|].
  intros H. apply IH in H as [Hkeys Hother]. split.
  - rewrite Hkeys, map_map. apply map_ext. intros row. unfold replaceChall.
    case_bool_decide; [|done]. by cbn.
  - intros i row Hi Hnot. apply Hother.
    + rewrite list_lookup_fmap, Hi. cbn. unfold replaceChall.
      rewrite bool_decide_eq_false_2; [done|].
      cbn. intros Heq. apply Hnot. rewrite Heq. cbn. left.
    + intros Hin. apply Hnot. cbn. by right.
Qed.

(** A count that differs makes [updateChallenges] fail with the validation
    error. *)
Lemma updateChallenges_mismatch (authz : Authorization) (tx : Transaction) :
  quiet (tx_script tx) ->
  length (challengesOf (tx_db tx) (ID authz)) <> length (Challenges authz) ->
  exists tx', updateChallenges challengeToModel (ID authz) (Challenges authz) tx
              = (inl (errorString "Invalid number of challenges provided"), tx').
Proof.
  intros Hq Hne. rewrite updateChallenges_select by done.
  apply Nat.eqb_neq in Hne. rewrite Hne. cbn. eauto.
Qed.

(** The shape shared by the mutating operations: [Begin], the steps, then
    [Rollback] on a failure and [Commit] otherwise. *)
Lemma transaction_atomic {A} (steps : Tx A) (ssa : SQLStorageAuthority) :
  let r := match Begin ssa with
           | (inl err, ssa) => (Some err, ssa)
           | (inr tx, ssa) =>
               match steps tx with
               | (inl err, tx) => (Some (Rollback tx err), leave ssa tx)
               | (inr _, tx) => Commit ssa tx
               end
           end in
  r.1 <> None -> dbMap r.2 = dbMap ssa.
Proof.
  cbn zeta. destruct (Begin ssa) as [[e|tx] ssa1] eqn:HB.
  - intros _. by apply Begin_inl in HB.
  - apply Begin_inr in HB as (_ & Hdb & _).
    destruct (steps tx) as [[e|a] tx']; [done|].
    destruct (Commit_cases ssa1 tx') as [(e & He & Hc)|[Hn Hc]]; [by rewrite Hc|by rewrite Hn].
Qed.

Lemma transaction_fails {A} (steps : Tx A) (ssa : SQLStorageAuthority) e tx' :
  quiet (script ssa) ->
  steps (mkTx (dbMap ssa) (tl (script ssa))) = (inl e, tx') ->
  let r := match Begin ssa with
           | (inl err, ssa) => (Some err, ssa)
           | (inr tx, ssa) =>
               match steps tx with
               | (inl err, tx) => (Some (Rollback tx err), leave ssa tx)
               | (inr _, tx) => Commit ssa tx
               end
           end in
  r.1 = Some e /\ dbMap r.2 = dbMap ssa.
Proof. intros Hq Hs. cbn zeta. rewrite Begin_quiet by done. by rewrite Hs. Qed.

Lemma transaction_commits {A} (steps : Tx A) (ssa : SQLStorageAuthority) a db' s' :
  quiet (script ssa) -> quiet s' ->
  steps (mkTx (dbMap ssa) (tl (script ssa))) = (inr a, mkTx db' s') ->
  let r := match Begin ssa with
           | (inl err, ssa) => (Some err, ssa)
           | (inr tx, ssa) =>
               match steps tx with
               | (inl err, tx) => (Some (Rollback tx err), leave ssa tx)
               | (inr _, tx) => Commit ssa tx
               end
           end in
  r.1 = None /\ dbMap r.2 = db'.
Proof.
  intros Hq Hq' Hs. cbn zeta. rewrite Begin_quiet by done. rewrite Hs.
  by apply Commit_quiet.
Qed.

Lemma located_cases (db : DbState) (id : string) c table :
  located db id = Some (c, table) ->
  (table = pendingAuthorizationsTable
   /\ exists l, pendingAuthorizations db !! id = Some (c, l))
  \/ (table = authzTable /\ pendingAuthorizations db !! id = None /\ authz db !! id = Some c).
Proof.
  unfold located. destruct (pendingAuthorizations db !! id) as [[c' l]|].
  - intros [= -> <-]. left. eauto.
  - destruct (authz db !! id) as [c'|]; [|done]. intros [= -> <-]. by right.
Qed.

Lemma FinalizeAuthorization_atomic (ssa : SQLStorageAuthority) (auth : Authorization) :
  (FinalizeAuthorization pendingStatuses challengeToModel ssa auth).1 <> None ->
  dbMap (FinalizeAuthorization pendingStatuses challengeToModel ssa auth).2 = dbMap ssa.
Proof. apply (transaction_atomic (finalizeSteps pendingStatuses challengeToModel auth)). Qed.

(** The steps of [FinalizeAuthorization] when no storage call fails.  For a
    record of the legacy table they end in an error: the insert into the
    unified table is refused when the id is taken there, and the delete is
    refused by gorp, which is handed a struct and not a pointer. *)
Lemma finalizeSteps_quiet (auth : Authorization) (tx : Transaction) stored table :
  quiet (tx_script tx) ->
  located (tx_db tx) (ID auth) = Some (stored, table) ->
  let db := tx_db tx in
  let id := ID auth in
  if negb (statusIsPending pendingStatuses (col_Status stored)) then
    exists tx', finalizeSteps pendingStatuses challengeToModel auth tx
      = (inl (errorString "Cannot finalize an authorization that is not pending"), tx')
  else if statusIsPending pendingStatuses (Status auth) then
    exists tx', finalizeSteps pendingStatuses challengeToModel auth tx
      = (inl (errorString "Cannot finalize an authorization to a non-final status"), tx')
  else
    (table = pendingAuthorizationsTable ->
     exists tx', finalizeSteps pendingStatuses challengeToModel auth tx
       = (inl (match authz db !! id with
               | Some _ => duplicateEntry
               | None => passedNonPointer
               end), tx'))
    /\ (table = authzTable ->
        forall t', rewrittenChallenges challengeToModel db auth = Some t' ->
          exists s', quiet s' /\
            finalizeSteps pendingStatuses challengeToModel auth tx
            = (inr tt,
               mkTx (setChallenges (setAuthz db (<[id := columns auth]> (authz db)))
                       t' (nextChallengeID db)) s')).
Proof.
  intros Hq Hloc. cbn zeta. unfold finalizeSteps.
  pose proof (getAuthz_quiet (ID auth) tx Hq) as Hget. rewrite Hloc in Hget.
  rewrite (bind_run _ _ _ _ _ Hget). cbn [Status fromColumns].
  destruct (statusIsPending pendingStatuses (col_Status stored)); cbn [negb]; [|by eexists].
  destruct (statusIsPending pendingStatuses (Status auth)); [by eexists|].
  apply located_cases in Hloc as [[-> [l Hl]]|(-> & Hp & Ha)].
  - split; [|done]. intros _.
    change ((pendingAuthorizationsTable =? "pendingAuthorizations")%string) with true.
    cbv iota.
    set (tx1 := mkTx (tx_db tx) (tl (tx_script tx))).
    destruct (authz (tx_db tx) !! ID auth) as [taken|] eqn:Hfree.
    + assert (Insert (RowAuthz (mkAuthz auth)) tx1
              = (inl duplicateEntry, mkTx (tx_db tx) (tl (tl (tx_script tx))))) as Hins.
      { unfold Insert. rewrite call_quiet by (cbn; auto). cbn. unfold insertKeyed.
        by rewrite Hfree. }
      eexists. erewrite bind_fails; [done|]. erewrite bind_fails; [done|exact Hins].
    + set (db2 := setAuthz (tx_db tx) (<[ID auth := columns auth]> (authz (tx_db tx)))).
      assert (Insert (RowAuthz (mkAuthz auth)) tx1 = (inr 0, mkTx db2 (tl (tl (tx_script tx)))))
        as Hins.
      { unfold Insert. rewrite call_quiet by (cbn; auto). cbn. unfold insertKeyed.
        by rewrite Hfree. }
      eexists. erewrite bind_fails; [done|].
      erewrite bind_run; [|exact Hins]. reflexivity.
  - split; [done|]. intros _ t' Ht'.
    change ((authzTable =? "pendingAuthorizations")%string) with false.
    change ((authzTable =? "authz")%string) with true. cbv iota.
    set (tx1 := mkTx (tx_db tx) (tl (tx_script tx))).
    set (db2 := setAuthz (tx_db tx) (<[ID auth := columns auth]> (authz (tx_db tx)))).
    assert (Update (RowAuthz (mkAuthz auth)) tx1 = (inr 1, mkTx db2 (tl (tl (tx_script tx)))))
      as Hupd.
    { unfold Update. rewrite call_quiet by (cbn; auto). cbn. unfold updateKeyed.
      by rewrite Ha. }
    destruct (updateChallenges_quiet auth (mkTx db2 (tl (tl (tx_script tx))))
                ltac:(cbn; auto)) as (s' & Hs' & Hrun).
    change (rewrittenChallenges challengeToModel (tx_db (mkTx db2 _)) auth)
      with (rewrittenChallenges challengeToModel (tx_db tx) auth) in Hrun.
    rewrite Ht' in Hrun. exists s'. split; [done|].
    erewrite bind_run; [exact Hrun|]. erewrite bind_run; [|exact Hupd]. done.
Qed.

(** [FinalizeAuthorization] with the record of [auth]'s id stored and no
    storage call failing: a stored status that is not pending gives the error
    "Cannot finalize an authorization that is not pending" and no write; a
    pending stored status with a pending target gives the error
    "Cannot finalize an authorization to a non-final status" and no write;
    otherwise a record of the unified table is updated in place and its
    challenges rewritten, and a record of the legacy table is not moved: the
    call returns an error (gorp's, for the struct handed to [tx.Delete], or
    the duplicate entry of the insert) and rolls back.  Whatever the storage
    does, a finalize that returns an error leaves the database as it was. *)
Lemma FinalizeAuthorization_spec (ssa : SQLStorageAuthority) (auth : Authorization)
    (stored : authzColumns) (table : string) :
  quiet (script ssa) ->
  located (dbMap ssa) (ID auth) = Some (stored, table) ->
  let db := dbMap ssa in
  let id := ID auth in
  let '(err, ssa') := FinalizeAuthorization pendingStatuses challengeToModel ssa auth in
  (if negb (statusIsPending pendingStatuses (col_Status stored)) then
     err = Some (errorString "Cannot finalize an authorization that is not pending")
     /\ dbMap ssa' = db
   else if statusIsPending pendingStatuses (Status auth) then
     err = Some (errorString "Cannot finalize an authorization to a non-final status")
     /\ dbMap ssa' = db
   else
     (table = pendingAuthorizationsTable ->
      err = Some (match authz db !! id with
                  | Some _ => duplicateEntry
                  | None => passedNonPointer
                  end)
      /\ dbMap ssa' = db)
     /\ (table = authzTable ->
         forall t', rewrittenChallenges challengeToModel db auth = Some t' ->
           err = None
           /\ dbMap ssa'
              = setChallenges (setAuthz db (<[id := columns auth]> (authz db)))
                  t' (nextChallengeID db)))
  /\ (forall ssa0 auth0,
        (FinalizeAuthorization pendingStatuses challengeToModel ssa0 auth0).1 <> None ->
        dbMap (FinalizeAuthorization pendingStatuses challengeToModel ssa0 auth0).2
        = dbMap ssa0).
Proof.
  intros Hq Hloc. cbn zeta.
  destruct (FinalizeAuthorization pendingStatuses challengeToModel ssa auth)
    as [err ssa'] eqn:HF.
  split; [|apply FinalizeAuthorization_atomic].
  pose proof (finalizeSteps_quiet auth (mkTx (dbMap ssa) (tl (script ssa))) stored table
                ltac:(cbn; auto) Hloc) as Hsteps.
  cbn zeta in Hsteps. cbn [tx_db] in Hsteps.
  unfold FinalizeAuthorization in HF.
  destruct (negb (statusIsPending pendingStatuses (col_Status stored))).
  { destruct Hsteps as [tx' Hs].
    destruct (transaction_fails _ ssa _ _ Hq Hs) as [He Hd]. cbn zeta in He, Hd.
    rewrite HF in He, Hd. done. }
  destruct (statusIsPending pendingStatuses (Status auth)).
  { destruct Hsteps as [tx' Hs].
    destruct (transaction_fails _ ssa _ _ Hq Hs) as [He Hd]. cbn zeta in He, Hd.
    rewrite HF in He, Hd. done. }
  destruct Hsteps as [Hlegacy Hunified]. split.
  - intros Htab. destruct (Hlegacy Htab) as (tx' & Hs).
    destruct (transaction_fails _ ssa _ _ Hq Hs) as [He Hd]. cbn zeta in He, Hd.
    rewrite HF in He, Hd. done.
  - intros Htab t' Ht'. destruct (Hunified Htab t' Ht') as (s' & Hs' & Hs).
    destruct (transaction_commits _ ssa _ _ _ Hq Hs' Hs) as [He Hd]. cbn zeta in He, Hd.
    rewrite HF in He, Hd. done.
Qed.

Lemma UpdatePendingAuthorization_atomic (ssa : SQLStorageAuthority) (auth : Authorization) :
  (UpdatePendingAuthorization pendingStatuses challengeToModel ssa auth).1 <> None ->
  dbMap (UpdatePendingAuthorization pendingStatuses challengeToModel ssa auth).2 = dbMap ssa.
Proof. apply (transaction_atomic (updatePendingSteps pendingStatuses challengeToModel auth)). Qed.

Lemma updateChallenges_inr_length authID cs tx tx' :
  updateChallenges challengeToModel authID cs tx = (inr tt, tx') ->
  length (challengesOf (tx_db tx) authID) = length cs.
Proof.
  unfold updateChallenges. intros H. apply bind_inr in H as (challs & tx1 & H1 & H2).
  apply call_inr in H1. injection H1 as <- _.
  fold (challengesOf (tx_db tx) authID) in H2.
  destruct (Nat.eqb_spec (length (challengesOf (tx_db tx) authID)) (length cs)); done.
Qed.

(** What a successful run of the steps of [UpdatePendingAuthorization] has
    done, whatever the script: the record was found in the unified table. *)
Lemma updatePendingSteps_inr (auth : Authorization) (tx tx' : Transaction) :
  updatePendingSteps pendingStatuses challengeToModel auth tx = (inr tt, tx') ->
  statusIsPending pendingStatuses (Status auth) = true
  /\ exists stored,
       located (tx_db tx) (ID auth) = Some (stored, authzTable)
       /\ statusIsPending pendingStatuses (col_Status stored) = true
       /\ length (challengesOf (tx_db tx) (ID auth)) = length (Challenges auth)
       /\ pendingAuthorizations (tx_db tx') = pendingAuthorizations (tx_db tx)
       /\ authz (tx_db tx') = <[ID auth := columns auth]> (authz (tx_db tx)).
Proof.
  unfold updatePendingSteps.
  destruct (statusIsPending pendingStatuses (Status auth)); cbn [negb]; [|done].
  intros H. split; [done|].
  apply bind_inr in H as ([dbAuthz table] & tx1 & Hget & H).
  apply getAuthz_inr in Hget as (Hdb1 & stored & Hloc & ->). cbn [Status fromColumns] in H.
  destruct (statusIsPending pendingStatuses (col_Status stored)) eqn:Hst; cbn [negb] in H; [|done].
  destruct (located_cases _ _ _ _ Hloc) as [[-> _]|(-> & Hp & Ha)].
  { change ((pendingAuthorizationsTable =? "pendingAuthorization")%string) with false in H.
    change ((pendingAuthorizationsTable =? "authz")%string) with false in H. done. }
  change ((authzTable =? "pendingAuthorization")%string) with false in H.
  change ((authzTable =? "authz")%string) with true in H. cbv iota in H.
  apply bind_inr in H as (n & tx2 & Hupd & H).
  apply call_inr in Hupd. cbn in Hupd. unfold updateKeyed in Hupd.
  rewrite Hdb1, Ha in Hupd. injection Hupd as _ Hdb2.
  exists stored. split; [done|]. split; [done|].
  pose proof (updateChallenges_inr_length _ _ _ _ H) as Hlen.
  apply updateChallenges_tables in H as [Hp' Ha'].
  rewrite <- Hdb2 in Hlen, Hp', Ha'. done.
Qed.

(** The steps of [UpdatePendingAuthorization] when no storage call fails and
    both statuses are pending. *)
Lemma updatePendingSteps_quiet (auth : Authorization) (tx : Transaction) stored table :
  quiet (tx_script tx) ->
  statusIsPending pendingStatuses (Status auth) = true ->
  located (tx_db tx) (ID auth) = Some (stored, table) ->
  statusIsPending pendingStatuses (col_Status stored) = true ->
  (table = pendingAuthorizationsTable ->
   exists tx', updatePendingSteps pendingStatuses challengeToModel auth tx
     = (inl (errorString "Internal error. Table mismatch updating authz"), tx'))
  /\ (table = authzTable ->
      updatePendingSteps pendingStatuses challengeToModel auth tx
      = updateChallenges challengeToModel (ID auth) (Challenges auth)
          (mkTx (setAuthz (tx_db tx) (<[ID auth := columns auth]> (authz (tx_db tx))))
                (tl (tl (tx_script tx))))).
Proof.
  intros Hq Hs Hloc Hst. unfold updatePendingSteps. rewrite Hs. cbn [negb].
  pose proof (getAuthz_quiet (ID auth) tx Hq) as Hget. rewrite Hloc in Hget.
  rewrite (bind_run _ _ _ _ _ Hget). cbn [Status fromColumns]. rewrite Hst. cbn [negb].
  split; intros ->.
  - change ((pendingAuthorizationsTable =? "pendingAuthorization")%string) with false.
    change ((pendingAuthorizationsTable =? "authz")%string) with false. cbv iota.
    by eexists.
  - change ((authzTable =? "pendingAuthorization")%string) with false.
    change ((authzTable =? "authz")%string) with true. cbv iota.
    apply located_cases in Hloc as [[[=] _]|(_ & Hp & Ha)].
    erewrite bind_run; [done|].
    unfold Update. rewrite call_quiet by (cbn; auto). cbn. unfold updateKeyed.
    by rewrite Ha.
Qed.

(** Every pending record the legacy table holds is refused: the table name
    [UpdatePendingAuthorization] compares with lacks the final s. *)
Lemma UpdatePendingAuthorization_legacy (ssa : SQLStorageAuthority) (auth : Authorization)
    stored :
  quiet (script ssa) ->
  statusIsPending pendingStatuses (Status auth) = true ->
  located (dbMap ssa) (ID auth) = Some (stored, pendingAuthorizationsTable) ->
  statusIsPending pendingStatuses (col_Status stored) = true ->
  (UpdatePendingAuthorization pendingStatuses challengeToModel ssa auth).1
  = Some (errorString "Internal error. Table mismatch updating authz")
  /\ dbMap (UpdatePendingAuthorization pendingStatuses challengeToModel ssa auth).2 = dbMap ssa.
Proof.
  intros Hq Hs Hloc Hst.
  destruct (updatePendingSteps_quiet auth (mkTx (dbMap ssa) (tl (script ssa))) stored _
              ltac:(cbn; auto) Hs Hloc Hst) as [Hlegacy _].
  destruct (Hlegacy eq_refl) as [tx' Hsteps].
  exact (transaction_fails _ ssa _ _ Hq Hsteps).
Qed.

(** X27.  [UpdatePendingAuthorization] of a record held by the unified table
    succeeds when no storage call fails, the supplied and the stored status
    are both pending and the challenges supplied are as many as the rows
    stored and convert: the row is rewritten with the supplied columns, the
    challenge rows are rewritten one by one, and nothing else changes. *)
Lemma UpdatePendingAuthorization_unified (ssa : SQLStorageAuthority) (auth : Authorization)
    stored t' :
  quiet (script ssa) ->
  statusIsPending pendingStatuses (Status auth) = true ->
  located (dbMap ssa) (ID auth) = Some (stored, authzTable) ->
  statusIsPending pendingStatuses (col_Status stored) = true ->
  rewrittenChallenges challengeToModel (dbMap ssa) auth = Some t' ->
  (UpdatePendingAuthorization pendingStatuses challengeToModel ssa auth).1 = None
  /\ dbMap (UpdatePendingAuthorization pendingStatuses challengeToModel ssa auth).2
     = setChallenges (setAuthz (dbMap ssa) (<[ID auth := columns auth]> (authz (dbMap ssa))))
         t' (nextChallengeID (dbMap ssa)).
Proof.
  intros Hq Hs Hloc Hst Hrw.
  destruct (updatePendingSteps_quiet auth (mkTx (dbMap ssa) (tl (script ssa))) stored _
              ltac:(cbn; auto) Hs Hloc Hst) as [_ Hunified].
  specialize (Hunified eq_refl). cbn [tx_db tx_script] in Hunified.
  destruct (updateChallenges_quiet auth
              (mkTx (setAuthz (dbMap ssa) (<[ID auth := columns auth]> (authz (dbMap ssa))))
                    (tl (tl (tl (script ssa))))) ltac:(cbn; auto)) as (s' & Hs' & Hrun).
  change (rewrittenChallenges challengeToModel (tx_db (mkTx _ _)) auth)
    with (rewrittenChallenges challengeToModel (dbMap ssa) auth) in Hrun.
  rewrite Hrw, <- Hunified in Hrun.
  exact (transaction_commits _ ssa _ _ _ Hq Hs' Hrun).
Qed.

(** A transaction that returns no error has run its steps to the end and
    committed their working copy. *)
Lemma transaction_inr {A} (steps : Tx A) (ssa : SQLStorageAuthority) :
  let r := match Begin ssa with
           | (inl err, ssa) => (Some err, ssa)
           | (inr tx, ssa) =>
               match steps tx with
               | (inl err, tx) => (Some (Rollback tx err), leave ssa tx)
               | (inr _, tx) => Commit ssa tx
               end
           end in
  r.1 = None ->
  exists tx a tx', tx_db tx = dbMap ssa /\ steps tx = (inr a, tx') /\ dbMap r.2 = tx_db tx'.
Proof.
  cbn zeta. destruct (Begin ssa) as [[e|tx] ssa1] eqn:HB; [done|].
  apply Begin_inr in HB as (Hdb & _).
  destruct (steps tx) as [[e|a] tx'] eqn:Hs; [done|].
  intros Hn. exists tx, a, tx'. split; [done|]. split; [done|].
  destruct (Commit_cases ssa1 tx') as [(e & He & _)|[_ Hc]]; [congruence|done].
Qed.

(** A call of [UpdatePendingAuthorization] that supplies another number of
    challenges than is stored for the authorization fails and leaves every
    row of every table as it was.  When moreover the supplied and the stored
    status are pending, the record lies in the unified table and no storage
    call fails, the error is the validation error
    "Invalid number of challenges provided". *)
Lemma UpdatePendingAuthorization_count_mismatch (ssa : SQLStorageAuthority)
    (auth : Authorization) :
  length (challengesOf (dbMap ssa) (ID auth)) <> length (Challenges auth) ->
  let '(err, ssa') := UpdatePendingAuthorization pendingStatuses challengeToModel ssa auth in
  err <> None
  /\ dbMap ssa' = dbMap ssa
  /\ forall stored,
       quiet (script ssa) ->
       statusIsPending pendingStatuses (Status auth) = true ->
       located (dbMap ssa) (ID auth) = Some (stored, authzTable) ->
       statusIsPending pendingStatuses (col_Status stored) = true ->
       err = Some (errorString "Invalid number of challenges provided").
Proof.
  intros Hne.
  destruct (UpdatePendingAuthorization pendingStatuses challengeToModel ssa auth)
    as [err ssa'] eqn:HU.
  assert (err <> None) as Herr.
  { intros ->.
    destruct (transaction_inr (updatePendingSteps pendingStatuses challengeToModel auth) ssa)
      as (tx & [] & tx' & Hdb & Hsteps & _).
    { unfold UpdatePendingAuthorization in HU. cbn zeta. by rewrite HU. }
    apply updatePendingSteps_inr in Hsteps as (_ & stored & _ & _ & Hlen & _).
    rewrite Hdb in Hlen. done. }
  split; [done|]. split.
  - pose proof (UpdatePendingAuthorization_atomic ssa auth) as Hat. rewrite HU in Hat.
    by apply Hat.
  - intros stored Hq Hs Hloc Hst.
    destruct (updatePendingSteps_quiet auth (mkTx (dbMap ssa) (tl (script ssa))) stored _
                ltac:(cbn; auto) Hs Hloc Hst) as [_ Hunified].
    specialize (Hunified eq_refl). cbn [tx_db tx_script] in Hunified.
    destruct (updateChallenges_mismatch auth
                (mkTx (setAuthz (dbMap ssa) (<[ID auth := columns auth]> (authz (dbMap ssa))))
                      (tl (tl (tl (script ssa))))) ltac:(cbn; auto) Hne) as [tx' Hrun].
    rewrite <- Hunified in Hrun.
    destruct (transaction_fails _ ssa _ _ Hq Hrun) as [He _]. cbn zeta in He.
    unfold UpdatePendingAuthorization in HU. rewrite HU in He. done.
Qed.

(** *** Status transitions *)

Lemma statusOf_lookup (db : DbState) (id : string) :
  statusOf db id
  = match pendingAuthorizations db !! id with
    | Some (c, _) => Some (col_Status c)
    | None => col_Status <$> authz db !! id
    end.
Proof.
  unfold statusOf, located. destruct (pendingAuthorizations db !! id) as [[c l]|]; [done|].
  by destruct (authz db !! id).
Qed.

Lemma statusOf_same (db db' : DbState) (id : string) :
  pendingAuthorizations db' !! id = pendingAuthorizations db !! id ->
  authz db' !! id = authz db !! id ->
  statusOf db' id = statusOf db id.
Proof. intros Hp Ha. by rewrite !statusOf_lookup, Hp, Ha. Qed.

Lemma recordExists_false (db : DbState) (id : string) :
  recordExists db id = false ->
  pendingAuthorizations db !! id = None /\ authz db !! id = None.
Proof.
  unfold recordExists. intros H. apply orb_false_iff in H as [Hp Ha].
  apply bool_decide_eq_false in Hp, Ha.
  split; apply eq_None_not_Some; done.
Qed.

(** What a successful run of the steps of [FinalizeAuthorization] has done,
    whatever the script.  (The first alternative for the table does not
    arise: on a record of the legacy table the steps end in an error.) *)
Lemma finalizeSteps_inr (auth : Authorization) (tx tx' : Transaction) :
  finalizeSteps pendingStatuses challengeToModel auth tx = (inr tt, tx') ->
  exists stored table,
    located (tx_db tx) (ID auth) = Some (stored, table)
    /\ statusIsPending pendingStatuses (col_Status stored) = true
    /\ statusIsPending pendingStatuses (Status auth) = false
    /\ authz (tx_db tx') = <[ID auth := columns auth]> (authz (tx_db tx))
    /\ ((table = pendingAuthorizationsTable
         /\ authz (tx_db tx) !! ID auth = None
         /\ pendingAuthorizations (tx_db tx')
            = delete (ID auth) (pendingAuthorizations (tx_db tx)))
        \/ (table = authzTable
            /\ pendingAuthorizations (tx_db tx') = pendingAuthorizations (tx_db tx))).
Proof.
  unfold finalizeSteps. intros H.
  apply bind_inr in H as ([dbAuthz table] & tx1 & Hget & H).
  apply getAuthz_inr in Hget as (Hdb1 & stored & Hloc & ->). cbn [Status fromColumns] in H.
  destruct (statusIsPending pendingStatuses (col_Status stored)) eqn:Hst; cbn [negb] in H;
    [|done].
  destruct (statusIsPending pendingStatuses (Status auth)) eqn:Hs; [done|].
  apply bind_inr in H as ([] & tx2 & Hblock & H).
  apply updateChallenges_tables in H as [Hp' Ha'].
  exists stored, table. do 3 (split; [done|]).
  destruct (located_cases _ _ _ _ Hloc) as [[-> [l Hl]]|(-> & Hp & Ha)].
  - change ((pendingAuthorizationsTable =? "pendingAuthorizations")%string) with true in Hblock.
    cbv iota in Hblock.
    apply bind_inr in Hblock as (n1 & tx3 & Hins & Hblock).
    apply bind_inr in Hblock as (n2 & tx4 & Hdel & Hret). discriminate Hdel.
  - change ((authzTable =? "pendingAuthorizations")%string) with false in Hblock.
    change ((authzTable =? "authz")%string) with true in Hblock. cbv iota in Hblock.
    apply bind_inr in Hblock as (n1 & tx3 & Hupd & Hret). injection Hret as <-.
    apply call_inr in Hupd. cbn in Hupd. unfold updateKeyed in Hupd.
    rewrite Hdb1, Ha in Hupd. injection Hupd as _ Hdb3.
    rewrite Hp', Ha', <- Hdb3. cbn. split; [done|]. right. done.
Qed.

(** The conditional UPDATE of [DeactivateAuthorization], on any working copy:
    it writes only to the row [id] of the table named, only when that row's
    status is pending or valid at that moment, and then sets the status to
    deactivated and nothing else. *)
Lemma ExecUpdateStatus_conditional (table id : string) (tx tx' : Transaction) (n : Z) :
  ExecUpdateStatus table StatusDeactivated id [StatusPending; StatusValid] tx = (inr n, tx') ->
  tx_db tx' = tx_db tx
  \/ (table = pendingAuthorizationsTable
      /\ exists c l, pendingAuthorizations (tx_db tx) !! id = Some (c, l)
           /\ (col_Status c = StatusPending \/ col_Status c = StatusValid)
           /\ tx_db tx' = setPendingAuthorizations (tx_db tx)
                (<[id := (columnsWithStatus c StatusDeactivated, l)]>
                   (pendingAuthorizations (tx_db tx))))
  \/ (table = authzTable
      /\ exists c, authz (tx_db tx) !! id = Some c
           /\ (col_Status c = StatusPending \/ col_Status c = StatusValid)
           /\ tx_db tx' = setAuthz (tx_db tx)
                (<[id := columnsWithStatus c StatusDeactivated]> (authz (tx_db tx)))).
Proof.
  intros H. apply call_inr in H.
  destruct (String.eqb_spec table pendingAuthorizationsTable) as [->|Hne1].
  - destruct (pendingAuthorizations (tx_db tx) !! id) as [[c l]|] eqn:Hl;
      [|injection H as _ <-; by left].
    unfold setRowStatus in H. case_bool_decide as Hin; [|injection H as _ <-; by left].
    injection H as _ <-. right. left. split; [done|]. exists c, l.
    split; [done|]. split; [|done].
    apply elem_of_cons in Hin as [Hin|Hin]; [by left|].
    apply elem_of_cons in Hin as [Hin|Hin]; [by right|]. by apply elem_of_nil in Hin.
  - destruct (String.eqb_spec table authzTable) as [->|Hne2]; [|done].
    destruct (authz (tx_db tx) !! id) as [c|] eqn:Hl; [|injection H as _ <-; by left].
    unfold setRowStatus in H. case_bool_decide as Hin; [|injection H as _ <-; by left].
    injection H as _ <-. right. right. split; [done|]. exists c.
    split; [done|]. split; [|done].
    apply elem_of_cons in Hin as [Hin|Hin]; [by left|].
    apply elem_of_cons in Hin as [Hin|Hin]; [by right|]. by apply elem_of_nil in Hin.
Qed.

(** [DeactivateAuthorization] either leaves the database or has set the
    status of the record [id], then pending or valid, to deactivated. *)
Lemma DeactivateAuthorization_cases (ssa : SQLStorageAuthority) (id id' : string) old new :
  statusOf (dbMap ssa) id' = Some old ->
  statusOf (dbMap (DeactivateAuthorization ssa id).2) id' = Some new ->
  old <> new ->
  id' = id /\ (old = StatusPending \/ old = StatusValid) /\ new = StatusDeactivated.
Proof.
  unfold DeactivateAuthorization.
  destruct (Begin ssa) as [[e|tx] ssa1] eqn:HB.
  { apply Begin_inl in HB. cbn. rewrite HB. congruence. }
  apply Begin_inr in HB as (Hdb0 & Hdb1 & _).
  destruct (getAuthz id tx) as [[e|[a table]] tx1] eqn:Hget.
  { cbn. rewrite Hdb1. congruence. }
  destruct (negb _ && negb _).
  { cbn. rewrite Hdb1. congruence. }
  destruct (ExecUpdateStatus table StatusDeactivated id [StatusPending; StatusValid] tx1)
    as [[e|n] tx2] eqn:Hexec.
  { cbn. rewrite Hdb1. congruence. }
  destruct (Commit_cases ssa1 tx2) as [(e & _ & Hc)|[_ Hc]]; rewrite Hc.
  { rewrite Hdb1. congruence. }
  apply getAuthz_inr in Hget as (Hdbt & _).
  apply ExecUpdateStatus_conditional in Hexec.
  rewrite Hdbt, Hdb0 in Hexec.
  destruct Hexec as [->|[(-> & c & l & Hl & Hst & ->)|(-> & c & Hl & Hst & ->)]].
  - congruence.
  - rewrite !statusOf_lookup. cbn [pendingAuthorizations authz setPendingAuthorizations].
    destruct (decide (id' = id)) as [->|Hne].
    + rewrite lookup_insert_eq, Hl. intros [= <-] [= <-] _. done.
    + rewrite lookup_insert_ne by done. congruence.
  - rewrite !statusOf_lookup. cbn [pendingAuthorizations authz setAuthz].
    destruct (pendingAuthorizations (dbMap ssa) !! id') as [[c' l']|]; [congruence|].
    destruct (decide (id' = id)) as [->|Hne].
    + rewrite lookup_insert_eq, Hl. cbn. intros [= <-] [= <-] _. done.
    + rewrite lookup_insert_ne by done. congruence.
Qed.

(** *** Creating a pending authorization *)

Lemma insertedRows_length authID next cs rows returned :
  insertedRows challengeToModel modelToChallenge authID next cs rows returned ->
  length rows = length cs /\ length returned = length cs.
Proof.
  revert next rows returned. induction cs as [|c cs IH]; intros next [|r rows] [|c' ret'];
    cbn; try done.
  intros (_ & _ & H). apply IH in H as [-> ->]. done.
Qed.

(** What a successful run of the challenge loop has done, whatever the
    script: it has appended the rows to the challenge table. *)
Lemma insertChallenges_inr authID cs tx returned tx' :
  insertChallenges challengeToModel modelToChallenge authID cs tx = (inr returned, tx') ->
  exists rows,
    insertedRows challengeToModel modelToChallenge authID (nextChallengeID (tx_db tx))
      cs rows returned
    /\ tx_db tx' = setChallenges (tx_db tx) (challenges (tx_db tx) ++ rows)
                     (nextChallengeID (tx_db tx) + Z.of_nat (length cs)).
Proof.
  revert tx returned. induction cs as [|c cs IH]; intros tx returned H.
  - injection H as <- <-. exists []. split; [done|]. cbn.
    by rewrite app_nil_r, Z.add_0_r, setChallenges_same.
  - cbn [insertChallenges] in H.
    destruct (challengeToModel c authID) as [e|m] eqn:Hm; [done|].
    apply bind_inr in H as (id & tx1 & Hins & H).
    apply call_inr in Hins. injection Hins as <- Hdb1.
    destruct (modelToChallenge (challWithID m (nextChallengeID (tx_db tx)))) as [e|c'] eqn:Hc';
      [done|].
    apply bind_inr in H as (rest & tx2 & Hrest & Hret). injection Hret as <- <-.
    apply IH in Hrest as (rows & Hrows & Hdb2). rewrite <- Hdb1 in Hrows, Hdb2.
    cbn [challenges nextChallengeID setChallenges] in Hrows, Hdb2.
    exists (challWithID m (nextChallengeID (tx_db tx)) :: rows). split.
    + cbn [insertedRows]. split; [by exists m|]. done.
    + rewrite Hdb2. cbn [length]. rewrite <- app_assoc. cbn [app].
      unfold setChallenges. cbn. f_equal. lia.
Qed.

(** Without failure of the storage and with convertible challenges, the loop
    succeeds. *)
Lemma insertChallenges_quiet authID cs tx :
  quiet (tx_script tx) ->
  convertible challengeToModel modelToChallenge authID cs ->
  exists returned tx',
    insertChallenges challengeToModel modelToChallenge authID cs tx = (inr returned, tx')
    /\ quiet (tx_script tx').
Proof.
  revert tx. induction cs as [|c cs IH]; intros tx Hq Hconv.
  - by exists [], tx.
  - apply Forall_cons in Hconv as [(m & Hm & Hback) Hconv].
    cbn [insertChallenges]. rewrite Hm.
    set (next := nextChallengeID (tx_db tx)).
    destruct (Hback next) as [c' Hc'].
    pose (tx1 := mkTx (setChallenges (tx_db tx) (challenges (tx_db tx) ++ [challWithID m next])
                         (next + 1)) (tl (tx_script tx))).
    destruct (IH tx1 ltac:(cbn; auto) Hconv) as (rest & tx' & Hrest & Hq').
    exists (c' :: rest), tx'. split; [|done].
    erewrite bind_run; [|unfold Insert; by rewrite call_quiet].
    cbn [fst snd]. fold next. rewrite Hc'. fold tx1. by erewrite bind_run.
Qed.

(** The id loop returns an id no record has, and leaves the database. *)
Lemma regenerateID_inv fuel tx ssa id id' ssa' :
  regenerateID fuel tx ssa id = Some (id', ssa') ->
  authzIdExists tx id' = false /\ dbMap ssa' = dbMap ssa /\ script ssa' = script ssa.
Proof.
  revert ssa id. induction fuel as [|fuel IH]; intros ssa id; [done|].
  cbn [regenerateID]. destruct (authzIdExists tx id) eqn:Hex.
  - intros H. apply IH in H as (? & ? & ?). done.
  - by intros [= <- <-].
Qed.

(** The id loop returns the first token no record has, when the fuel reaches
    it. *)
Lemma regenerateID_finds (k fuel : nat) tx ssa (i : nat) :
  tokenIndex ssa = S i -> (k < fuel)%nat ->
  (forall j, (j < k)%nat -> authzIdExists tx (tokens ssa (i + j)) = true) ->
  authzIdExists tx (tokens ssa (i + k)) = false ->
  regenerateID fuel tx ssa (tokens ssa i)
  = Some (tokens ssa (i + k),
          mkSA (dbMap ssa) (clk ssa) (script ssa) (tokens ssa) (S (i + k))).
Proof.
  revert fuel ssa i. induction k as [|k IH]; intros fuel ssa i Hi Hfuel Hbefore Hfresh.
  - destruct fuel as [|fuel]; [lia|]. cbn [regenerateID].
    rewrite Nat.add_0_r in *. rewrite Hfresh. destruct ssa. cbn in *. by subst.
  - destruct fuel as [|fuel]; [lia|]. cbn [regenerateID].
    pose proof (Hbefore 0%nat ltac:(lia)) as H0. rewrite Nat.add_0_r in H0. rewrite H0.
    unfold NewToken. rewrite Hi.
    set (ssa2 := mkSA (dbMap ssa) (clk ssa) (script ssa) (tokens ssa) (S (S i))).
    change (regenerateID fuel tx ssa2 (tokens ssa2 (S i))
            = Some (tokens ssa (i + S k),
                    mkSA (dbMap ssa) (clk ssa) (script ssa) (tokens ssa) (S (i + S k)))).
    rewrite (IH fuel ssa2 (S i)); cbn [ssa2 tokens tokenIndex dbMap clk script].
    + by replace (S i + k)%nat with (i + S k)%nat by lia.
    + done.
    + lia.
    + intros j Hj. specialize (Hbefore (S j) ltac:(lia)).
      by replace (S i + j)%nat with (i + S j)%nat by lia.
    + by replace (S i + k)%nat with (i + S k)%nat by lia.
Qed.

(** The steps of [NewPendingAuthorization] between [Begin] and [Commit] when
    no storage call fails. *)
Lemma newPendingSteps_quiet (auth' : Authorization) (tx : Transaction) :
  quiet (tx_script tx) ->
  authz (tx_db tx) !! ID auth' = None ->
  convertible challengeToModel modelToChallenge (ID auth') (Challenges auth') ->
  exists returned tx',
    (let* _ := Insert (RowAuthz (mkAuthz auth')) in
     insertChallenges challengeToModel modelToChallenge (ID auth') (Challenges auth')) tx
    = (inr returned, tx')
    /\ quiet (tx_script tx').
Proof.
  intros Hq Hfree Hconv.
  pose (tx1 := mkTx (setAuthz (tx_db tx) (<[ID auth' := columns auth']> (authz (tx_db tx))))
                    (tl (tx_script tx))).
  assert (Insert (RowAuthz (mkAuthz auth')) tx = (inr 0, tx1)) as Hins.
  { unfold Insert. rewrite call_quiet by done. cbn. unfold insertKeyed. by rewrite Hfree. }
  destruct (insertChallenges_quiet (ID auth') (Challenges auth') tx1 ltac:(cbn; auto) Hconv)
    as (returned & tx' & Hloop & Hq').
  exists returned, tx'. split; [|done]. by rewrite (bind_run _ _ _ _ _ Hins).
Qed.

(** What [NewPendingAuthorization] has done when it returns, whatever the
    script and the tokens. *)
Lemma NewPendingAuthorization_inv fuel ssa auth result err ssa' :
  NewPendingAuthorization challengeToModel modelToChallenge fuel ssa auth
  = Some ((result, err), ssa') ->
  (err <> None -> dbMap ssa' = dbMap ssa)
  /\ (err = None ->
      let stored := withStatus (withID auth (ID result)) StatusPending in
      recordExists (dbMap ssa) (ID result) = false
      /\ result = withChallenges stored (Challenges result)
      /\ exists rows,
           insertedRows challengeToModel modelToChallenge (ID result)
             (nextChallengeID (dbMap ssa)) (Challenges auth) rows (Challenges result)
           /\ dbMap ssa'
              = setChallenges
                  (setAuthz (dbMap ssa) (<[ID result := columns stored]> (authz (dbMap ssa))))
                  (challenges (dbMap ssa) ++ rows)
                  (nextChallengeID (dbMap ssa) + Z.of_nat (length (Challenges auth)))).
Proof.
  unfold NewPendingAuthorization.
  destruct (Begin ssa) as [[e|tx] ssa1] eqn:HB.
  { intros [= <- <- <-]. apply Begin_inl in HB. done. }
  apply Begin_inr in HB as (Hdb0 & Hdb1 & _).
  unfold NewToken.
  destruct (regenerateID fuel tx _ _) as [[id ssa3]|] eqn:Hreg; [|done].
  apply regenerateID_inv in Hreg as (Hfresh & Hdb3 & _). cbn [dbMap] in Hdb3.
  change (authzIdExists tx id) with (recordExists (tx_db tx) id) in Hfresh.
  rewrite Hdb0 in Hfresh.
  cbn [authz_Authorization ID withStatus withID Challenges].
  destruct (bind _ _ tx) as [[e|returned] tx'] eqn:Hsteps.
  { intros [= <- <- <-]. cbn. split; [congruence|done]. }
  destruct (Commit ssa3 tx') as [err' ssa4] eqn:HC.
  intros [= <- <- <-].
  destruct (Commit_cases ssa3 tx') as [(e & He & Hc)|[Hn Hc]]; rewrite HC in *; cbn in *.
  { split; [congruence|]. intros ->. done. }
  split; [congruence|]. intros _. split; [done|]. split; [done|].
  apply bind_inr in Hsteps as (n & tx1 & Hins & Hloop).
  apply call_inr in Hins. cbn in Hins. unfold insertKeyed in Hins.
  apply recordExists_false in Hfresh as [_ Hfree]. rewrite Hdb0, Hfree in Hins.
  injection Hins as _ Hdb1'.
  apply insertChallenges_inr in Hloop as (rows & Hrows & Hdb2).
  rewrite <- Hdb1' in Hrows, Hdb2. cbn in Hrows, Hdb2.
  exists rows. split; [done|]. by rewrite Hc, Hdb2.
Qed.

(** C4.  When the [k]-th token drawn is the first one no record has, in
    either storage location, and the fuel covers [k] rounds of the id loop,
    [NewPendingAuthorization] returns.  If it returns an error the database
    is as before.  If it returns none, the authorization returned is the
    input with that token as ID, the status pending and the challenges
    converted back from the rows; the unified table has got its row; the
    challenge table has got one row per supplied challenge, keyed from the
    table's next key on; nothing else has changed.  It returns no error when
    no storage call fails and the challenges are convertible. *)
Theorem NewPendingAuthorization_spec (fuel : nat) (ssa : SQLStorageAuthority)
    (auth : Authorization) (k : nat) :
  (forall j, (j < k)%nat ->
     recordExists (dbMap ssa) (tokens ssa (tokenIndex ssa + j)) = true) ->
  recordExists (dbMap ssa) (tokens ssa (tokenIndex ssa + k)) = false ->
  (k < fuel)%nat ->
  let id := tokens ssa (tokenIndex ssa + k) in
  let stored := withStatus (withID auth id) StatusPending in
  exists result err ssa',
    NewPendingAuthorization challengeToModel modelToChallenge fuel ssa auth
    = Some ((result, err), ssa')
    /\ (err <> None -> dbMap ssa' = dbMap ssa)
    /\ (err = None ->
        ID result = id /\ Status result = StatusPending
        /\ result = withChallenges stored (Challenges result)
        /\ exists rows,
             insertedRows challengeToModel modelToChallenge id
               (nextChallengeID (dbMap ssa)) (Challenges auth) rows (Challenges result)
             /\ length rows = length (Challenges auth)
             /\ dbMap ssa'
                = setChallenges
                    (setAuthz (dbMap ssa) (<[id := columns stored]> (authz (dbMap ssa))))
                    (challenges (dbMap ssa) ++ rows)
                    (nextChallengeID (dbMap ssa) + Z.of_nat (length (Challenges auth))))
    /\ (quiet (script ssa) ->
        convertible challengeToModel modelToChallenge id (Challenges auth) ->
        err = None).
Proof.
  intros Hbefore Hfresh Hfuel. cbn zeta.
  set (id := tokens ssa (tokenIndex ssa + k)) in *.
  assert (exists result err ssa',
            NewPendingAuthorization challengeToModel modelToChallenge fuel ssa auth
            = Some ((result, err), ssa')
            /\ (err = None -> ID result = id)
            /\ (quiet (script ssa) ->
                convertible challengeToModel modelToChallenge id (Challenges auth) ->
                err = None)) as (result & err & ssa' & Hrun & Hid & Hok).
  { unfold NewPendingAuthorization.
    destruct (Begin ssa) as [[e|tx] ssa1] eqn:HB.
    { do 3 eexists. split; [done|]. split; [done|].
      intros Hq _. rewrite Begin_quiet in HB by done. done. }
    assert (tx_db tx = dbMap ssa /\ tokens ssa1 = tokens ssa
            /\ tokenIndex ssa1 = tokenIndex ssa
            /\ (quiet (script ssa) -> quiet (tx_script tx))) as (Hdb0 & Htok & Hidx & Hqtx).
    { unfold Begin in HB. destruct (script ssa) as [|[e|] rest]; try done;
        injection HB as <- <-; repeat split; cbn; auto. intros Hq. by inversion Hq. }
    unfold NewToken. rewrite Htok, Hidx.
    set (ssa2 := mkSA (dbMap ssa1) (clk ssa1) (script ssa1) (tokens ssa) (S (tokenIndex ssa))).
    assert (regenerateID fuel tx ssa2 (tokens ssa2 (tokenIndex ssa))
            = Some (tokens ssa2 (tokenIndex ssa + k),
                    mkSA (dbMap ssa2) (clk ssa2) (script ssa2) (tokens ssa2)
                         (S (tokenIndex ssa + k)))) as Hreg.
    { apply regenerateID_finds; [done|done|..].
      - intros j Hj. change (recordExists (tx_db tx) (tokens ssa (tokenIndex ssa + j)) = true).
        rewrite Hdb0. by apply Hbefore.
      - change (recordExists (tx_db tx) id = false). by rewrite Hdb0. }
    change (tokens ssa2 (tokenIndex ssa + k)) with id in Hreg.
    change (tokens ssa2) with (tokens ssa) in Hreg. rewrite Hreg.
    cbn [authz_Authorization ID withStatus withID Challenges].
    assert (quiet (script ssa) ->
            convertible challengeToModel modelToChallenge id (Challenges auth) ->
            exists returned tx',
              (let* _ := Insert (RowAuthz (mkAuthz (withStatus (withID auth id) StatusPending)))
               in insertChallenges challengeToModel modelToChallenge id (Challenges auth)) tx
              = (inr returned, tx')
              /\ quiet (tx_script tx')) as Hquiet.
    { intros Hq Hconv.
      apply (newPendingSteps_quiet (withStatus (withID auth id) StatusPending) tx);
        [auto| |done].
      cbn [ID withStatus withID]. rewrite Hdb0.
      by apply recordExists_false in Hfresh as [_ ->]. }
    destruct (bind _ _ tx) as [[e|returned] tx'] eqn:Hsteps.
    { do 3 eexists. split; [done|]. split; [done|].
      intros Hq Hconv. destruct (Hquiet Hq Hconv) as (? & ? & [=] & _). }
    destruct (Commit _ tx') as [err' ssa4] eqn:HC.
    do 3 eexists. split; [done|]. split; [done|].
    intros Hq Hconv. destruct (Hquiet Hq Hconv) as (? & ? & [= <- <-] & Hq'').
    destruct (Commit_quiet (mkSA (dbMap ssa2) (clk ssa2) (script ssa2) (tokens ssa)
                              (S (tokenIndex ssa + k))) tx' Hq'') as [Hn _].
    by rewrite HC in Hn. }
  exists result, err, ssa'. split; [done|].
  apply NewPendingAuthorization_inv in Hrun as [Hfail Hdone].
  split; [done|]. split; [|done].
  intros Hn. specialize (Hid Hn). destruct (Hdone Hn) as (_ & Hres & rows & Hrows & Hdb).
  cbn zeta in Hres. rewrite Hid in *.
  split; [done|]. split; [by rewrite Hres|]. split; [done|].
  exists rows. split; [done|]. split; [|done].
  by apply insertedRows_length in Hrows as [? _].
Qed.

(** *** The transitions of the operations *)

Lemma FinalizeAuthorization_transition (ssa : SQLStorageAuthority) (auth : Authorization)
    (id : string) old new :
  statusOf (dbMap ssa) id = Some old ->
  statusOf (dbMap (FinalizeAuthorization pendingStatuses challengeToModel ssa auth).2) id
  = Some new ->
  old <> new ->
  id = ID auth /\ statusIsPending pendingStatuses old = true
  /\ statusIsPending pendingStatuses new = false /\ new = Status auth.
Proof.
  destruct ((FinalizeAuthorization pendingStatuses challengeToModel ssa auth).1) as [e|] eqn:He.
  { rewrite FinalizeAuthorization_atomic by congruence. congruence. }
  destruct (transaction_inr (finalizeSteps pendingStatuses challengeToModel auth) ssa He)
    as (tx & [] & tx' & Hdb & Hsteps & Hdb').
  cbn zeta in Hdb'. fold (FinalizeAuthorization pendingStatuses challengeToModel ssa auth) in Hdb'.
  rewrite Hdb'.
  apply finalizeSteps_inr in Hsteps as (stored & table & Hloc & Hst & Hs & Ha' & Hcase).
  rewrite Hdb in *. rewrite !statusOf_lookup, Ha'.
  destruct (decide (id = ID auth)) as [->|Hne].
  - rewrite lookup_insert_eq.
    apply located_cases in Hloc as [(-> & l & Hl)|(-> & Hp & Ha)].
    + destruct Hcase as [(_ & _ & ->)|[[=] _]].
      rewrite lookup_delete_eq, Hl. cbn. intros [= <-] [= <-] _. done.
    + destruct Hcase as [([=] & _)|[_ ->]].
      rewrite Hp, Ha. cbn. intros [= <-] [= <-] _. done.
  - rewrite lookup_insert_ne by done.
    destruct Hcase as [(_ & _ & ->)|[_ ->]]; [rewrite lookup_delete_ne by done|]; congruence.
Qed.

Lemma UpdatePendingAuthorization_transition (ssa : SQLStorageAuthority) (auth : Authorization)
    (id : string) old new :
  statusOf (dbMap ssa) id = Some old ->
  statusOf (dbMap (UpdatePendingAuthorization pendingStatuses challengeToModel ssa auth).2) id
  = Some new ->
  old <> new ->
  id = ID auth /\ statusIsPending pendingStatuses old = true
  /\ statusIsPending pendingStatuses new = true /\ new = Status auth.
Proof.
  destruct ((UpdatePendingAuthorization pendingStatuses challengeToModel ssa auth).1)
    as [e|] eqn:He.
  { rewrite UpdatePendingAuthorization_atomic by congruence. congruence. }
  destruct (transaction_inr (updatePendingSteps pendingStatuses challengeToModel auth) ssa He)
    as (tx & [] & tx' & Hdb & Hsteps & Hdb').
  cbn zeta in Hdb'.
  fold (UpdatePendingAuthorization pendingStatuses challengeToModel ssa auth) in Hdb'.
  rewrite Hdb'.
  apply updatePendingSteps_inr in Hsteps as (Hs & stored & Hloc & Hst & _ & Hp' & Ha').
  rewrite Hdb in *. rewrite !statusOf_lookup, Ha', Hp'.
  apply located_cases in Hloc as [([=] & _)|(_ & Hp & Ha)].
  destruct (decide (id = ID auth)) as [->|Hne].
  - rewrite lookup_insert_eq, Hp, Ha. cbn. intros [= <-] [= <-] _. done.
  - rewrite lookup_insert_ne by done. congruence.
Qed.

(** [NewPendingAuthorization] changes the status of no stored authorization. *)
Lemma NewPendingAuthorization_transition fuel (ssa : SQLStorageAuthority)
    (auth : Authorization) r ssa' (id : string) old new :
  NewPendingAuthorization challengeToModel modelToChallenge fuel ssa auth = Some (r, ssa') ->
  statusOf (dbMap ssa) id = Some old ->
  statusOf (dbMap ssa') id = Some new ->
  old = new.
Proof.
  destruct r as [result err]. intros Hrun.
  apply NewPendingAuthorization_inv in Hrun as [Hfail Hdone].
  destruct err as [e|]; [rewrite Hfail by done; congruence|].
  destruct (Hdone eq_refl) as (Hfresh & _ & rows & _ & ->).
  apply recordExists_false in Hfresh as [Hp Ha].
  rewrite !statusOf_lookup. cbn [pendingAuthorizations authz setAuthz setChallenges].
  destruct (decide (id = ID result)) as [->|Hne].
  - rewrite Hp, Ha. done.
  - rewrite lookup_insert_ne by done. congruence.
Qed.

Lemma statusOf_located (db : DbState) (id : string) s :
  statusOf db id = Some s ->
  exists c table, located db id = Some (c, table) /\ col_Status c = s.
Proof.
  unfold statusOf. destruct (located db id) as [[c table]|]; [|done].
  intros [= <-]. eauto.
Qed.

(** [DeactivateAuthorization] on a status that is neither pending nor valid:
    success, and nothing written. *)
Lemma DeactivateAuthorization_final (ssa : SQLStorageAuthority) (id : string) s :
  quiet (script ssa) ->
  statusOf (dbMap ssa) id = Some s -> s <> StatusPending -> s <> StatusValid ->
  (DeactivateAuthorization ssa id).1 = None
  /\ dbMap (DeactivateAuthorization ssa id).2 = dbMap ssa.
Proof.
  intros Hq Hs Hp Hv. apply statusOf_located in Hs as (c & table & Hloc & <-).
  unfold DeactivateAuthorization. rewrite Begin_quiet by done.
  rewrite getAuthz_quiet by (cbn; auto). cbn [tx_db]. rewrite Hloc.
  cbn [Status fromColumns].
  apply String.eqb_neq in Hp, Hv. rewrite Hp, Hv. done.
Qed.

(** C5, in the form the code satisfies.  Whenever one of the operations
    [NewPendingAuthorization], [UpdatePendingAuthorization],
    [FinalizeAuthorization] and [DeactivateAuthorization] changes the stored
    status of an authorization from [old] to [new], then either the
    operation is an update of that authorization, and [old] and [new] are
    both pending statuses; or it is a finalize of that authorization, [old]
    is a pending status and [new] is the status supplied, which is any status
    that is not pending; or it is a deactivate of that authorization, [old]
    is pending or valid and [new] is deactivated.  Deactivate returns success
    without writing when the stored status is neither pending nor valid, and
    its UPDATE statement writes only to a row whose status is pending or
    valid when the statement runs. *)
Theorem status_transitions (op : operation) (ssa ssa' : SQLStorageAuthority)
    (id : string) (old new : AcmeStatus) :
  perform pendingStatuses challengeToModel modelToChallenge op ssa = Some ssa' ->
  statusOf (dbMap ssa) id = Some old ->
  statusOf (dbMap ssa') id = Some new ->
  old <> new ->
  ((exists auth, op = OpUpdatePending auth /\ id = ID auth
                 /\ statusIsPending pendingStatuses old = true
                 /\ statusIsPending pendingStatuses new = true)
   \/ (exists auth, op = OpFinalize auth /\ id = ID auth
                    /\ statusIsPending pendingStatuses old = true
                    /\ statusIsPending pendingStatuses new = false
                    /\ new = Status auth)
   \/ (op = OpDeactivate id
       /\ (old = StatusPending \/ old = StatusValid) /\ new = StatusDeactivated))
  /\ (forall ssa0 id0 s,
        quiet (script ssa0) -> statusOf (dbMap ssa0) id0 = Some s ->
        s <> StatusPending -> s <> StatusValid ->
        (DeactivateAuthorization ssa0 id0).1 = None
        /\ dbMap (DeactivateAuthorization ssa0 id0).2 = dbMap ssa0)
  /\ (forall table id0 tx tx' n,
        ExecUpdateStatus table StatusDeactivated id0 [StatusPending; StatusValid] tx
        = (inr n, tx') ->
        tx_db tx' <> tx_db tx ->
        exists c, (col_Status c = StatusPending \/ col_Status c = StatusValid)
          /\ ((table = pendingAuthorizationsTable
               /\ exists l, pendingAuthorizations (tx_db tx) !! id0 = Some (c, l)
                    /\ tx_db tx' = setPendingAuthorizations (tx_db tx)
                         (<[id0 := (columnsWithStatus c StatusDeactivated, l)]>
                            (pendingAuthorizations (tx_db tx))))
              \/ (table = authzTable
                  /\ authz (tx_db tx) !! id0 = Some c
                  /\ tx_db tx' = setAuthz (tx_db tx)
                       (<[id0 := columnsWithStatus c StatusDeactivated]> (authz (tx_db tx)))))).
Proof.
  intros Hop Hold Hnew Hne. split; [|split].
  - destruct op as [fuel auth|auth|auth|id']; cbn [perform] in Hop.
    + destruct (NewPendingAuthorization _ _ fuel ssa auth) as [[r ssa1]|] eqn:Hrun; [|done].
      injection Hop as ->.
      by pose proof (NewPendingAuthorization_transition _ _ _ _ _ _ _ _ Hrun Hold Hnew).
    + injection Hop as <-.
      destruct (UpdatePendingAuthorization_transition _ _ _ _ _ Hold Hnew Hne)
        as (-> & ? & ? & _).
      left. by exists auth.
    + injection Hop as <-.
      destruct (FinalizeAuthorization_transition _ _ _ _ _ Hold Hnew Hne) as (-> & ? & ? & ?).
      right. left. by exists auth.
    + injection Hop as <-.
      destruct (DeactivateAuthorization_cases _ _ _ _ _ Hold Hnew Hne) as (-> & ? & ?).
      right. right. done.
  - apply DeactivateAuthorization_final.
  - intros table id0 tx tx' n Hexec Hchanged.
    apply ExecUpdateStatus_conditional in Hexec
      as [?|[(-> & c & l & Hl & Hst & ->)|(-> & c & Hl & Hst & ->)]]; [done|..].
    + exists c. split; [done|]. left. split; [done|]. by exists l.
    + exists c. split; [done|]. right. done.
Qed.

End AuthorizationStore.

(** ** The issuance ledger *)

Section IssuanceLedger.

Variable ParseCertificate : list Z -> error + x509Certificate.
Variable Fingerprint256 : list Z -> string.
Variable SerialToString : Z -> string.
Variable ReverseName : string -> string.
Variable Sum256 : string -> list Z.

(** Steps that succeed have inserted all four kinds of rows. *)
Lemma recordSteps_inr ssa certDER regID cert tx tx' :
  tx_db tx = dbMap ssa ->
  recordSteps Fingerprint256 SerialToString ReverseName Sum256 ssa certDER regID cert tx
  = (inr tt, tx') ->
  tx_db tx' = recorded Fingerprint256 SerialToString ReverseName Sum256 ssa certDER regID cert.
Proof.
  intros Hdb H. unfold recordSteps in H.
  apply bind_inr in H as (n1 & tx1 & H1 & H).
  apply bind_inr in H as (n2 & tx2 & H2 & H).
  apply bind_inr in H as ([] & tx3 & H3 & H4).
  apply call_inr in H1. cbn in H1. unfold insertKeyed in H1.
  destruct (certificates (tx_db tx) !! _); [done|]. injection H1 as _ Hdb1.
  apply call_inr in H2. cbn in H2. unfold insertKeyed in H2.
  destruct (certificateStatus (tx_db tx1) !! _); [done|]. injection H2 as _ Hdb2.
  unfold addIssuedNames in H3. apply bind_inr in H3 as (n3 & tx3' & H3 & Hret).
  injection Hret as <-. apply call_inr in H3.
  destruct (issuedNameRows SerialToString ReverseName cert) eqn:Hrows; [done|].
  injection H3 as _ Hdb3. rewrite <- Hrows in Hdb3.
  unfold addFQDNSet in H4. apply bind_inr in H4 as (n4 & tx4 & H4 & Hret).
  injection Hret as <-. apply call_inr in H4. injection H4 as _ Hdb4.
  rewrite <- Hdb4, <- Hdb3, <- Hdb2, <- Hdb1, Hdb. reflexivity.
Qed.

(** Without failure of the storage, a fresh serial and at least one name,
    the steps succeed. *)
Lemma recordSteps_quiet ssa certDER regID cert tx :
  quiet (tx_script tx) -> tx_db tx = dbMap ssa ->
  certificates (dbMap ssa) !! SerialToString (SerialNumber cert) = None ->
  certificateStatus (dbMap ssa) !! SerialToString (SerialNumber cert) = None ->
  DNSNames cert <> [] ->
  exists tx',
    recordSteps Fingerprint256 SerialToString ReverseName Sum256 ssa certDER regID cert tx
    = (inr tt, tx')
    /\ quiet (tx_script tx').
Proof.
  intros Hq Hdb Hc Hs Hnames. unfold recordSteps.
  set (serial := SerialToString (SerialNumber cert)).
  set (c := newCertificate Fingerprint256 SerialToString ssa certDER regID cert).
  set (st := newCertificateStatus serial).
  set (rows := issuedNameRows SerialToString ReverseName cert).
  set (f := mkFQDNSet (hashNames Sum256 (DNSNames cert)) serial (NotBefore cert)
              (NotAfter cert)).
  pose (db1 := setCertificates (tx_db tx) (<[serial := c]> (certificates (tx_db tx)))).
  pose (db2 := setCertificateStatus db1 (<[serial := st]> (certificateStatus db1))).
  pose (db3 := setIssuedNames db2 (issuedNames db2 ++ rows)).
  pose (db4 := setFqdnSets db3 (fqdnSets db3 ++ [f])).
  assert (Insert (RowCertificate c) tx = (inr 0, mkTx db1 (tl (tx_script tx)))) as H1.
  { unfold Insert. rewrite call_quiet by done. subst db1 c serial. cbn. unfold insertKeyed.
    rewrite Hdb in *. by rewrite Hc. }
  assert (Insert (RowCertificateStatus st) (mkTx db1 (tl (tx_script tx)))
          = (inr 0, mkTx db2 (tl (tl (tx_script tx))))) as H2.
  { unfold Insert. rewrite call_quiet by (cbn; auto). subst db2 db1 st serial. cbn.
    unfold insertKeyed. rewrite Hdb in *. by rewrite Hs. }
  assert (addIssuedNames SerialToString ReverseName cert (mkTx db2 (tl (tl (tx_script tx))))
          = (inr tt, mkTx db3 (tl (tl (tl (tx_script tx)))))) as H3.
  { unfold addIssuedNames, ExecInsertIssuedNames, bind. rewrite call_quiet by (cbn; auto).
    fold rows. assert (rows <> []) as Hrows.
    { unfold rows, issuedNameRows. by destruct (DNSNames cert). }
    by destruct rows. }
  assert (addFQDNSet Sum256 (DNSNames cert) serial (NotBefore cert) (NotAfter cert)
            (mkTx db3 (tl (tl (tl (tx_script tx)))))
          = (inr tt, mkTx db4 (tl (tl (tl (tl (tx_script tx))))))) as H4.
  { unfold addFQDNSet, Insert, bind. by rewrite call_quiet by (cbn; auto). }
  exists (mkTx db4 (tl (tl (tl (tl (tx_script tx)))))). split; [|cbn; auto].
  rewrite (bind_run _ _ _ _ _ H1), (bind_run _ _ _ _ _ H2), (bind_run _ _ _ _ _ H3).
  exact H4.
Qed.

(** C6.  For a certificate that decodes, [AddCertificate] returns the
    fingerprint and either commits all of the certificate row, the status row
    (status good, no revocation date and reason), one index row per subject
    name and the name-set row keyed by the digest of the subject names, or
    returns an error and commits none of them.  It commits when no storage
    call fails, the serial is new to both tables and there is a subject
    name. *)
Theorem AddCertificate_all_or_nothing (ssa : SQLStorageAuthority) (certDER : list Z)
    (regID : Z) (cert : x509Certificate) :
  ParseCertificate certDER = inr cert ->
  let serial := SerialToString (SerialNumber cert) in
  let '((digest, err), ssa') :=
    AddCertificate ParseCertificate Fingerprint256 SerialToString ReverseName Sum256
      ssa certDER regID in
  digest = Fingerprint256 certDER
  /\ ((err = None
       /\ dbMap ssa'
          = recorded Fingerprint256 SerialToString ReverseName Sum256 ssa certDER regID cert)
      \/ (err <> None /\ dbMap ssa' = dbMap ssa))
  /\ (quiet (script ssa) ->
      certificates (dbMap ssa) !! serial = None ->
      certificateStatus (dbMap ssa) !! serial = None ->
      DNSNames cert <> [] ->
      err = None).
Proof.
  intros Hparse. cbn zeta. unfold AddCertificate. rewrite Hparse.
  fold (recordSteps Fingerprint256 SerialToString ReverseName Sum256 ssa certDER regID cert).
  destruct (Begin ssa) as [[e|tx] ssa1] eqn:HB.
  { split; [done|]. split.
    - right. apply Begin_inl in HB. done.
    - intros Hq. by rewrite Begin_quiet in HB. }
  assert (quiet (script ssa) -> quiet (tx_script tx)) as Hqtx.
  { unfold Begin in HB. destruct (script ssa) as [|[e|] rest]; try done;
      injection HB as <- <-; cbn; auto. intros Hq. by inversion Hq. }
  apply Begin_inr in HB as (Hdb0 & Hdb1 & _).
  destruct (recordSteps Fingerprint256 SerialToString ReverseName Sum256 ssa certDER regID
              cert tx) as [[e|[]] tx'] eqn:Hsteps.
  { split; [done|]. split; [by right|].
    intros Hq Hc Hs Hn.
    destruct (recordSteps_quiet ssa certDER regID cert tx (Hqtx Hq) Hdb0 Hc Hs Hn)
      as (tx'' & Hrun & _). congruence. }
  destruct (Commit ssa1 tx') as [err ssa2] eqn:HC.
  split; [done|]. split.
  - destruct (Commit_cases ssa1 tx') as [(e & He & Hc)|[Hn Hc]]; rewrite HC in *; cbn in *.
    + right. split; congruence.
    + left. split; [done|]. rewrite Hc. by eapply recordSteps_inr.
  - intros Hq Hc Hs Hn.
    destruct (recordSteps_quiet ssa certDER regID cert tx (Hqtx Hq) Hdb0 Hc Hs Hn)
      as (tx'' & Hrun & Hq''). rewrite Hsteps in Hrun. injection Hrun as <-.
    destruct (Commit_quiet ssa1 tx' Hq'') as [Hnone _]. by rewrite HC in Hnone.
Qed.

End IssuanceLedger.

(** ** The authorization store on sample data *)

(** C1, at a pending authorization held by the legacy table, with its one
    challenge stored, finalized to valid with that challenge reported valid:
    [FinalizeAuthorization] returns gorp's error and rolls back, so that
    nothing is inserted into the unified table, the legacy row stays and the
    challenge keeps its status; the same record held by the unified table is
    finalized.  [tx.Delete] is handed the struct [oldRow], where every other
    write of sa.go hands gorp a pointer. *)
Theorem FinalizeAuthorization_legacy_refused :
  let legacy := Sample.authority Sample.challengedLegacyDb [] in
  let unified := Sample.authority Sample.challengedDb [] in
  let auth := withStatus Sample.pendingA_validated StatusValid in
  let r := FinalizeAuthorization Sample.pendingStatuses Sample.challengeToModel legacy auth in
  let u := FinalizeAuthorization Sample.pendingStatuses Sample.challengeToModel unified auth in
  located (dbMap legacy) "a" = Some (columns Sample.pendingA, pendingAuthorizationsTable)
  /\ statusIsPending Sample.pendingStatuses (col_Status (columns Sample.pendingA)) = true
  /\ statusIsPending Sample.pendingStatuses (Status auth) = false
  /\ length (challengesOf (dbMap legacy) "a") = length (Challenges auth)
  /\ r.1 = Some passedNonPointer
  /\ dbMap r.2 = Sample.challengedLegacyDb
  /\ authz (dbMap r.2) !! "a"%string = None
  /\ u.1 = None
  /\ authz (dbMap u.2) !! "a"%string = Some (columns auth)
  /\ challenges (dbMap u.2) = [mkChall 1 "a" "http-01" "valid" "token-1"].
Proof. repeat split; vm_compute; reflexivity. Qed.

(** The general statement on that record and on the one of the unified
    table. *)
Example FinalizeAuthorization_spec_sample :
  let auth := withStatus Sample.pendingA_validated StatusValid in
  (FinalizeAuthorization Sample.pendingStatuses Sample.challengeToModel
     (Sample.authority Sample.challengedLegacyDb []) auth).1 = Some passedNonPointer
  /\ (FinalizeAuthorization Sample.pendingStatuses Sample.challengeToModel
        (Sample.authority Sample.challengedDb []) auth).1 = None.
Proof.
  intros auth. split.
  - pose proof (FinalizeAuthorization_spec Sample.pendingStatuses Sample.challengeToModel
                  (Sample.authority Sample.challengedLegacyDb []) auth
                  (columns Sample.pendingA) pendingAuthorizationsTable quiet_nil eq_refl) as H.
    cbn zeta in H.
    destruct (FinalizeAuthorization Sample.pendingStatuses Sample.challengeToModel
                (Sample.authority Sample.challengedLegacyDb []) auth) as [err ssa'].
    destruct H as [H _].
    change (negb (statusIsPending Sample.pendingStatuses (col_Status (columns Sample.pendingA))))
      with false in H.
    change (statusIsPending Sample.pendingStatuses (Status auth)) with false in H.
    cbv iota in H. destruct H as [Hlegacy _]. exact (proj1 (Hlegacy eq_refl)).
  - pose proof (FinalizeAuthorization_spec Sample.pendingStatuses Sample.challengeToModel
                  (Sample.authority Sample.challengedDb []) auth
                  (columns Sample.pendingA) authzTable quiet_nil eq_refl) as H.
    cbn zeta in H.
    destruct (FinalizeAuthorization Sample.pendingStatuses Sample.challengeToModel
                (Sample.authority Sample.challengedDb []) auth) as [err ssa'].
    destruct H as [H _].
    change (negb (statusIsPending Sample.pendingStatuses (col_Status (columns Sample.pendingA))))
      with false in H.
    change (statusIsPending Sample.pendingStatuses (Status auth)) with false in H.
    cbv iota in H. destruct H as [_ Hunified].
    exact (proj1 (Hunified eq_refl [mkChall 1 "a" "http-01" "valid" "token-1"] eq_refl)).
Qed.

(** A stored status that is not pending, and a pending one with a pending
    target. *)
Example FinalizeAuthorization_refusals :
  (FinalizeAuthorization Sample.pendingStatuses Sample.challengeToModel
     (Sample.authority
        (setAuthz emptyDb {[ "a"%string := columns (withStatus Sample.pendingA StatusValid) ]}) [])
     (withStatus Sample.pendingA StatusInvalid)).1
  = Some (errorString "Cannot finalize an authorization that is not pending")
  /\ (FinalizeAuthorization Sample.pendingStatuses Sample.challengeToModel
        (Sample.authority Sample.unifiedDb []) Sample.pendingA).1
     = Some (errorString "Cannot finalize an authorization to a non-final status").
Proof. split; vm_compute; reflexivity. Qed.

(** C2, at a pending authorization held by the legacy table, updated with a
    pending status and the stored number of challenges (none):
    [UpdatePendingAuthorization] returns the internal error and rolls back,
    where the same record held by the unified table is updated.  The table
    name it compares with, "pendingAuthorization", is not the name of the
    legacy table, "pendingAuthorizations". *)
Theorem UpdatePendingAuthorization_legacy_refused :
  let legacy := Sample.authority Sample.legacyDb [] in
  let unified := Sample.authority Sample.unifiedDb [] in
  located (dbMap legacy) "a" = Some (columns Sample.pendingA, pendingAuthorizationsTable)
  /\ statusIsPending Sample.pendingStatuses (Status Sample.pendingA) = true
  /\ length (challengesOf (dbMap legacy) "a") = length (Challenges Sample.pendingA)
  /\ (UpdatePendingAuthorization Sample.pendingStatuses Sample.challengeToModel
        legacy Sample.pendingA).1
     = Some (errorString "Internal error. Table mismatch updating authz")
  /\ (UpdatePendingAuthorization Sample.pendingStatuses Sample.challengeToModel
        unified Sample.pendingA).1 = None.
Proof. repeat split; vm_compute; reflexivity. Qed.

(** The theorem on a pending authorization of the unified table, stored
    without challenge and updated with one. *)
Lemma UpdatePendingAuthorization_count_mismatch_witness :
  let ssa := Sample.authority Sample.unifiedDb [] in
  let auth := withChallenges Sample.pendingA [Sample.http01] in
  length (challengesOf (dbMap ssa) (ID auth)) <> length (Challenges auth)
  /\ (UpdatePendingAuthorization Sample.pendingStatuses Sample.challengeToModel ssa auth).1
     = Some (errorString "Invalid number of challenges provided")
  /\ dbMap (UpdatePendingAuthorization Sample.pendingStatuses Sample.challengeToModel ssa auth).2
     = dbMap ssa.
Proof.
  intros ssa auth.
  assert (length (challengesOf (dbMap ssa) (ID auth)) <> length (Challenges auth)) as Hne
    by (vm_compute; discriminate).
  split; [exact Hne|].
  pose proof (UpdatePendingAuthorization_count_mismatch Sample.pendingStatuses
                Sample.challengeToModel ssa auth Hne) as H.
  destruct (UpdatePendingAuthorization Sample.pendingStatuses Sample.challengeToModel ssa auth)
    as [err ssa'].
  destruct H as (_ & Hdb & Herr). split; [|exact Hdb].
  apply (Herr (columns Sample.pendingA)); [constructor|..]; vm_compute; reflexivity.
Defined.

(** C3, at a pending authorization held by the legacy table and stored
    without challenge, updated with the status pending and one challenge:
    [UpdatePendingAuthorization] fails and leaves every row as it was, but
    the error is the internal table-mismatch error, not the validation
    error "Invalid number of challenges provided" the same call gets when
    the unified table holds the record.  The table name compared with,
    "pendingAuthorization", is not the legacy table's, so the call returns
    before the challenges are counted. *)
Theorem UpdatePendingAuthorization_mismatch_legacy :
  let legacy := Sample.authority Sample.legacyDb [] in
  let unified := Sample.authority Sample.unifiedDb [] in
  let auth := withChallenges Sample.pendingA [Sample.http01] in
  let r := UpdatePendingAuthorization Sample.pendingStatuses Sample.challengeToModel
             legacy auth in
  located (dbMap legacy) "a" = Some (columns Sample.pendingA, pendingAuthorizationsTable)
  /\ statusIsPending Sample.pendingStatuses (Status auth) = true
  /\ statusIsPending Sample.pendingStatuses (col_Status (columns Sample.pendingA)) = true
  /\ length (challengesOf (dbMap legacy) "a") <> length (Challenges auth)
  /\ r.1 = Some (errorString "Internal error. Table mismatch updating authz")
  /\ r.1 <> Some (errorString "Invalid number of challenges provided")
  /\ dbMap r.2 = Sample.legacyDb
  /\ (UpdatePendingAuthorization Sample.pendingStatuses Sample.challengeToModel
        unified auth).1
     = Some (errorString "Invalid number of challenges provided").
Proof.
  intros legacy unified auth r.
  assert (r.1 = Some (errorString "Internal error. Table mismatch updating authz")) as Hr
    by (vm_compute; reflexivity).
  repeat split; try (vm_compute; reflexivity).
  - vm_compute. discriminate.
  - rewrite Hr. discriminate.
Qed.

(** The theorem on a store whose record has the id the first token repeats: the
    second token is the first fresh one, and the authorization is created
    under it with its two challenges. *)
Lemma NewPendingAuthorization_spec_witness :
  let ssa := Sample.collidingAuthority Sample.unifiedDb in
  let auth := mkAuthorization "" Sample.example_com 1 StatusValid (Some 100)
                [Sample.http01; Sample.dns01] in
  (forall j, (j < 1)%nat ->
     recordExists (dbMap ssa) (tokens ssa (tokenIndex ssa + j)) = true)
  /\ recordExists (dbMap ssa) (tokens ssa (tokenIndex ssa + 1)) = false
  /\ (1 < 2)%nat
  /\ exists result ssa',
       NewPendingAuthorization Sample.challengeToModel Sample.modelToChallenge 2 ssa auth
       = Some ((result, None), ssa')
       /\ ID result = "1"%string /\ Status result = StatusPending
       /\ length (challenges (dbMap ssa')) = 2%nat.
Proof.
  intros ssa auth.
  assert (forall j, (j < 1)%nat ->
            recordExists (dbMap ssa) (tokens ssa (tokenIndex ssa + j)) = true) as Hbefore.
  { intros j Hj. assert (j = 0%nat) as -> by lia. vm_compute. reflexivity. }
  assert (recordExists (dbMap ssa) (tokens ssa (tokenIndex ssa + 1)) = false) as Hfresh
    by (vm_compute; reflexivity).
  assert (1 < 2)%nat as Hfuel by lia.
  do 3 (split; [assumption|]).
  destruct (NewPendingAuthorization_spec Sample.challengeToModel Sample.modelToChallenge
              2 ssa auth 1 Hbefore Hfresh Hfuel)
    as (result & err & ssa' & Hrun & _ & Hdone & Hok).
  assert (err = None) as ->.
  { apply Hok; [constructor|]. unfold convertible.
    repeat constructor; eexists; (split; [reflexivity|]); intros n; eexists; reflexivity. }
  destruct (Hdone eq_refl) as (Hid & Hst & _ & rows & _ & Hlen & Hdb).
  exists result, ssa'. split; [exact Hrun|]. split; [exact Hid|]. split; [exact Hst|].
  rewrite Hdb. cbn [challenges setChallenges]. rewrite length_app, Hlen. reflexivity.
Defined.

Example NewPendingAuthorization_example :
  match NewPendingAuthorization Sample.challengeToModel Sample.modelToChallenge 2
          (Sample.collidingAuthority Sample.unifiedDb)
          (mkAuthorization "" Sample.example_com 1 StatusValid (Some 100)
             [Sample.http01; Sample.dns01]) with
  | Some ((result, err), ssa') =>
      err = None
      /\ result = mkAuthorization "1" Sample.example_com 1 StatusPending (Some 100)
                    [mkChallenge 1 "http-01" "pending" "token-1";
                     mkChallenge 2 "dns-01" "pending" "token-2"]
      /\ challenges (dbMap ssa')
         = [mkChall 1 "1" "http-01" "pending" "token-1";
            mkChall 2 "1" "dns-01" "pending" "token-2"]
  | None => False
  end.
Proof. vm_compute. repeat split. Qed.

(** The theorem on a valid authorization that is deactivated. *)
Lemma status_transitions_witness :
  let ssa := Sample.authority Sample.validDb [] in
  let ssa' := (DeactivateAuthorization ssa "a").2 in
  perform Sample.pendingStatuses Sample.challengeToModel Sample.modelToChallenge
    (OpDeactivate "a") ssa = Some ssa'
  /\ statusOf (dbMap ssa) "a" = Some StatusValid
  /\ statusOf (dbMap ssa') "a" = Some StatusDeactivated
  /\ StatusValid <> StatusDeactivated
  /\ (OpDeactivate "a" = OpDeactivate "a"
      /\ (StatusValid = StatusPending \/ StatusValid = StatusValid)
      /\ StatusDeactivated = StatusDeactivated).
Proof.
  intros ssa ssa'.
  assert (perform Sample.pendingStatuses Sample.challengeToModel Sample.modelToChallenge
            (OpDeactivate "a") ssa = Some ssa') as Hop by reflexivity.
  assert (statusOf (dbMap ssa) "a" = Some StatusValid) as Hold by (vm_compute; reflexivity).
  assert (statusOf (dbMap ssa') "a" = Some StatusDeactivated) as Hnew
    by (vm_compute; reflexivity).
  assert (StatusValid <> StatusDeactivated) as Hne by discriminate.
  do 4 (split; [assumption|]).
  destruct (status_transitions Sample.pendingStatuses Sample.challengeToModel
              Sample.modelToChallenge _ _ _ _ _ _ Hop Hold Hnew Hne) as [Hcase _].
  destruct Hcase as [(a & [=] & _)|[(a & [=] & _)|Hd]]. exact Hd.
Defined.

(** C5 as stated fails: finalizing a pending authorization with the status
    "revoked" succeeds, and the stored status goes from pending to a status
    that is none of valid, invalid and deactivated. *)
Lemma FinalizeAuthorization_to_revoked :
  let ssa := Sample.authority Sample.unifiedDb [] in
  let r := FinalizeAuthorization Sample.pendingStatuses Sample.challengeToModel ssa
             (withStatus Sample.pendingA "revoked") in
  statusOf (dbMap ssa) "a" = Some StatusPending
  /\ r.1 = None
  /\ statusOf (dbMap r.2) "a" = Some "revoked"%string
  /\ "revoked"%string <> StatusValid
  /\ "revoked"%string <> StatusInvalid
  /\ "revoked"%string <> StatusDeactivated.
Proof. intros ssa r. repeat split; try (vm_compute; reflexivity); discriminate. Qed.

(** The theorem on a fresh store, for a certificate with three subject names, two of
    them the same up to case. *)
Lemma AddCertificate_all_or_nothing_witness :
  let ssa := Sample.authority emptyDb [] in
  let cert := mkX509 7 ["a.example.com"; "A.EXAMPLE.COM"; "b.example.com"]%string 5 95 in
  let r := AddCertificate Sample.ParseCertificate Sample.Fingerprint256 Sample.SerialToString
             Sample.ReverseName Sample.Sum256 ssa [7] 1 in
  Sample.ParseCertificate [7] = inr cert
  /\ r.1 = (Sample.Fingerprint256 [7], None)
  /\ dbMap r.2
     = recorded Sample.Fingerprint256 Sample.SerialToString Sample.ReverseName Sample.Sum256
         ssa [7] 1 cert
  /\ length (issuedNames (dbMap r.2)) = 3%nat
  /\ map SetHash (fqdnSets (dbMap r.2))
     = [hashNames Sample.Sum256 ["b.example.com"; "a.example.com"]%string].
Proof.
  intros ssa cert r.
  assert (Sample.ParseCertificate [7] = inr cert) as Hparse by reflexivity.
  split; [exact Hparse|].
  pose proof (AddCertificate_all_or_nothing Sample.ParseCertificate Sample.Fingerprint256
                Sample.SerialToString Sample.ReverseName Sample.Sum256 ssa [7] 1 cert Hparse)
    as H.
  cbn zeta in H. fold r in H. destruct r as [[digest err] ssa'].
  destruct H as (-> & Hcase & Hok).
  assert (err = None) as ->.
  { apply Hok; [constructor|vm_compute; reflexivity|vm_compute; reflexivity|discriminate]. }
  destruct Hcase as [[_ Hdb]|[Hne _]]; [|done].
  split; [reflexivity|]. cbn [snd]. rewrite Hdb. split; [reflexivity|].
  split; vm_compute; reflexivity.
Defined.

(** An update of a pending authorization of the unified table rewrites its
    row and its challenge row; finalizing it afterwards sets the status. *)
Example UpdatePendingAuthorization_example :
  let r := UpdatePendingAuthorization Sample.pendingStatuses Sample.challengeToModel
             (Sample.authority Sample.challengedDb []) Sample.pendingA_validated in
  r.1 = None
  /\ challenges (dbMap r.2) = [mkChall 1 "a" "http-01" "valid" "token-1"]
  /\ statusOf (dbMap r.2) "a" = Some StatusPending
  /\ let f := FinalizeAuthorization Sample.pendingStatuses Sample.challengeToModel r.2
                (withStatus Sample.pendingA_validated StatusValid) in
     f.1 = None /\ statusOf (dbMap f.2) "a" = Some StatusValid.
Proof. vm_compute. repeat split. Qed.

(** A failure of the storage in the middle of a finalize: the update of the
    row has gone through, the select of the challenges fails, nothing is
    committed. *)
Example FinalizeAuthorization_rolls_back :
  let ssa := Sample.authority Sample.challengedDb
               [None; None; None; Some Sample.connectionLost] in
  let r := FinalizeAuthorization Sample.pendingStatuses Sample.challengeToModel ssa
             (withStatus Sample.pendingA_validated StatusValid) in
  r.1 = Some Sample.connectionLost /\ dbMap r.2 = Sample.challengedDb.
Proof. vm_compute. repeat split. Qed.

(** * Further properties *)

(** ** The range codec, continued *)

(** X1.  [incrementIP] never wraps around: for every index from 0 to 128 the
    result has 16 bytes and is the sum, or the highest address when the sum
    exceeds it. *)
Theorem incrementIP_saturates (ip : IP) (index : Z) :
  wellFormed ip -> 0 <= index <= 128 ->
  length (incrementIP ip index) = 16%nat
  /\ SetBytes (incrementIP ip index)
     = Z.min (SetBytes ip + 2 ^ (128 - index)) (2 ^ 128 - 1).
Proof.
  intros Hwf Hi.
  destruct (Z_lt_ge_dec (SetBytes ip + 2 ^ (128 - index)) (2 ^ 128)) as [Hfit|Hover].
  - destruct (incrementIP_fits ip index Hwf Hi Hfit) as [Hl Hv]. split; [done|].
    rewrite Hv. lia.
  - rewrite incrementIP_clamps by lia. split; [done|].
    change (SetBytes maxIP) with (2 ^ 128 - 1). lia.
Qed.

Lemma incrementIP_saturates_witness :
  wellFormed [255; 255; 255; 255; 255; 255; 0; 0; 0; 0; 0; 0; 0; 0; 0; 0]
  /\ 0 <= 48 <= 128
  /\ SetBytes (incrementIP [255; 255; 255; 255; 255; 255; 0; 0; 0; 0; 0; 0; 0; 0; 0; 0] 48)
     = 2 ^ 128 - 1.
Proof.
  assert (wellFormed [255; 255; 255; 255; 255; 255; 0; 0; 0; 0; 0; 0; 0; 0; 0; 0]) as Hwf
    by (unfold wellFormed, isByte; repeat constructor; lia).
  assert (0 <= 48 <= 128) as Hi by lia.
  split; [exact Hwf|]. split; [exact Hi|].
  destruct (incrementIP_saturates _ 48 Hwf Hi) as [_ Hv]. rewrite Hv. reflexivity.
Defined.

(** The two bounds of [ipRange], by cases on the address family. *)
Lemma ipRange_bounds (ip : IP) :
  wellFormed ip -> length ip = 4%nat \/ length ip = 16%nat ->
  wellFormed (To16 ip) /\ length (To16 ip) = 16%nat
  /\ ((isIPv4 ip = true
       /\ (ipRange ip).1 = To16 ip
       /\ SetBytes (ipRange ip).2 = SetBytes (To16 ip) + 1
       /\ SetBytes (To16 ip) + 1 < 2 ^ 128)
      \/ (isIPv4 ip = false /\ To16 ip = ip
          /\ (ipRange ip).1 = take 6 ip ++ replicate 10 0
          /\ (ipRange ip).2 = incrementIP (take 6 ip ++ replicate 10 0) 48)).
Proof.
  intros Hwf Hlen. unfold ipRange, isIPv4.
  assert (wellFormed (To16 ip) /\ length (To16 ip) = 16%nat
          /\ (To4 (To16 ip) <> [] <-> To4 ip <> [])
          /\ (To4 ip = [] -> To16 ip = ip)) as (Hwf16 & Hlen16 & Hv4 & Hsame).
  { destruct Hlen as [Hlen|Hlen]; unfold To16; rewrite Hlen; cbn [Nat.eqb].
    - repeat split.
      + apply Forall_app. split; [|done].
        unfold v4InV6Prefix. repeat constructor; unfold isByte; lia.
      + rewrite length_app, Hlen. reflexivity.
      + intros _. unfold To4. rewrite Hlen. cbn [Nat.eqb]. intros ->. discriminate Hlen.
      + intros _. do 5 (destruct ip as [|? ip]; try discriminate Hlen).
        cbn. discriminate.
      + unfold To4. rewrite Hlen. cbn [Nat.eqb]. intros ->. discriminate Hlen.
    - repeat split; done. }
  split; [done|]. split; [done|].
  destruct (decide (To4 ip <> [])) as [H4|H6].
  - left. rewrite (bool_decide_eq_true_2 (To4 ip <> [])) by done.
    rewrite (bool_decide_eq_true_2 (To4 (To16 ip) <> [])) by (by apply Hv4).
    cbn [fst snd]. rewrite Mask_128 by done.
    apply Hv4 in H4. apply To4_16 in H4; [|done].
    pose proof (SetBytes_v4 _ Hwf16 Hlen16 H4) as Hfit.
    destruct (incrementIP_fits (To16 ip) 128 Hwf16 ltac:(lia)
                ltac:(change (2 ^ (128 - 128)) with 1; lia)) as [Hl Hv].
    change (2 ^ (128 - 128)) with 1 in Hv. done.
  - right. rewrite (bool_decide_eq_false_2 (To4 ip <> [])) by done.
    rewrite (bool_decide_eq_false_2 (To4 (To16 ip) <> [])) by (by rewrite Hv4).
    assert (To16 ip = ip) as Heq by (apply Hsame; by destruct (To4 ip); [|exfalso; apply H6]).
    rewrite Heq in *. cbn [fst snd]. rewrite Mask_48 by done. done.
Qed.

(** X2.  The range holds the address it was computed from, with one exception:
    the upper bound is exclusive, so when it is clamped to the highest
    address, that address itself falls outside the range. *)
Theorem ipRange_contains (ip : IP) :
  wellFormed ip -> length ip = 4%nat \/ length ip = 16%nat ->
  let '(begin, end_) := ipRange ip in
  SetBytes begin <= SetBytes (To16 ip)
  /\ (SetBytes (To16 ip) < SetBytes end_ <-> SetBytes (To16 ip) <> 2 ^ 128 - 1).
Proof.
  intros Hwf Hlen.
  destruct (ipRange_bounds ip Hwf Hlen) as (Hwf16 & Hlen16 & Hcase).
  destruct (ipRange ip) as [begin end_]. cbn [fst snd] in Hcase.
  destruct Hcase as [(_ & -> & He & Hfit)|(_ & Heq & -> & ->)].
  - split; [lia|]. rewrite He. lia.
  - rewrite Heq in *.
    destruct (SetBytes_masked ip Hwf16 Hlen16) as [Hbase Hhi].
    pose proof (SetBytes_bound ip Hwf16) as Hb. rewrite Hlen16 in Hb.
    change (256 ^ Z.of_nat 16) with (2 ^ 128) in Hb.
    pose proof (Z.mul_div_le (SetBytes ip) (2 ^ 80) ltac:(lia)) as Hle.
    pose proof (Z.mod_pos_bound (SetBytes ip) (2 ^ 80) ltac:(lia)) as Hmod.
    pose proof (Z.div_mod (SetBytes ip) (2 ^ 80) ltac:(lia)) as Hdm.
    assert (wellFormed (take 6 ip ++ replicate 10 0)) as Hwfb.
    { apply Forall_app. split; [by apply Forall_take|].
      apply Forall_replicate. unfold isByte. lia. }
    destruct (incrementIP_saturates _ 48 Hwfb ltac:(lia)) as [_ Hv].
    change (128 - 48) with 80 in Hv. rewrite Hv, Hbase. split; [lia|]. lia.
Qed.

Lemma ipRange_contains_witness :
  wellFormed (replicate 16 255) /\ length (replicate 16 255 : IP) = 16%nat
  /\ SetBytes (ipRange (replicate 16 255)).1 <= SetBytes (To16 (replicate 16 255))
  /\ ~ SetBytes (To16 (replicate 16 255)) < SetBytes (ipRange (replicate 16 255)).2.
Proof.
  assert (wellFormed (replicate 16 255)) as Hwf
    by (apply Forall_replicate; unfold isByte; lia).
  split; [exact Hwf|]. split; [reflexivity|].
  pose proof (ipRange_contains (replicate 16 255) Hwf (or_intror eq_refl)) as H.
  destruct (ipRange (replicate 16 255)) as [begin end_]. destruct H as [Hb He].
  split; [exact Hb|]. cbn [snd]. intros Hlt. apply He in Hlt. apply Hlt. reflexivity.
Defined.

(** X3.  Two IPv6 addresses get the same range exactly when they agree on their
    leading 48 bits. *)
Theorem ipRange_same_subnet (ip1 ip2 : IP) :
  wellFormed ip1 -> wellFormed ip2 ->
  length ip1 = 16%nat -> length ip2 = 16%nat ->
  isIPv4 ip1 = false -> isIPv4 ip2 = false ->
  ipRange ip1 = ipRange ip2 <-> take 6 ip1 = take 6 ip2.
Proof.
  intros Hwf1 Hwf2 Hl1 Hl2 H1 H2.
  destruct (ipRange_bounds ip1 Hwf1 (or_intror Hl1)) as (_ & _ & [(Hv & _)|(_ & _ & Hb1 & He1)]);
    [congruence|].
  destruct (ipRange_bounds ip2 Hwf2 (or_intror Hl2)) as (_ & _ & [(Hv & _)|(_ & _ & Hb2 & He2)]);
    [congruence|].
  destruct (ipRange ip1) as [b1 e1], (ipRange ip2) as [b2 e2]. cbn [fst snd] in *. subst.
  split.
  - intros [= Hb _]. apply app_inj_2 in Hb as [Hb _]; done.
  - intros ->. done.
Qed.

Lemma ipRange_same_subnet_witness :
  let ip1 : IP := [32; 1; 13; 184; 0; 1; 2; 3; 4; 5; 6; 7; 8; 9; 10; 11] in
  let ip2 : IP := [32; 1; 13; 184; 0; 1; 0; 0; 0; 0; 0; 0; 0; 0; 0; 1] in
  wellFormed ip1 /\ wellFormed ip2 /\ take 6 ip1 = take 6 ip2 /\ ipRange ip1 = ipRange ip2.
Proof.
  intros ip1 ip2.
  assert (wellFormed ip1) as Hwf1 by (unfold wellFormed, isByte; repeat constructor; lia).
  assert (wellFormed ip2) as Hwf2 by (unfold wellFormed, isByte; repeat constructor; lia).
  split; [exact Hwf1|]. split; [exact Hwf2|]. split; [reflexivity|].
  apply (ipRange_same_subnet ip1 ip2 Hwf1 Hwf2 eq_refl eq_refl eq_refl eq_refl). reflexivity.
Defined.

(** X4.  A slice that is neither 4 nor 16 bytes long is no address: [ipRange]
    returns nil as lower bound and, the nil slice counting as zero, the
    address 0:0:1:: (2^80) as upper bound. *)
Theorem ipRange_not_an_address (ip : IP) :
  length ip <> 4%nat -> length ip <> 16%nat ->
  ipRange ip = ([], replicate 5 0 ++ [1] ++ replicate 10 0).
Proof.
  intros H4 H16. unfold ipRange.
  assert (To16 ip = []) as ->.
  { unfold To16. apply Nat.eqb_neq in H4, H16. by rewrite H4, H16. }
  vm_compute. reflexivity.
Qed.

Lemma ipRange_not_an_address_witness :
  length [1; 2; 3] <> 4%nat /\ length [1; 2; 3] <> 16%nat
  /\ ipRange [1; 2; 3] = ([], replicate 5 0 ++ [1] ++ replicate 10 0).
Proof.
  assert (length [1; 2; 3] <> 4%nat) as H4 by discriminate.
  assert (length [1; 2; 3] <> 16%nat) as H16 by discriminate.
  split; [exact H4|]. split; [exact H16|]. exact (ipRange_not_an_address [1; 2; 3] H4 H16).
Defined.

(** ** Registrations by address *)

Lemma incrementIP_wellFormed (ip : IP) (index : Z) :
  wellFormed (incrementIP ip index) /\ length (incrementIP ip index) = 16%nat.
Proof.
  unfold incrementIP.
  set (resultBytes := Bytes _).
  destruct (Nat.ltb_spec 16 (length resultBytes)) as [Hlt|Hle].
  - split; [|reflexivity]. apply Forall_replicate. unfold isByte. lia.
  - split.
    + apply Forall_app. split; [apply Forall_replicate; unfold isByte; lia|].
      unfold resultBytes, Bytes. apply Forall_rev, bytesLE_wellFormed.
    + rewrite length_app, length_replicate. lia.
Qed.

(** On well-formed byte strings of one length the order of the database is
    the order of the integers they denote. *)
Lemma bytesCompare_SetBytes (a b : list Z) :
  length a = length b -> wellFormed a -> wellFormed b ->
  bytesCompare a b = (SetBytes a ?= SetBytes b).
Proof.
  revert b. induction a as [|x a IH]; intros [|y b] Hl Hwa Hwb; try discriminate Hl.
  - reflexivity.
  - cbn [bytesCompare]. inversion Hwa as [|? ? Hx Hwa']; inversion Hwb as [|? ? Hy Hwb']; subst.
    injection Hl as Hl. rewrite !SetBytes_cons, Hl.
    pose proof (SetBytes_bound a Hwa') as Ha. pose proof (SetBytes_bound b Hwb') as Hb.
    rewrite Hl in Ha. set (n := 256 ^ Z.of_nat (length b)) in *.
    unfold isByte in *.
    destruct (Z.compare_spec x y) as [->|Hlt|Hgt].
    + rewrite IH by done. symmetry. apply Z.add_compare_mono_l.
    + symmetry. apply Z.compare_lt_iff. nia.
    + symmetry. apply Z.compare_gt_iff. nia.
Qed.

Lemma bytesCompare_Eq (a b : list Z) : bytesCompare a b = Eq -> a = b.
Proof.
  revert b. induction a as [|x a IH]; intros [|y b]; cbn [bytesCompare]; try done.
  destruct (Z.compare_spec x y) as [->|?|?]; try done.
  intros H. f_equal. by apply IH.
Qed.

Lemma SetBytes_inj (a b : list Z) :
  length a = length b -> wellFormed a -> wellFormed b ->
  SetBytes a = SetBytes b -> a = b.
Proof.
  intros Hl Ha Hb Heq. apply bytesCompare_Eq.
  rewrite bytesCompare_SetBytes by done. by apply Z.compare_eq_iff.
Qed.

Lemma filter_ext_Forall {A} (P Q : A -> Prop) `{!forall x, Decision (P x)}
    `{!forall x, Decision (Q x)} (l : list A) :
  Forall (fun x => P x <-> Q x) l -> filter P l = filter Q l.
Proof.
  induction 1 as [|x l Hx _ IH]; [done|].
  rewrite !filter_cons, IH.
  destruct (decide (P x)), (decide (Q x)); tauto.
Qed.

(** The WHERE clause in terms of the integers. *)
Lemma registeredIn_values (beginIP endIP : list Z) earliest latest r :
  wellFormed beginIP -> length beginIP = 16%nat ->
  wellFormed endIP -> length endIP = 16%nat ->
  wellFormed (initialIP r) -> length (initialIP r) = 16%nat ->
  registeredIn beginIP endIP earliest latest r = true
  <-> (SetBytes beginIP <= SetBytes (initialIP r) < SetBytes endIP
       /\ earliest < createdAt r <= latest).
Proof.
  intros Hwb Hlb Hwe Hle Hwx Hlx. unfold registeredIn.
  rewrite !andb_true_iff, !negb_true_iff, !bool_decide_eq_false, bool_decide_eq_true.
  rewrite !bytesCompare_SetBytes by congruence.
  rewrite Z.ltb_lt, Z.leb_le, Z.compare_lt_iff, Z.compare_gt_iff.
  split.
  - intros (((((_ & _) & Hb) & He) & Ht1) & Ht2). lia.
  - intros ((Hb & He) & Ht1 & Ht2). repeat split; try done; try lia.
    + by intros ->.
    + by intros ->.
Qed.

(** X5.  For an IPv4 address [CountRegistrationsByIP] counts the registrations
    made from exactly that address in the half-open time window, whether the
    address is given in its 4-byte or in its 16-byte form. *)
Theorem CountRegistrationsByIP_exact_v4 (ssa : SQLStorageAuthority)
    (registrations : list registrationRow) (ip : IP) (earliest latest : Time) :
  wellFormed ip -> length ip = 4%nat \/ length ip = 16%nat -> isIPv4 ip = true ->
  Forall (fun r => wellFormed (initialIP r) /\ length (initialIP r) = 16%nat) registrations ->
  quiet (script ssa) ->
  (CountRegistrationsByIP ssa registrations ip earliest latest).1
  = (Z.of_nat (length (filter
       (fun r => initialIP r = To16 ip /\ earliest < createdAt r <= latest)
       registrations)), None).
Proof.
  intros Hwf Hlen Hv4 Hrows Hq.
  destruct (ipRange_bounds ip Hwf Hlen) as (Hwf16 & Hlen16 & Hcase).
  assert (wellFormed (ipRange ip).2 /\ length (ipRange ip).2 = 16%nat) as [Hwe Hle]
    by apply incrementIP_wellFormed.
  unfold CountRegistrationsByIP.
  destruct (ipRange ip) as [beginIP endIP]. cbn [fst snd] in *.
  destruct Hcase as [(_ & -> & He & Hfit)|(Hv6 & _)]; [|congruence].
  rewrite query_quiet by done. cbn [fst]. do 3 f_equal.
  apply filter_ext_Forall. eapply Forall_impl; [exact Hrows|].
  intros r [Hwx Hlx]. cbv beta.
  rewrite registeredIn_values by done. rewrite He. split.
  - intros [Hv Ht]. split; [|done]. apply SetBytes_inj; [congruence|done|done|lia].
  - intros [-> Ht]. split; [lia|done].
Qed.

(** X6.  For an IPv6 address [CountRegistrationsByIP] counts the registrations
    made in the time window from the addresses with the same leading 48
    bits, the highest address of all excepted: the upper bound of the range
    is exclusive and never goes beyond that address. *)
Theorem CountRegistrationsByIP_subnet_v6 (ssa : SQLStorageAuthority)
    (registrations : list registrationRow) (ip : IP) (earliest latest : Time) :
  wellFormed ip -> length ip = 16%nat -> isIPv4 ip = false ->
  Forall (fun r => wellFormed (initialIP r) /\ length (initialIP r) = 16%nat) registrations ->
  quiet (script ssa) ->
  (CountRegistrationsByIP ssa registrations ip earliest latest).1
  = (Z.of_nat (length (filter
       (fun r => take 6 (initialIP r) = take 6 ip /\ initialIP r <> maxIP
                 /\ earliest < createdAt r <= latest)
       registrations)), None).
Proof.
  intros Hwf Hlen Hv6 Hrows Hq.
  destruct (ipRange_bounds ip Hwf (or_intror Hlen)) as (_ & _ & Hcase).
  assert (wellFormed (ipRange ip).2 /\ length (ipRange ip).2 = 16%nat) as [Hwe Hle]
    by apply incrementIP_wellFormed.
  unfold CountRegistrationsByIP.
  destruct (ipRange ip) as [beginIP endIP]. cbn [fst snd] in *.
  destruct Hcase as [(Hv4 & _)|(_ & _ & -> & ->)]; [congruence|].
  set (beginIP := take 6 ip ++ replicate 10 0) in *.
  assert (wellFormed beginIP) as Hwb.
  { apply Forall_app. split; [by apply Forall_take|].
    apply Forall_replicate. unfold isByte. lia. }
  assert (length beginIP = 16%nat) as Hlb.
  { unfold beginIP. rewrite length_app, length_take, length_replicate. lia. }
  destruct (incrementIP_saturates beginIP 48 Hwb ltac:(lia)) as [_ Hend].
  change (128 - 48) with 80 in Hend.
  destruct (SetBytes_masked ip Hwf Hlen) as [Hbase Hhi]. fold beginIP in Hbase.
  assert (forall x, wellFormed x -> length x = 16%nat ->
            SetBytes (take 6 x) = SetBytes x / 2 ^ 80) as Htake.
  { intros x Hwx Hlx. destruct (SetBytes_masked x Hwx Hlx) as [Hm _].
    rewrite SetBytes_app, SetBytes_zeros, length_replicate in Hm.
    change (256 ^ Z.of_nat 10) with (2 ^ 80) in Hm. lia. }
  rewrite query_quiet by done. cbn [fst]. do 3 f_equal.
  apply filter_ext_Forall. eapply Forall_impl; [exact Hrows|].
  intros r [Hwx Hlx]. cbv beta.
  rewrite registeredIn_values by done. rewrite Hend, Hbase.
  pose proof (SetBytes_bound _ Hwx) as Hbx. rewrite Hlx in Hbx.
  change (256 ^ Z.of_nat 16) with (2 ^ 128) in Hbx.
  pose proof (Z.div_mod (SetBytes (initialIP r)) (2 ^ 80) ltac:(lia)) as Hdm.
  pose proof (Z.mod_pos_bound (SetBytes (initialIP r)) (2 ^ 80) ltac:(lia)) as Hmod.
  assert (initialIP r = maxIP <-> SetBytes (initialIP r) = 2 ^ 128 - 1) as Hmax.
  { split; [by intros ->|]. intros Hv. apply SetBytes_inj; try done.
    apply Forall_replicate. unfold isByte. lia. }
  assert (take 6 (initialIP r) = take 6 ip
          <-> SetBytes (initialIP r) / 2 ^ 80 = SetBytes ip / 2 ^ 80) as Hsub.
  { rewrite <- !Htake by done. split; [by intros ->|]. intros Hv.
    apply SetBytes_inj; [|by apply Forall_take|by apply Forall_take|done].
    rewrite !length_take. lia. }
  rewrite Hsub, Hmax.
  set (hx := SetBytes (initialIP r) / 2 ^ 80) in *.
  set (hi := SetBytes ip / 2 ^ 80) in *.
  set (X := SetBytes (initialIP r)) in *.
  set (lx := X mod 2 ^ 80) in *.
  change (2 ^ 48) with 281474976710656 in *.
  change (2 ^ 80) with 1208925819614629174706176 in *.
  change (2 ^ 128) with 340282366920938463463374607431768211456 in *.
  lia.
Qed.

(** ** Reading authorizations back *)

(** [GetAuthorization] when no storage call fails. *)
Lemma GetAuthorization_quiet (ssa : SQLStorageAuthority) (id : string) :
  quiet (script ssa) ->
  (GetAuthorization ssa id).1
  = match located (dbMap ssa) id with
    | Some (c, _) => (fromColumns id c, None)
    | None => (emptyAuthorization,
               Some (NotFoundError "No pendingAuthorization or authz with this ID"))
    end.
Proof.
  intros Hq. unfold GetAuthorization. rewrite Begin_quiet by done.
  rewrite getAuthz_quiet by (cbn; auto). cbn [tx_db].
  destruct (located (dbMap ssa) id) as [[c table]|]; [|done].
  match goal with |- context [Commit ?s ?t] =>
    pose proof (Commit_quiet s t ltac:(cbn; auto)) as [Hc _];
    destruct (Commit s t) as [err ssa'] end.
  cbn in Hc. by subst.
Qed.

Lemma GetAuthorization_dbMap (ssa : SQLStorageAuthority) (id : string) :
  dbMap (GetAuthorization ssa id).2 = dbMap ssa.
Proof.
  unfold GetAuthorization.
  destruct (Begin ssa) as [[e|tx] ssa1] eqn:HB.
  { by apply Begin_inl in HB. }
  apply Begin_inr in HB as (Hdb0 & Hdb1 & _).
  destruct (getAuthz id tx) as [[e|[a table]] tx1] eqn:Hget.
  { done. }
  apply getAuthz_inr in Hget as (Hdbt & _).
  destruct (Commit_cases ssa1 tx1) as [(e & _ & Hc)|[_ Hc]];
    destruct (Commit ssa1 tx1) as [err ssa2]; cbn in *; congruence.
Qed.

(** X7.  [GetAuthorization] returns the record stored under the id, whichever
    table holds it, with the columns as they are stored, and returns
    NotFound when neither table has the id.  It never changes the
    database, whatever the storage calls do. *)
Theorem GetAuthorization_reads (ssa : SQLStorageAuthority) (id : string) :
  quiet (script ssa) ->
  (forall c table, located (dbMap ssa) id = Some (c, table) ->
     (GetAuthorization ssa id).1.2 = None
     /\ ID (GetAuthorization ssa id).1.1 = id
     /\ columns (GetAuthorization ssa id).1.1 = c)
  /\ (located (dbMap ssa) id = None ->
      exists msg, (GetAuthorization ssa id).1.2 = Some (NotFoundError msg))
  /\ (forall ssa0 id0, dbMap (GetAuthorization ssa0 id0).2 = dbMap ssa0).
Proof.
  intros Hq. rewrite GetAuthorization_quiet by done. repeat split.
  - by rewrite H.
  - by rewrite H.
  - rewrite H. by destruct c.
  - intros ->. by eexists.
  - apply GetAuthorization_dbMap.
Qed.

Section AuthorizationLifecycle.

Variable pendingStatuses : list AcmeStatus.
Variable challengeToModel : Challenge -> string -> error + challModel.
Variable modelToChallenge : challModel -> error + Challenge.

(** X8.  A record created by [NewPendingAuthorization] is read back by
    [GetAuthorization] under the id returned: identifier, registration and
    expiry as supplied, the status pending. *)
Theorem NewPendingAuthorization_readable (fuel : nat) (ssa ssa' ssa2 : SQLStorageAuthority)
    (auth result : Authorization) :
  NewPendingAuthorization challengeToModel modelToChallenge fuel ssa auth
  = Some ((result, None), ssa') ->
  dbMap ssa2 = dbMap ssa' -> quiet (script ssa2) ->
  let fetched := (GetAuthorization ssa2 (ID result)).1 in
  fetched.2 = None
  /\ ID fetched.1 = ID result
  /\ columns fetched.1 = columns (withStatus auth StatusPending)
  /\ columns fetched.1 = columns result.
Proof.
  intros Hnew Hdb Hq fetched. subst fetched.
  apply NewPendingAuthorization_inv in Hnew as [_ Hok].
  destruct (Hok eq_refl) as (Hfresh & Hres & rows & _ & Hdb').
  apply recordExists_false in Hfresh as [Hp Ha].
  rewrite GetAuthorization_quiet by done.
  assert (located (dbMap ssa2) (ID result)
          = Some (columns (withStatus (withID auth (ID result)) StatusPending), authzTable))
    as ->.
  { rewrite Hdb, Hdb'. unfold located. cbn. rewrite Hp, lookup_insert_eq. done. }
  cbn [fst snd]. split; [done|]. split; [done|]. split; [done|].
  rewrite Hres. reflexivity.
Qed.

(** X9.  Once [FinalizeAuthorization] has succeeded for an id, the record is
    final: every later [FinalizeAuthorization] and
    [UpdatePendingAuthorization] for that id returns an error and leaves
    the database as it is. *)
Theorem FinalizeAuthorization_final (ssa ssa2 : SQLStorageAuthority)
    (auth auth2 : Authorization) :
  (FinalizeAuthorization pendingStatuses challengeToModel ssa auth).1 = None ->
  dbMap ssa2 = dbMap (FinalizeAuthorization pendingStatuses challengeToModel ssa auth).2 ->
  ID auth2 = ID auth ->
  ((FinalizeAuthorization pendingStatuses challengeToModel ssa2 auth2).1 <> None
   /\ dbMap (FinalizeAuthorization pendingStatuses challengeToModel ssa2 auth2).2 = dbMap ssa2)
  /\ ((UpdatePendingAuthorization pendingStatuses challengeToModel ssa2 auth2).1 <> None
      /\ dbMap (UpdatePendingAuthorization pendingStatuses challengeToModel ssa2 auth2).2
         = dbMap ssa2).
Proof.
  intros Hok Hdb Hid.
  destruct (transaction_inr (finalizeSteps pendingStatuses challengeToModel auth) ssa Hok)
    as (tx & [] & tx' & Hdb0 & Hsteps & Hdb').
  cbn zeta in Hdb'. fold (FinalizeAuthorization pendingStatuses challengeToModel ssa auth) in Hdb'.
  apply finalizeSteps_inr in Hsteps as (stored & table & Hloc & Hst & Hs & Ha' & Hcase).
  assert (located (dbMap ssa2) (ID auth2) = Some (columns auth, authzTable)) as Hloc2.
  { rewrite Hdb, Hdb', Hid. unfold located. rewrite Ha', lookup_insert_eq.
    apply located_cases in Hloc as [(-> & l & Hl)|(-> & Hp & Ha)].
    - destruct Hcase as [(_ & _ & ->)|[[=] _]]. by rewrite lookup_delete_eq.
    - destruct Hcase as [([=] & _)|[_ ->]]. by rewrite Hp. }
  assert ((FinalizeAuthorization pendingStatuses challengeToModel ssa2 auth2).1 <> None) as H1.
  { intros Hnone.
    destruct (transaction_inr (finalizeSteps pendingStatuses challengeToModel auth2) ssa2 Hnone)
      as (tx2 & [] & tx2' & Hdb2 & Hsteps2 & _).
    apply finalizeSteps_inr in Hsteps2 as (stored2 & table2 & Hl2 & Hst2 & _).
    rewrite Hdb2, Hloc2 in Hl2. injection Hl2 as <- <-. cbn in Hst2. congruence. }
  assert ((UpdatePendingAuthorization pendingStatuses challengeToModel ssa2 auth2).1 <> None)
    as H2.
  { intros Hnone.
    destruct (transaction_inr (updatePendingSteps pendingStatuses challengeToModel auth2)
                ssa2 Hnone) as (tx2 & [] & tx2' & Hdb2 & Hsteps2 & _).
    apply updatePendingSteps_inr in Hsteps2 as (_ & stored2 & Hl2 & Hst2 & _).
    rewrite Hdb2, Hloc2 in Hl2. injection Hl2 as <-. cbn in Hst2. congruence. }
  split; (split; [done|]).
  - by apply FinalizeAuthorization_atomic.
  - by apply UpdatePendingAuthorization_atomic.
Qed.

End AuthorizationLifecycle.

(** X10.  [DeactivateAuthorization] of a pending or valid record sets its status
    to deactivated in the table holding it and changes nothing else: not
    the other columns, not the other records, not the challenges.  A second
    call finds nothing to do and returns success without writing. *)
Theorem DeactivateAuthorization_deactivates (ssa : SQLStorageAuthority) (id : string)
    (c : authzColumns) (table : string) :
  quiet (script ssa) ->
  located (dbMap ssa) id = Some (c, table) ->
  col_Status c = StatusPending \/ col_Status c = StatusValid ->
  let r := DeactivateAuthorization ssa id in
  r.1 = None
  /\ located (dbMap r.2) id = Some (columnsWithStatus c StatusDeactivated, table)
  /\ (forall id', id' <> id -> located (dbMap r.2) id' = located (dbMap ssa) id')
  /\ challenges (dbMap r.2) = challenges (dbMap ssa)
  /\ (forall ssa2, dbMap ssa2 = dbMap r.2 -> quiet (script ssa2) ->
        (DeactivateAuthorization ssa2 id).1 = None
        /\ dbMap (DeactivateAuthorization ssa2 id).2 = dbMap ssa2).
Proof.
  intros Hq Hloc Hst r.
  assert (r.1 = None
          /\ ((table = pendingAuthorizationsTable
               /\ exists l, pendingAuthorizations (dbMap ssa) !! id = Some (c, l)
                    /\ dbMap r.2 = setPendingAuthorizations (dbMap ssa)
                         (<[id := (columnsWithStatus c StatusDeactivated, l)]>
                            (pendingAuthorizations (dbMap ssa))))
              \/ (table = authzTable
                  /\ pendingAuthorizations (dbMap ssa) !! id = None
                  /\ dbMap r.2 = setAuthz (dbMap ssa)
                       (<[id := columnsWithStatus c StatusDeactivated]> (authz (dbMap ssa))))))
    as [Herr Hcase].
  { subst r. unfold DeactivateAuthorization. rewrite Begin_quiet by done.
    rewrite getAuthz_quiet by (cbn; auto). cbn [tx_db tx_script]. rewrite Hloc.
    cbn [Status fromColumns].
    assert (negb (col_Status c =? StatusPending)%string
            && negb (col_Status c =? StatusValid)%string = false) as ->.
    { destruct Hst as [-> | ->]; done. }
    unfold ExecUpdateStatus. rewrite call_quiet by (cbn; auto). cbn [tx_db tx_script].
    assert (setRowStatus StatusDeactivated [StatusPending; StatusValid] c
            = Some (columnsWithStatus c StatusDeactivated)) as Hset.
    { unfold setRowStatus. rewrite bool_decide_eq_true_2; [done|].
      destruct Hst as [-> | ->]; set_solver. }
    apply located_cases in Hloc as [(-> & l & Hl)|(-> & Hp & Ha)].
    - change ((pendingAuthorizationsTable =? pendingAuthorizationsTable)%string) with true.
      cbv iota. rewrite Hl, Hset. cbn [fst snd].
      match goal with |- context [Commit ?s ?t] =>
        pose proof (Commit_quiet s t ltac:(cbn; auto)) as [Hc Hd] end.
      split; [done|]. left. split; [done|]. exists l. split; [done|]. by rewrite Hd.
    - change ((authzTable =? pendingAuthorizationsTable)%string) with false.
      change ((authzTable =? authzTable)%string) with true.
      cbv iota. rewrite Ha, Hset. cbn [fst snd].
      match goal with |- context [Commit ?s ?t] =>
        pose proof (Commit_quiet s t ltac:(cbn; auto)) as [Hc Hd] end.
      split; [done|]. right. split; [done|]. split; [done|]. by rewrite Hd. }
  split; [done|].
  assert (located (dbMap r.2) id = Some (columnsWithStatus c StatusDeactivated, table)) as Hnew.
  { destruct Hcase as [(-> & l & Hl & ->)|(-> & Hp & ->)]; unfold located; cbn.
    - by rewrite lookup_insert_eq.
    - by rewrite Hp, lookup_insert_eq. }
  split; [done|]. split; [|split].
  - intros id' Hne.
    destruct Hcase as [(-> & l & Hl & ->)|(-> & Hp & ->)]; unfold located; cbn;
      by rewrite lookup_insert_ne.
  - by destruct Hcase as [(-> & l & Hl & ->)|(-> & Hp & ->)].
  - intros ssa2 Hdb2 Hq2.
    apply (DeactivateAuthorization_final ssa2 id StatusDeactivated); try done.
    unfold statusOf. by rewrite Hdb2, Hnew.
Qed.

(** ** Valid authorizations by name *)

Section ValidAuthorizations.

Variable Quote : string -> string.

(** The loop over rows that all have the DNS type and an expiry: it never
    panics and never raises the identifier-type error, and the map it
    returns holds, for each name met, a row of the latest expiry. *)
Lemma latestByName_returns (auths : list Authorization) (acc : gmap string Authorization) :
  Forall (fun a => IdentType (Identifier a) = IdentifierDNS /\ is_Some (Expires a)) auths ->
  (forall n a, acc !! n = Some a -> is_Some (Expires a)) ->
  exists m, latestByName Quote auths acc = Returns (inr m)
    /\ (forall n a, m !! n = Some a ->
          (a ∈ auths /\ IdentValue (Identifier a) = n) \/ acc !! n = Some a)
    /\ (forall n a b eb ea, m !! n = Some a ->
          (b ∈ auths /\ IdentValue (Identifier b) = n) \/ acc !! n = Some b ->
          Expires b = Some eb -> Expires a = Some ea -> eb <= ea)
    /\ (forall b, b ∈ auths -> is_Some (m !! IdentValue (Identifier b)))
    /\ (forall n, is_Some (acc !! n) -> is_Some (m !! n)).
Proof.
  intros Hgood. revert acc.
  induction Hgood as [|auth auths [Hdns [e He]] _ IH]; intros acc Hinv.
  - exists acc. cbn. split; [done|]. split; [auto|]. split; [|split; [|done]].
    + intros n a b eb ea Ha [[Hb _]|Hb] Hb' Ha'; [by apply elem_of_nil in Hb|].
      assert (a = b) as -> by congruence. assert (eb = ea) by congruence. lia.
    + intros b Hb. by apply elem_of_nil in Hb.
  - cbn [latestByName]. rewrite He, Hdns. cbn [negb String.eqb].
    change ((IdentifierDNS =? IdentifierDNS)%string) with true. cbv iota. cbn [negb].
    set (name := IdentValue (Identifier auth)).
    assert (forall acc', acc' = <[name := auth]> acc ->
              (forall b eb, acc !! name = Some b -> Expires b = Some eb -> eb <= e) ->
              exists m, latestByName Quote auths acc' = Returns (inr m)
                /\ (forall n a, m !! n = Some a ->
                      (a ∈ auth :: auths /\ IdentValue (Identifier a) = n)
                      \/ acc !! n = Some a)
                /\ (forall n a b eb ea, m !! n = Some a ->
                      (b ∈ auth :: auths /\ IdentValue (Identifier b) = n)
                      \/ acc !! n = Some b ->
                      Expires b = Some eb -> Expires a = Some ea -> eb <= ea)
                /\ (forall b, b ∈ auth :: auths -> is_Some (m !! IdentValue (Identifier b)))
                /\ (forall n, is_Some (acc !! n) -> is_Some (m !! n))) as Hinsert.
    { intros acc' -> Hold.
      destruct (IH (<[name := auth]> acc)) as (m & Hrun & H2 & H3 & H4 & H5).
      { intros n a. destruct (decide (n = name)) as [->|Hne].
        - rewrite lookup_insert_eq. intros [= <-]. by exists e.
        - rewrite lookup_insert_ne by done. apply Hinv. }
      exists m. split; [done|]. split; [|split; [|split]].
      - intros n a Ha. destruct (H2 n a Ha) as [[Hin Hn]|Hacc].
        + left. split; [by apply elem_of_cons; right|done].
        + destruct (decide (n = name)) as [->|Hne].
          * rewrite lookup_insert_eq in Hacc. injection Hacc as <-.
            left. split; [by apply elem_of_cons; left|done].
          * rewrite lookup_insert_ne in Hacc by done. by right.
      - intros n a b eb ea Ha Hb Hb' Ha'.
        assert (forall ea', Expires a = Some ea' -> n = name -> e <= ea') as Hauth.
        { intros ea' Hea' ->. apply (H3 name a auth e ea' Ha); try done.
          right. by rewrite lookup_insert_eq. }
        destruct Hb as [[Hin Hn]|Hacc].
        + apply elem_of_cons in Hin as [->|Hin].
          * assert (eb = e) as -> by congruence. by apply Hauth.
          * apply (H3 n a b eb ea Ha); try done. by left.
        + destruct (decide (n = name)) as [->|Hne].
          * pose proof (Hold b eb Hacc Hb'). pose proof (Hauth ea Ha' eq_refl). lia.
          * apply (H3 n a b eb ea Ha); try done. right. by rewrite lookup_insert_ne.
      - intros b Hb. apply elem_of_cons in Hb as [->|Hb]; [|by apply H4].
        apply H5. fold name. rewrite lookup_insert_eq. by eexists.
      - intros n Hn. apply H5. apply lookup_insert_is_Some.
        destruct (decide (name = n)); [by left|by right]. }
    destruct (acc !! name) as [existing|] eqn:Hex.
    + destruct (Hinv _ _ Hex) as [ee Hee]. rewrite Hee.
      destruct (Z.ltb_spec ee e) as [Hlt|Hge].
      * apply Hinsert; [done|]. intros b eb [= <-] Hb. assert (eb = ee) by congruence. lia.
      * destruct (IH acc Hinv) as (m & Hrun & H2 & H3 & H4 & H5).
        exists m. split; [done|]. split; [|split; [|split; [|done]]].
        -- intros n a Ha. destruct (H2 n a Ha) as [[Hin Hn]|Hacc]; [left|by right].
           split; [by apply elem_of_cons; right|done].
        -- intros n a b eb ea Ha Hb Hb' Ha'.
           destruct Hb as [[Hin Hn]|Hacc].
           ++ apply elem_of_cons in Hin as [->|Hin].
              ** assert (eb = e) as -> by congruence.
                 assert (ee <= ea); [|lia].
                 apply (H3 n a existing ee ea Ha); try done. right. by rewrite <- Hn.
              ** apply (H3 n a b eb ea Ha); try done. by left.
           ++ apply (H3 n a b eb ea Ha); try done. by right.
        -- intros b Hb. apply elem_of_cons in Hb as [->|Hb]; [|by apply H4].
           apply H5. fold name. by rewrite Hex.
    + apply Hinsert; [done|]. intros b eb [=].
Qed.

Lemma elem_of_map {A B} (f : A -> B) (l : list A) (y : B) :
  y ∈ map f l <-> exists x, y = f x /\ x ∈ l.
Proof.
  rewrite list_elem_of_In, in_map_iff.
  split; intros (x & H1 & H2); exists x; split; try done; by apply list_elem_of_In.
Qed.

(** The rows the query of [GetValidAuthorizations] returns. *)
Lemma elem_of_selectValid regID now names db a :
  a ∈ selectValid regID now names db
  <-> exists id c, authz db !! id = Some c /\ validFor regID now names c = true
                   /\ a = fromColumns id c.
Proof.
  unfold selectValid. rewrite elem_of_map. split.
  - intros ([id c] & -> & Hin). apply list_elem_of_filter in Hin as [Hv Hin].
    apply elem_of_map_to_list in Hin. by exists id, c.
  - intros (id & c & Hl & Hv & ->). exists (id, c). split; [done|].
    apply list_elem_of_filter. split; [done|]. by apply elem_of_map_to_list.
Qed.

Lemma validFor_inv regID now names c :
  validFor regID now names c = true ->
  col_RegistrationID c = regID
  /\ (exists e, col_Expires c = Some e /\ now < e)
  /\ (exists n, n ∈ names /\ col_Identifier c = mkIdentifier IdentifierDNS n)
  /\ col_Status c = "valid"%string.
Proof.
  unfold validFor. rewrite !andb_true_iff, bool_decide_eq_true, Z.eqb_eq, String.eqb_eq.
  intros [[[Hr He] Hi] Hs]. split; [done|]. split; [|split; [|done]].
  - destruct (col_Expires c) as [e|]; [|done]. exists e. split; [done|]. by apply Z.ltb_lt.
  - apply elem_of_map in Hi as (n & -> & Hn). by exists n.
Qed.

(** [GetValidAuthorizations] when the query goes through. *)
Lemma GetValidAuthorizations_run (ssa : SQLStorageAuthority) (regID : Z)
    (names : list string) (now : Time) :
  names <> [] -> quiet (script ssa) ->
  let auths := selectValid regID now names (dbMap ssa) in
  exists m, GetValidAuthorizations Quote ssa regID names now
            = Returns ((m, None), withScript ssa (tl (script ssa)))
    /\ (forall n a, m !! n = Some a -> a ∈ auths /\ IdentValue (Identifier a) = n)
    /\ (forall n a b eb ea, m !! n = Some a ->
          b ∈ auths -> IdentValue (Identifier b) = n ->
          Expires b = Some eb -> Expires a = Some ea -> eb <= ea)
    /\ (forall b, b ∈ auths -> is_Some (m !! IdentValue (Identifier b))).
Proof.
  intros Hnames Hq auths.
  destruct (latestByName_returns auths ∅) as (m & Hrun & H2 & H3 & H4 & _).
  { apply Forall_forall. intros a Ha. apply elem_of_selectValid in Ha as (id & c & _ & Hv & ->).
    apply validFor_inv in Hv as (_ & (e & He & _) & (n & _ & Hi) & _).
    cbn. rewrite Hi, He. split; [done|by eexists]. }
  { intros n a Ha. by rewrite lookup_empty in Ha. }
  exists m. split; [|split; [|split; [|done]]].
  - unfold GetValidAuthorizations. destruct names as [|n names]; [done|].
    cbn [length Nat.eqb]. rewrite query_quiet by done. fold auths. by rewrite Hrun.
  - intros n a Ha. destruct (H2 n a Ha) as [?|Hacc]; [done|]. by rewrite lookup_empty in Hacc.
  - intros n a b eb ea Ha Hb Hn. apply (H3 n a b eb ea Ha). by left.
Qed.

(** X11.  With at least one name and no failing query, [GetValidAuthorizations]
    returns normally and without error: it does not panic and does not raise
    the identifier-type error.  Every entry of the map returned is, under
    its name, a row of the authz table that is valid, unexpired at [now],
    of the registration and for a requested name, and no such row for that
    name expires later; and every such row has its name in the map.  The
    legacy table is not consulted, and the database is left as it is. *)
Theorem GetValidAuthorizations_latest (ssa : SQLStorageAuthority) (regID : Z)
    (names : list string) (now : Time) :
  names <> [] -> quiet (script ssa) ->
  exists byName ssa',
    GetValidAuthorizations Quote ssa regID names now = Returns ((byName, None), ssa')
    /\ dbMap ssa' = dbMap ssa
    /\ (forall n a, byName !! n = Some a ->
          n ∈ names
          /\ exists c e,
               authz (dbMap ssa) !! ID a = Some c /\ a = fromColumns (ID a) c
               /\ validFor regID now names c = true
               /\ col_Identifier c = mkIdentifier IdentifierDNS n
               /\ col_Expires c = Some e
               /\ forall id' c' e',
                    authz (dbMap ssa) !! id' = Some c' ->
                    validFor regID now names c' = true ->
                    col_Identifier c' = mkIdentifier IdentifierDNS n ->
                    col_Expires c' = Some e' -> e' <= e)
    /\ (forall id c, authz (dbMap ssa) !! id = Some c ->
          validFor regID now names c = true ->
          is_Some (byName !! IdentValue (col_Identifier c))).
Proof.
  intros Hnames Hq.
  destruct (GetValidAuthorizations_run ssa regID names now Hnames Hq)
    as (m & Hrun & H2 & H3 & H4).
  exists m, (withScript ssa (tl (script ssa))). split; [done|]. split; [done|]. split.
  - intros n a Ha. destruct (H2 n a Ha) as [Hin Hn].
    apply elem_of_selectValid in Hin as (id & c & Hl & Hv & ->).
    pose proof (validFor_inv _ _ _ _ Hv) as (_ & (e & He & _) & (n' & Hn' & Hi) & _).
    cbn in Hn. rewrite Hi in Hn. cbn in Hn. subst n'.
    split; [done|]. exists c, e. cbn [ID fromColumns]. repeat split; try done.
    intros id' c' e' Hl' Hv' Hi' He'.
    apply (H3 n (fromColumns id c) (fromColumns id' c') e' e Ha); try done.
    + apply elem_of_selectValid. by exists id', c'.
    + cbn. by rewrite Hi'.
  - intros id c Hl Hv.
    apply (H4 (fromColumns id c)). apply elem_of_selectValid. by exists id, c.
Qed.

End ValidAuthorizations.

Section FinalizedAuthorizations.

Variable pendingStatuses : list AcmeStatus.
Variable challengeToModel : Challenge -> string -> error + challModel.
Variable Quote : string -> string.

(** X12.  An authorization finalized as valid for a DNS name is found by
    [GetValidAuthorizations] for its registration as long as it has not
    expired: the map returned has, under that name, a valid authorization of
    the registration that expires no earlier. *)
Theorem FinalizeAuthorization_then_valid (ssa ssa2 : SQLStorageAuthority)
    (auth : Authorization) (n : string) (e now : Time) (names : list string) :
  (FinalizeAuthorization pendingStatuses challengeToModel ssa auth).1 = None ->
  Status auth = "valid"%string ->
  Identifier auth = mkIdentifier IdentifierDNS n ->
  Expires auth = Some e -> now < e -> n ∈ names ->
  dbMap ssa2 = dbMap (FinalizeAuthorization pendingStatuses challengeToModel ssa auth).2 ->
  quiet (script ssa2) ->
  exists byName ssa' a e',
    GetValidAuthorizations Quote ssa2 (RegistrationID auth) names now
    = Returns ((byName, None), ssa')
    /\ byName !! n = Some a
    /\ Expires a = Some e' /\ e <= e'
    /\ RegistrationID a = RegistrationID auth
    /\ Status a = "valid"%string
    /\ Identifier a = Identifier auth.
Proof.
  intros Hok Hst Hid Hexp Hnow Hn Hdb Hq.
  destruct (transaction_inr (finalizeSteps pendingStatuses challengeToModel auth) ssa Hok)
    as (tx & [] & tx' & Hdb0 & Hsteps & Hdb').
  cbn zeta in Hdb'. fold (FinalizeAuthorization pendingStatuses challengeToModel ssa auth) in Hdb'.
  apply finalizeSteps_inr in Hsteps as (_ & _ & _ & _ & _ & Ha' & _).
  assert (authz (dbMap ssa2) !! ID auth = Some (columns auth)) as Hrow.
  { by rewrite Hdb, Hdb', Ha', lookup_insert_eq. }
  assert (validFor (RegistrationID auth) now names (columns auth) = true) as Hvalid.
  { unfold validFor. cbn [columns col_RegistrationID col_Expires col_Identifier col_Status].
    rewrite Z.eqb_refl, Hexp, Hst, Hid. cbn [andb].
    rewrite (proj2 (Z.ltb_lt now e)) by done.
    rewrite bool_decide_eq_true_2; [done|]. apply elem_of_map. by exists n. }
  assert (names <> []) as Hne by (intros ->; by apply elem_of_nil in Hn).
  destruct (GetValidAuthorizations_run Quote ssa2 (RegistrationID auth) names now Hne Hq)
    as (m & Hrun & H2 & H3 & H4).
  assert (fromColumns (ID auth) (columns auth)
          ∈ selectValid (RegistrationID auth) now names (dbMap ssa2)) as Hin.
  { apply elem_of_selectValid. by exists (ID auth), (columns auth). }
  destruct (H4 _ Hin) as [a Ha]. cbn in Ha. rewrite Hid in Ha. cbn in Ha.
  destruct (H2 n a Ha) as [Hina Hna].
  apply elem_of_selectValid in Hina as (id' & c' & _ & Hv' & ->).
  apply validFor_inv in Hv' as (Hr' & (e' & He' & _) & (n' & _ & Hi') & Hs').
  cbn in Hna. rewrite Hi' in Hna. cbn in Hna. subst n'.
  exists m, (withScript ssa2 (tl (script ssa2))), (fromColumns id' c'), e'.
  split; [done|]. split; [done|]. cbn [Expires RegistrationID Status Identifier fromColumns].
  split; [done|]. split; [|by rewrite Hid].
  apply (H3 n (fromColumns id' c') (fromColumns (ID auth) (columns auth)) e e' Ha Hin);
    cbn; [by rewrite Hid|done|done].
Qed.

End FinalizedAuthorizations.

(** ** The issuance ledger read back *)

Section LedgerReads.

Variable ParseCertificate : list Z -> error + x509Certificate.
Variable Fingerprint256 : list Z -> string.
Variable SerialToString : Z -> string.
Variable ReverseName : string -> string.
Variable Sum256 : string -> list Z.
Variable ValidSerial : string -> bool.

(** What a successful [AddCertificate] has done. *)
Lemma AddCertificate_inr (ssa : SQLStorageAuthority) (certDER : list Z) (regID : Z)
    (cert : x509Certificate) :
  ParseCertificate certDER = inr cert ->
  let r := AddCertificate ParseCertificate Fingerprint256 SerialToString ReverseName Sum256
             ssa certDER regID in
  r.1.2 = None ->
  r.1.1 = Fingerprint256 certDER
  /\ certificates (dbMap ssa) !! SerialToString (SerialNumber cert) = None
  /\ dbMap r.2
     = recorded Fingerprint256 SerialToString ReverseName Sum256 ssa certDER regID cert.
Proof.
  intros Hparse r. subst r. unfold AddCertificate. rewrite Hparse.
  fold (recordSteps Fingerprint256 SerialToString ReverseName Sum256 ssa certDER regID cert).
  destruct (Begin ssa) as [[e|tx] ssa1] eqn:HB; [done|].
  apply Begin_inr in HB as (Hdb0 & Hdb1 & _).
  destruct (recordSteps Fingerprint256 SerialToString ReverseName Sum256 ssa certDER regID
              cert tx) as [[e|[]] tx'] eqn:Hsteps; [done|].
  destruct (Commit_cases ssa1 tx') as [(e & He & Hc)|[Hn Hc]];
    destruct (Commit ssa1 tx') as [err ssa2]; cbn in *; [congruence|].
  intros _. split; [done|]. split.
  - unfold recordSteps in Hsteps. apply bind_inr in Hsteps as (n & tx1 & H1 & _).
    unfold Insert in H1. apply call_inr in H1. cbn in H1. unfold insertKeyed in H1.
    rewrite <- Hdb0.
    by destruct (certificates (tx_db tx) !! SerialToString (SerialNumber cert)).
  - rewrite Hc. by eapply recordSteps_inr.
Qed.

Lemma GetCertificate_quiet (ssa : SQLStorageAuthority) (serial : string) :
  quiet (script ssa) -> ValidSerial serial = true ->
  (GetCertificate ValidSerial ssa serial).1
  = match certificates (dbMap ssa) !! serial with
    | Some cert => (cert, None)
    | None => (emptyCertificate, Some (NotFoundError ("No certificate found for " +:+ serial)))
    end.
Proof.
  intros Hq Hv. unfold GetCertificate. rewrite Hv. cbn [negb].
  rewrite query_quiet by done. by destruct (certificates (dbMap ssa) !! serial).
Qed.

(** X13.  A certificate recorded by [AddCertificate] is read back under its
    serial: [GetCertificate] returns the bytes and the fingerprint handed
    back at issuance, for the registration given, issued at the clock time
    of the call and expiring with the certificate; [GetCertificateStatus]
    returns the status good with no revocation date and reason. *)
Theorem AddCertificate_readable (ssa ssa2 : SQLStorageAuthority) (certDER : list Z)
    (regID : Z) (cert : x509Certificate) :
  ParseCertificate certDER = inr cert ->
  let r := AddCertificate ParseCertificate Fingerprint256 SerialToString ReverseName Sum256
             ssa certDER regID in
  let serial := SerialToString (SerialNumber cert) in
  r.1.2 = None ->
  dbMap ssa2 = dbMap r.2 -> quiet (script ssa2) -> ValidSerial serial = true ->
  (GetCertificate ValidSerial ssa2 serial).1
  = (mkCertificate regID serial r.1.1 certDER (clk ssa) (NotAfter cert), None)
  /\ exists st ssa',
       GetCertificateStatus ValidSerial ssa2 serial = Returns ((st, None), ssa')
       /\ OCSPStatus st = "good"%string /\ status_Serial st = serial
       /\ RevokedDate st = zeroTime /\ RevokedReason st = 0
       /\ SubscriberApproved st = false.
Proof.
  intros Hparse r serial Hok Hdb Hq Hv.
  destruct (AddCertificate_inr ssa certDER regID cert Hparse Hok) as (Hd & _ & Hrec).
  fold r in Hd, Hrec. split.
  - rewrite GetCertificate_quiet by done. rewrite Hdb, Hrec, Hd. cbn.
    by rewrite lookup_insert_eq.
  - unfold GetCertificateStatus. rewrite Hv. cbn [negb]. rewrite query_quiet by done.
    rewrite Hdb, Hrec. cbn. rewrite lookup_insert_eq. by eexists _, _.
Qed.

(** The range count over the certificates. *)
Lemma CountCertificatesRange_quiet (ssa : SQLStorageAuthority) (start end_ : Time) :
  quiet (script ssa) ->
  (CountCertificatesRange ssa start end_).1
  = (Z.of_nat (length (filter
       (fun kv : string * Certificate =>
          (start <=? cert_Issued kv.2) && (cert_Issued kv.2 <? end_) = true)
       (map_to_list (certificates (dbMap ssa))))), None).
Proof. intros Hq. unfold CountCertificatesRange. by rewrite query_quiet. Qed.

(** X14.  [CountCertificatesRange] counts over half-open windows: the counts of
    two adjacent windows add up to the count of the window they form. *)
Theorem CountCertificatesRange_additive (ssa1 ssa2 ssa3 : SQLStorageAuthority)
    (a b c : Time) :
  a <= b <= c ->
  dbMap ssa2 = dbMap ssa1 -> dbMap ssa3 = dbMap ssa1 ->
  quiet (script ssa1) -> quiet (script ssa2) -> quiet (script ssa3) ->
  (CountCertificatesRange ssa1 a c).1
  = ((CountCertificatesRange ssa2 a b).1.1 + (CountCertificatesRange ssa3 b c).1.1, None).
Proof.
  intros Habc Hdb2 Hdb3 Hq1 Hq2 Hq3.
  rewrite !CountCertificatesRange_quiet by done. rewrite Hdb2, Hdb3. cbn [fst]. f_equal.
  rewrite <- Nat2Z.inj_add. f_equal.
  induction (map_to_list (certificates (dbMap ssa1))) as [|[k v] l IH]; [done|].
  rewrite !filter_cons. cbn [snd].
  repeat case_decide;
    repeat match goal with
           | H : _ && _ = true |- _ => apply andb_true_iff in H as [?%Z.leb_le ?%Z.ltb_lt]
           | H : ~ (_ && _ = true) |- _ =>
               rewrite andb_true_iff, Z.leb_le, Z.ltb_lt in H
           end;
    cbn [length]; lia.
Qed.

(** X15.  A certificate recorded by [AddCertificate] is counted by
    [CountCertificatesRange] in exactly the windows that contain the clock
    time of the call. *)
Theorem AddCertificate_counted (ssa ssa1 ssa2 : SQLStorageAuthority) (certDER : list Z)
    (regID : Z) (cert : x509Certificate) (start end_ : Time) :
  ParseCertificate certDER = inr cert ->
  let r := AddCertificate ParseCertificate Fingerprint256 SerialToString ReverseName Sum256
             ssa certDER regID in
  r.1.2 = None ->
  dbMap ssa1 = dbMap ssa -> dbMap ssa2 = dbMap r.2 ->
  quiet (script ssa1) -> quiet (script ssa2) ->
  (CountCertificatesRange ssa2 start end_).1
  = ((CountCertificatesRange ssa1 start end_).1.1
     + (if (start <=? clk ssa) && (clk ssa <? end_) then 1 else 0), None).
Proof.
  intros Hparse r Hok Hdb1 Hdb2 Hq1 Hq2.
  destruct (AddCertificate_inr ssa certDER regID cert Hparse Hok) as (_ & Hfresh & Hrec).
  fold r in Hrec.
  rewrite !CountCertificatesRange_quiet by done. rewrite Hdb1, Hdb2, Hrec. cbn [fst]. f_equal.
  cbn [recorded certificates setFqdnSets setIssuedNames setCertificateStatus setCertificates].
  rewrite map_to_list_insert by done. rewrite filter_cons. cbn [snd cert_Issued].
  destruct ((start <=? clk ssa) && (clk ssa <? end_)); case_decide; try done;
    cbn [length]; lia.
Qed.

(** The counts of the name sets. *)
Lemma CountFQDNSets_quiet (ssa : SQLStorageAuthority) (window : Z) (names : list string) :
  quiet (script ssa) ->
  (CountFQDNSets Sum256 ssa window names).1
  = (countSets (hashNames Sum256 names) (clk ssa + - window) (dbMap ssa), None).
Proof. intros Hq. unfold CountFQDNSets. by rewrite query_quiet. Qed.

Lemma FQDNSetExists_quiet (ssa : SQLStorageAuthority) (names : list string) :
  quiet (script ssa) ->
  (FQDNSetExists Sum256 ssa names).1
  = (0 <? countSetsEver (hashNames Sum256 names) (dbMap ssa), None).
Proof. intros Hq. unfold FQDNSetExists. by rewrite query_quiet. Qed.

Lemma hashNames_nameSet (L1 L2 : list string) :
  nameSet L1 = nameSet L2 -> hashNames Sum256 L1 = hashNames Sum256 L2.
Proof.
  intros H. unfold hashNames. by rewrite (UniqueLowerNames_canonical L1 L2).
Qed.

(** X16.  Once [AddCertificate] has recorded a certificate, [FQDNSetExists]
    answers true for every list that names the set of its subject names,
    in whatever order, letter case and multiplicity. *)
Theorem AddCertificate_then_FQDNSetExists (ssa ssa2 : SQLStorageAuthority)
    (certDER : list Z) (regID : Z) (cert : x509Certificate) (names : list string) :
  ParseCertificate certDER = inr cert ->
  (AddCertificate ParseCertificate Fingerprint256 SerialToString ReverseName Sum256
     ssa certDER regID).1.2 = None ->
  nameSet names = nameSet (DNSNames cert) ->
  dbMap ssa2
  = dbMap (AddCertificate ParseCertificate Fingerprint256 SerialToString ReverseName Sum256
             ssa certDER regID).2 ->
  quiet (script ssa2) ->
  (FQDNSetExists Sum256 ssa2 names).1 = (true, None).
Proof.
  intros Hparse Hok Hnames Hdb Hq.
  destruct (AddCertificate_inr ssa certDER regID cert Hparse Hok) as (_ & _ & Hrec).
  rewrite FQDNSetExists_quiet by done. rewrite Hdb, Hrec. f_equal.
  unfold countSetsEver. cbn [recorded fqdnSets setFqdnSets].
  rewrite filter_app, length_app, filter_cons. cbn [SetHash].
  rewrite (hashNames_nameSet names (DNSNames cert)) by done.
  rewrite decide_True by done. rewrite filter_nil. cbn [length]. apply Z.ltb_lt. lia.
Qed.

(** X17.  [CountFQDNSets] dates a name set by the start of validity of its
    certificate, not by the time it was recorded: a certificate added for
    the set raises the count by one exactly when its NotBefore lies after
    the start of the window. *)
Theorem AddCertificate_then_CountFQDNSets (ssa ssa1 ssa2 : SQLStorageAuthority)
    (certDER : list Z) (regID : Z) (cert : x509Certificate) (names : list string)
    (window : Z) :
  ParseCertificate certDER = inr cert ->
  (AddCertificate ParseCertificate Fingerprint256 SerialToString ReverseName Sum256
     ssa certDER regID).1.2 = None ->
  nameSet names = nameSet (DNSNames cert) ->
  dbMap ssa1 = dbMap ssa ->
  dbMap ssa2
  = dbMap (AddCertificate ParseCertificate Fingerprint256 SerialToString ReverseName Sum256
             ssa certDER regID).2 ->
  clk ssa1 = clk ssa2 ->
  quiet (script ssa1) -> quiet (script ssa2) ->
  (CountFQDNSets Sum256 ssa2 window names).1
  = ((CountFQDNSets Sum256 ssa1 window names).1.1
     + (if clk ssa2 - window <? NotBefore cert then 1 else 0), None).
Proof.
  intros Hparse Hok Hnames Hdb1 Hdb2 Hclk Hq1 Hq2.
  destruct (AddCertificate_inr ssa certDER regID cert Hparse Hok) as (_ & _ & Hrec).
  rewrite !CountFQDNSets_quiet by done. rewrite Hdb1, Hdb2, Hrec, Hclk. cbn [fst]. f_equal.
  unfold countSets. cbn [recorded fqdnSets setFqdnSets].
  rewrite filter_app, length_app, filter_cons. cbn [SetHash set_Issued].
  rewrite (hashNames_nameSet names (DNSNames cert)) by done.
  replace (clk ssa2 + - window) with (clk ssa2 - window) by lia.
  destruct (Z.ltb_spec (clk ssa2 - window) (NotBefore cert)).
  - rewrite decide_True by done. rewrite filter_nil. cbn [length]. lia.
  - rewrite decide_False by lia. rewrite filter_nil. cbn [length]. lia.
Qed.

End LedgerReads.

(** ** Revocation *)

Section Revocation.

Variable ValidSerial : string -> bool.

Lemma GetCertificateStatus_quiet (ssa : SQLStorageAuthority) (serial : string) :
  quiet (script ssa) -> ValidSerial serial = true ->
  GetCertificateStatus ValidSerial ssa serial
  = match certificateStatus (dbMap ssa) !! serial with
    | Some st => Returns ((st, None), withScript ssa (tl (script ssa)))
    | None => Panics "interface conversion: interface is nil, not *core.CertificateStatus"
    end.
Proof.
  intros Hq Hv. unfold GetCertificateStatus. rewrite Hv. cbn [negb].
  by rewrite query_quiet by done.
Qed.

Lemma GetCertificate_found (ssa : SQLStorageAuthority) (serial : string) c :
  quiet (script ssa) -> ValidSerial serial = true ->
  certificates (dbMap ssa) !! serial = Some c ->
  GetCertificate ValidSerial ssa serial = ((c, None), withScript ssa (tl (script ssa))).
Proof.
  intros Hq Hv Hc. unfold GetCertificate. rewrite Hv. cbn [negb].
  rewrite query_quiet by done. by rewrite Hc.
Qed.

(** X18.  [MarkCertificateRevoked] of a certificate on record marks its status
    row as revoked, with the clock time as revocation date and the reason
    given, and changes nothing else: the other columns of that row, the
    other rows and the other tables stay as they are. *)
Theorem MarkCertificateRevoked_revokes (ssa : SQLStorageAuthority) (serial : string)
    (reasonCode : Z) (c : Certificate) (st : CertificateStatus) :
  quiet (script ssa) -> ValidSerial serial = true ->
  certificates (dbMap ssa) !! serial = Some c ->
  certificateStatus (dbMap ssa) !! serial = Some st ->
  status_Serial st = serial ->
  exists ssa' st',
    MarkCertificateRevoked ValidSerial ssa serial reasonCode = Returns (None, ssa')
    /\ dbMap ssa'
       = setCertificateStatus (dbMap ssa) (<[serial := st']> (certificateStatus (dbMap ssa)))
    /\ OCSPStatus st' = OCSPStatusRevoked
    /\ RevokedDate st' = clk ssa /\ RevokedReason st' = reasonCode
    /\ status_Serial st' = serial
    /\ SubscriberApproved st' = SubscriberApproved st
    /\ OCSPLastUpdated st' = OCSPLastUpdated st
    /\ OCSPResponse st' = OCSPResponse st.
Proof.
  intros Hq Hv Hc Hst Hserial.
  unfold MarkCertificateRevoked.
  rewrite (GetCertificate_found ssa serial c) by done.
  rewrite GetCertificateStatus_quiet by (cbn; auto). cbn [dbMap withScript script].
  rewrite Hst. rewrite Begin_quiet by (cbn; auto). cbn [dbMap withScript script clk].
  unfold markRevokedSteps, bind. rewrite call_quiet by (cbn; auto).
  cbn [fst snd tx_db tx_script]. rewrite Hst.
  unfold Update. rewrite call_quiet by (cbn; auto). cbn [fst snd tx_db tx_script].
  unfold updateKeyed. cbn [status_Serial revokedStatus]. rewrite Hserial, Hst.
  cbn [fst snd]. change (1 =? 0) with false. cbv iota. unfold ret.
  match goal with |- context [Commit ?s ?t] =>
    pose proof (Commit_quiet s t ltac:(cbn; auto 10)) as [Hn Hd];
    destruct (Commit s t) as [err ssa'] end.
  cbn in Hn, Hd. subst err.
  exists ssa', (revokedStatus st (clk ssa) reasonCode).
  split; [done|]. split; [by rewrite Hd|]. cbn. by rewrite Hserial.
Qed.

(** X19.  Whatever the storage calls do, [MarkCertificateRevoked] of a serial
    without certificate row returns the error that says the certificate was
    not found and writes nothing; and no call that returns an error has
    changed the database. *)
Theorem MarkCertificateRevoked_unknown (ssa : SQLStorageAuthority) (serial : string)
    (reasonCode : Z) :
  certificates (dbMap ssa) !! serial = None ->
  (exists ssa',
     MarkCertificateRevoked ValidSerial ssa serial reasonCode
     = Returns (Some (errorString ("Unable to mark certificate " +:+ serial
                                   +:+ " revoked: cert not found.")), ssa')
     /\ dbMap ssa' = dbMap ssa)
  /\ (forall ssa0 serial0 reason0 e ssa1,
        MarkCertificateRevoked ValidSerial ssa0 serial0 reason0 = Returns (Some e, ssa1) ->
        dbMap ssa1 = dbMap ssa0).
Proof.
  intros Hc. split.
  - unfold MarkCertificateRevoked, GetCertificate.
    destruct (ValidSerial serial); cbn [negb]; [|by eexists].
    unfold query. rewrite Hc. destruct (script ssa) as [|[e|] rest]; by eexists.
  - clear. intros ssa serial reason e ssa1.
    unfold MarkCertificateRevoked, GetCertificate, GetCertificateStatus.
    assert (forall A (q : DbState -> A), dbMap (query ssa q).2 = dbMap ssa) as Hquery.
    { intros A q. unfold query. by destruct (script ssa) as [|[?|] ?]. }
    destruct (ValidSerial serial); cbn [negb]; [|by intros [= _ <-]].
    pose proof (Hquery _ (fun db => certificates db !! serial)) as H1.
    destruct (query ssa (fun db => certificates db !! serial)) as [[e1|[c1|]] ssa2];
      cbn in H1; try by intros [= _ <-].
    assert (forall A (q : DbState -> A), dbMap (query ssa2 q).2 = dbMap ssa2) as Hquery2.
    { intros A q. unfold query. by destruct (script ssa2) as [|[?|] ?]. }
    pose proof (Hquery2 _ (fun db => certificateStatus db !! serial)) as H2.
    destruct (query ssa2 (fun db => certificateStatus db !! serial)) as [[e2|[s2|]] ssa3];
      cbn in H2; try done; try (intros [= _ <-]; congruence).
    pose proof (fun now => transaction_atomic (markRevokedSteps serial now reason) ssa3)
      as Hat.
    cbn zeta in Hat.
    destruct (Begin ssa3) as [[e3|tx] ssa4].
    { specialize (Hat 0). cbn [fst snd] in Hat. intros [= _ <-].
      rewrite Hat by done. congruence. }
    specialize (Hat (clk ssa4)).
    destruct (markRevokedSteps serial (clk ssa4) reason tx) as [[e4|[]] tx'].
    + cbn [fst snd] in Hat. intros [= _ <-]. rewrite Hat by done. congruence.
    + destruct (Commit ssa4 tx') as [err ssa5]. cbn [fst snd] in Hat. intros [= -> <-].
      rewrite Hat by done. congruence.
Qed.

(** X20.  A certificate row without status row makes [GetCertificateStatus] and
    [MarkCertificateRevoked] panic: the row fetched is converted without a
    check for nil. *)
Theorem GetCertificateStatus_panics (ssa : SQLStorageAuthority) (serial : string)
    (reasonCode : Z) (c : Certificate) :
  quiet (script ssa) -> ValidSerial serial = true ->
  certificates (dbMap ssa) !! serial = Some c ->
  certificateStatus (dbMap ssa) !! serial = None ->
  (exists msg, GetCertificateStatus ValidSerial ssa serial = Panics msg)
  /\ (exists msg, MarkCertificateRevoked ValidSerial ssa serial reasonCode = Panics msg).
Proof.
  intros Hq Hv Hc Hst. split.
  - rewrite GetCertificateStatus_quiet by done. rewrite Hst. by eexists.
  - unfold MarkCertificateRevoked.
    rewrite (GetCertificate_found ssa serial c) by done.
    rewrite GetCertificateStatus_quiet by (cbn; auto). cbn [dbMap withScript].
    rewrite Hst. by eexists.
Qed.

End Revocation.

(** ** Counting certificates by name *)

Section CountByNames.

Variable ReverseName : string -> string.

Lemma size_list_to_set_le (l : list string) :
  (size (list_to_set l : gset string) <= length l)%nat.
Proof.
  induction l as [|x l IH]; [by rewrite list_to_set_nil, size_empty|].
  rewrite list_to_set_cons, size_union_alt, size_singleton. cbn [length].
  assert ((list_to_set l : gset string) ∖ {[x]} ⊆ list_to_set l) as Hsub.
  { intros y Hy. by apply elem_of_difference in Hy as [? _]. }
  apply subseteq_size in Hsub. lia.
Qed.

(** X21.  [countCertificatesByName] reads only.  Without error its result is
    the number of distinct serials among the rows fetched: it lies between
    0 and 10,001 and does not exceed the number of index rows that match
    the domain and the window.  With an error the result is -1. *)
Theorem countCertificatesByName_bounds (ssa : SQLStorageAuthority) (domain : string)
    (earliest latest : Time) :
  let r := countCertificatesByName ReverseName ssa domain earliest latest in
  dbMap r.2 = dbMap ssa
  /\ (r.1.2 = None ->
      0 <= r.1.1 <= 10001
      /\ r.1.1 <= Z.of_nat (length (filter
           (fun n => matchesName (ReverseName domain) earliest latest n = true)
           (issuedNames (dbMap ssa)))))
  /\ (r.1.2 <> None -> r.1.1 = -1).
Proof.
  unfold countCertificatesByName, query.
  assert (forall s,
    let serials := selectSerials (ReverseName domain) earliest latest (10000 + 1) (dbMap ssa) in
    let r := ((Z.of_nat (size (list_to_set serials : gset string)), @None error),
              withScript ssa s) in
    dbMap r.2 = dbMap ssa
    /\ (r.1.2 = None ->
        0 <= r.1.1 <= 10001
        /\ r.1.1 <= Z.of_nat (length (filter
             (fun n => matchesName (ReverseName domain) earliest latest n = true)
             (issuedNames (dbMap ssa)))))
    /\ (r.1.2 <> None -> r.1.1 = -1)) as Hfetched.
  { intros s serials r. subst r. cbn [fst snd]. split; [done|]. split; [|done]. intros _.
    pose proof (size_list_to_set_le serials) as Hle.
    unfold serials, selectSerials in *. rewrite length_take, length_map in Hle.
    change (Z.to_nat (10000 + 1)) with (Z.to_nat 10001) in *. lia. }
  destruct (script ssa) as [|[e|] rest]; cbn zeta.
  - apply Hfetched.
  - case_bool_decide; cbn; repeat split; try done; lia.
  - apply Hfetched.
Qed.

(** [countCertificatesByName] when the query goes through. *)
Lemma countCertificatesByName_passes ssa domain earliest latest rest :
  script ssa = None :: rest ->
  countCertificatesByName ReverseName ssa domain earliest latest
  = ((serialsFetched ReverseName (dbMap ssa) earliest latest domain, None),
     withScript ssa rest).
Proof.
  intros Hs. unfold countCertificatesByName. by rewrite (query_passes _ _ rest).
Qed.

Lemma countByNamesLoop_dbMap domains ssa earliest latest ret :
  dbMap (countByNamesLoop ReverseName domains ssa earliest latest ret).2 = dbMap ssa.
Proof.
  revert ssa ret. induction domains as [|d domains IH]; intros ssa ret; [done|].
  cbn [countByNamesLoop].
  pose proof (countCertificatesByName_bounds ssa d earliest latest) as [Hdb _].
  destruct (countCertificatesByName ReverseName ssa d earliest latest) as [[n [e|]] ssa1];
    cbn in Hdb; [done|]. by rewrite IH.
Qed.

Lemma countByNamesLoop_entries domains ssa earliest latest ret :
  let r := countByNamesLoop ReverseName domains ssa earliest latest ret in
  r.1.2 = None ->
  forall d, is_Some (r.1.1 !! d) <-> d ∈ domains \/ is_Some (ret !! d).
Proof.
  revert ssa ret. induction domains as [|d0 domains IH]; intros ssa ret.
  - cbn. intros _ d. rewrite elem_of_nil. tauto.
  - cbn [countByNamesLoop].
    destruct (countCertificatesByName ReverseName ssa d0 earliest latest) as [[n [e|]] ssa1];
      [done|].
    intros Hok d. rewrite (IH ssa1 (<[d0 := n]> ret) Hok d).
    rewrite lookup_insert_is_Some, elem_of_cons.
    destruct (decide (d0 = d)) as [->|Hne]; [tauto|]. split; [|intros [[->|?]|?]]; tauto.
Qed.

(** X22.  The guarantee the comment of [CountCertificatesByNames] gives: when the
    error is nil, the map returned has an entry for every input domain, and
    for no other name.  The database is never changed. *)
Theorem CountCertificatesByNames_entries (ssa : SQLStorageAuthority) (domains : list string)
    (earliest latest : Time) :
  let r := CountCertificatesByNames ReverseName ssa domains earliest latest in
  dbMap r.2 = dbMap ssa
  /\ (r.1.2 = None -> forall d, is_Some (r.1.1 !! d) <-> d ∈ domains).
Proof.
  cbn zeta. unfold CountCertificatesByNames. split; [apply countByNamesLoop_dbMap|].
  intros Hok d. rewrite (countByNamesLoop_entries domains ssa earliest latest ∅ Hok d).
  rewrite lookup_empty. split; [intros [?|[? [=]]]; done|by left].
Qed.

(** The loop over the domains counted before the first failing query. *)
Lemma countByNamesLoop_prefix (done_ todo : list string) ssa earliest latest ret s' :
  script ssa = replicate (length done_) None ++ s' ->
  countByNamesLoop ReverseName (done_ ++ todo) ssa earliest latest ret
  = countByNamesLoop ReverseName todo (withScript ssa s') earliest latest
      (foldl (fun m d => <[d := serialsFetched ReverseName (dbMap ssa) earliest latest d]> m)
             ret done_).
Proof.
  revert ssa ret. induction done_ as [|d done_ IH]; intros ssa ret Hs.
  - cbn in *. rewrite <- Hs. by destruct ssa.
  - cbn [app length replicate] in *. cbn [countByNamesLoop foldl].
    rewrite (countCertificatesByName_passes _ _ _ _ _ Hs).
    by rewrite (IH (withScript ssa (replicate (length done_) None ++ s'))).
Qed.

Lemma lookup_counts (f : string -> Z) (l : list string) (ret : gmap string Z) (d : string) :
  foldl (fun m d => <[d := f d]> m) ret l !! d
  = if decide (d ∈ l) then Some (f d) else ret !! d.
Proof.
  revert ret. induction l as [|x l IH]; intros ret; [done|].
  cbn [foldl]. rewrite IH.
  destruct (decide (d ∈ l)) as [Hin|Hnin].
  - rewrite decide_True; [done|]. by apply elem_of_cons; right.
  - destruct (decide (d = x)) as [->|Hne].
    + rewrite lookup_insert_eq. rewrite decide_True; [done|]. by apply elem_of_cons; left.
    + rewrite lookup_insert_ne by done. rewrite decide_False; [done|].
      rewrite elem_of_cons. tauto.
Qed.

(** X23.  [CountCertificatesByNames] stops at the first domain whose query fails
    (with an error other than the no-rows error): it returns that error
    together with the counts of the domains before it, and these only. *)
Theorem CountCertificatesByNames_partial (ssa : SQLStorageAuthority)
    (done_ : list string) (domain : string) (rest : list string) (earliest latest : Time)
    (e : error) (s' : list (option error)) :
  script ssa = replicate (length done_) None ++ Some e :: s' ->
  e <> ErrNoRows ->
  let r := CountCertificatesByNames ReverseName ssa (done_ ++ domain :: rest)
             earliest latest in
  r.1.2 = Some e
  /\ forall d, r.1.1 !! d
               = if decide (d ∈ done_)
                 then Some (serialsFetched ReverseName (dbMap ssa) earliest latest d)
                 else None.
Proof.
  intros Hs He r. subst r. unfold CountCertificatesByNames.
  rewrite (countByNamesLoop_prefix done_ (domain :: rest) ssa earliest latest ∅ _ Hs).
  cbn [countByNamesLoop]. unfold countCertificatesByName.
  rewrite (query_fails _ _ e s') by done.
  rewrite bool_decide_eq_false_2 by done. cbn [fst snd]. split; [done|].
  intros d. rewrite lookup_counts. by rewrite lookup_empty.
Qed.

(** X24.  When no query fails, [CountCertificatesByNames] maps every input domain
    to the number of distinct serials among the index rows fetched for it. *)
Theorem CountCertificatesByNames_counts (ssa : SQLStorageAuthority) (domains : list string)
    (earliest latest : Time) :
  quiet (script ssa) ->
  let r := CountCertificatesByNames ReverseName ssa domains earliest latest in
  r.1.2 = None
  /\ forall d, r.1.1 !! d
               = if decide (d ∈ domains)
                 then Some (serialsFetched ReverseName (dbMap ssa) earliest latest d)
                 else None.
Proof.
  intros Hq r. subst r. unfold CountCertificatesByNames.
  assert (forall ret,
    countByNamesLoop ReverseName domains ssa earliest latest ret
    = ((foldl (fun m d => <[d := serialsFetched ReverseName (dbMap ssa) earliest latest d]> m)
              ret domains, None),
       (countByNamesLoop ReverseName domains ssa earliest latest ret).2)) as Hrun.
  { revert ssa Hq. induction domains as [|d domains IH]; intros ssa Hq ret; [done|].
    cbn [countByNamesLoop foldl].
    assert (countCertificatesByName ReverseName ssa d earliest latest
            = ((serialsFetched ReverseName (dbMap ssa) earliest latest d, None),
               withScript ssa (tl (script ssa)))) as ->.
    { unfold countCertificatesByName. by rewrite query_quiet. }
    rewrite (IH (withScript ssa (tl (script ssa)))) at 1 by (cbn; auto). done. }
  rewrite Hrun. cbn [fst snd]. split; [done|].
  intros d. rewrite lookup_counts. by rewrite lookup_empty.
Qed.

End CountByNames.

(** ** Pending authorizations counted *)

Section PendingCounted.

Variable pendingStatuses : list AcmeStatus.
Variable authorizationTables : list string.
Variable challengeToModel : Challenge -> string -> error + challModel.
Variable modelToChallenge : challModel -> error + Challenge.

(** X25.  A record created by [NewPendingAuthorization] counts towards
    [CountPendingAuthorizations] of its registration until it expires,
    provided the status pending is among the statuses counted: the count
    goes up by one for the authz table, that is, by the number of times
    the list of tables names it. *)
Theorem NewPendingAuthorization_counted (fuel : nat) (ssa ssa' ssa1 ssa2 : SQLStorageAuthority)
    (auth result : Authorization) (e : Time) :
  NewPendingAuthorization challengeToModel modelToChallenge fuel ssa auth
  = Some ((result, None), ssa') ->
  StatusPending ∈ pendingStatuses ->
  Expires auth = Some e -> clk ssa2 < e ->
  Forall knownTable authorizationTables ->
  dbMap ssa1 = dbMap ssa -> dbMap ssa2 = dbMap ssa' -> clk ssa1 = clk ssa2 ->
  quiet (script ssa1) -> quiet (script ssa2) ->
  (CountPendingAuthorizations pendingStatuses authorizationTables ssa2
     (RegistrationID auth)).1
  = ((CountPendingAuthorizations pendingStatuses authorizationTables ssa1
        (RegistrationID auth)).1.1
     + Z.of_nat (length (filter (fun t => t = authzTable) authorizationTables)), None).
Proof.
  intros Hnew Hpending Hexp Hnow Hknown Hdb1 Hdb2 Hclk Hq1 Hq2.
  apply NewPendingAuthorization_inv in Hnew as [_ Hok].
  destruct (Hok eq_refl) as (Hfresh & _ & rows & _ & Hdb').
  apply recordExists_false in Hfresh as [_ Ha].
  unfold CountPendingAuthorizations.
  rewrite !countPendingLoop_complete by done. cbn [fst]. f_equal. rewrite !Z.add_0_l.
  induction Hknown as [|t tables Ht _ IH]; [done|].
  cbn [map sumZ foldr]. fold (sumZ (map (pendingIn pendingStatuses ssa2 (RegistrationID auth))
                                       tables)).
  fold (sumZ (map (pendingIn pendingStatuses ssa1 (RegistrationID auth)) tables)).
  rewrite IH, filter_cons.
  assert (pendingIn pendingStatuses ssa2 (RegistrationID auth) t
          = pendingIn pendingStatuses ssa1 (RegistrationID auth) t
            + (if decide (t = authzTable) then 1 else 0)) as ->.
  { unfold pendingIn, selectCount. rewrite Hdb1, Hdb2, Hdb', Hclk.
    destruct Ht as [-> | ->].
    - change ((pendingAuthorizationsTable =? pendingAuthorizationsTable)%string) with true.
      cbv iota. rewrite decide_False by done. cbn. lia.
    - change ((authzTable =? pendingAuthorizationsTable)%string) with false.
      change ((authzTable =? authzTable)%string) with true. cbv iota.
      rewrite decide_True by done.
      cbn [authz setChallenges setAuthz].
      rewrite map_to_list_insert by done. rewrite filter_cons. cbn [snd].
      rewrite decide_True; [cbn [length]; lia|].
      unfold countsAsPending.
      cbn [columns withStatus withID col_RegistrationID col_Expires col_Status
           RegistrationID Expires Status].
      rewrite Z.eqb_refl, Hexp, (proj2 (Z.ltb_lt _ _) Hnow).
      by rewrite bool_decide_eq_true_2. }
  destruct (decide (t = authzTable)); cbn [length]; lia.
Qed.

End PendingCounted.

(** ** Challenge rows rewritten *)

Section ChallengeRows.

Variable challengeToModel : Challenge -> string -> error + challModel.

Lemma updateChallengeRows_inr cs challs tx tx' :
  updateChallengeRows challengeToModel cs challs tx = (inr tt, tx') ->
  exists t', rewriteChallengeRows challengeToModel cs challs (challenges (tx_db tx)) = Some t'
    /\ tx_db tx' = setChallenges (tx_db tx) t' (nextChallengeID (tx_db tx)).
Proof.
  revert challs tx. induction cs as [|c cs IH]; intros [|st challs] tx;
    cbn [updateChallengeRows rewriteChallengeRows];
    try (intros [= <-]; eexists; split; [done|]; by rewrite setChallenges_same).
  destruct (challengeToModel c (chall_AuthorizationID st)) as [e|m]; [done|].
  intros H. apply bind_inr in H as (n & tx1 & H1 & H2).
  apply call_inr in H1. injection H1 as _ H1.
  apply IH in H2 as (t' & Hrw & Hdb). rewrite <- H1 in Hrw, Hdb. cbn in Hrw, Hdb.
  by exists t'.
Qed.

(** X26.  Whatever the storage calls do, an [updateChallenges] that succeeds was
    handed as many challenges as rows are stored for the authorization.  It
    has changed the challenge table only, has neither added nor removed a
    row nor changed an id or the order, and has left every row alone whose
    id is not the id of a row of that authorization. *)
Theorem updateChallenges_rewrites (authID : string) (cs : list Challenge)
    (tx tx' : Transaction) :
  updateChallenges challengeToModel authID cs tx = (inr tt, tx') ->
  let db := tx_db tx in
  let db' := tx_db tx' in
  length cs = length (challengesOf db authID)
  /\ db' = setChallenges db (challenges db') (nextChallengeID db)
  /\ map chall_ID (challenges db') = map chall_ID (challenges db)
  /\ (forall i row, challenges db !! i = Some row ->
        chall_ID row ∉ map chall_ID (challengesOf db authID) ->
        challenges db' !! i = Some row).
Proof.
  intros H. cbn zeta. pose proof (updateChallenges_inr_length _ _ _ _ _ H) as Hlen.
  split; [done|].
  unfold updateChallenges in H. apply bind_inr in H as (challs & tx1 & H1 & H2).
  apply call_inr in H1. injection H1 as <- H1.
  fold (challengesOf (tx_db tx) authID) in H2.
  destruct (negb _); [done|].
  apply updateChallengeRows_inr in H2 as (t' & Hrw & Hdb). rewrite <- H1 in Hrw, Hdb.
  rewrite Hdb. cbn [challenges setChallenges]. split; [done|].
  by apply rewriteChallengeRows_keys in Hrw.
Qed.

End ChallengeRows.

(** ** The further properties on sample data *)

Lemma CountRegistrationsByIP_exact_v4_witness :
  (CountRegistrationsByIP (Sample.authority emptyDb []) Sample.registrations
     [1; 2; 3; 4] 0 100).1 = (2, None).
Proof.
  assert (wellFormed [1; 2; 3; 4]) as Hwf
    by (unfold wellFormed, isByte; repeat constructor; lia).
  assert (Forall (fun r => wellFormed (initialIP r) /\ length (initialIP r) = 16%nat)
            Sample.registrations) as Hrows
    by (unfold wellFormed, isByte; repeat constructor; lia).
  rewrite (CountRegistrationsByIP_exact_v4 (Sample.authority emptyDb []) Sample.registrations
             [1; 2; 3; 4] 0 100 Hwf (or_introl eq_refl) eq_refl Hrows quiet_nil).
  vm_compute. reflexivity.
Defined.

Lemma CountRegistrationsByIP_subnet_v6_witness :
  (CountRegistrationsByIP (Sample.authority emptyDb []) Sample.registrations
     [32; 1; 13; 184; 0; 1; 255; 0; 0; 0; 0; 0; 0; 0; 0; 9] 0 100).1 = (1, None).
Proof.
  assert (wellFormed [32; 1; 13; 184; 0; 1; 255; 0; 0; 0; 0; 0; 0; 0; 0; 9]) as Hwf
    by (unfold wellFormed, isByte; repeat constructor; lia).
  assert (Forall (fun r => wellFormed (initialIP r) /\ length (initialIP r) = 16%nat)
            Sample.registrations) as Hrows
    by (unfold wellFormed, isByte; repeat constructor; lia).
  rewrite (CountRegistrationsByIP_subnet_v6 (Sample.authority emptyDb []) Sample.registrations
             _ 0 100 Hwf eq_refl eq_refl Hrows quiet_nil).
  vm_compute. reflexivity.
Defined.

Lemma GetAuthorization_reads_witness :
  let ssa := Sample.authority Sample.legacyDb [] in
  (GetAuthorization ssa "a").1.2 = None
  /\ ID (GetAuthorization ssa "a").1.1 = "a"%string
  /\ columns (GetAuthorization ssa "a").1.1 = columns Sample.pendingA.
Proof.
  intros ssa.
  destruct (GetAuthorization_reads ssa "a" quiet_nil) as (Hfound & _ & _).
  exact (Hfound (columns Sample.pendingA) pendingAuthorizationsTable eq_refl).
Defined.

Lemma NewPendingAuthorization_readable_witness :
  let ssa := Sample.authority emptyDb [] in
  let auth := mkAuthorization "" Sample.example_com 1 StatusValid (Some 100) [] in
  let result := mkAuthorization "0" Sample.example_com 1 StatusPending (Some 100) [] in
  let ssa' := mkSA (setAuthz emptyDb {[ "0"%string := columns result ]}) 10 []
                (fun n => pretty n) 1 in
  NewPendingAuthorization Sample.challengeToModel Sample.modelToChallenge 2 ssa auth
  = Some ((result, None), ssa')
  /\ (GetAuthorization ssa' "0").1.2 = None
  /\ columns (GetAuthorization ssa' "0").1.1 = columns (withStatus auth StatusPending).
Proof.
  intros ssa auth result ssa'.
  assert (NewPendingAuthorization Sample.challengeToModel Sample.modelToChallenge 2 ssa auth
          = Some ((result, None), ssa')) as Hnew by (vm_compute; reflexivity).
  split; [exact Hnew|].
  destruct (NewPendingAuthorization_readable Sample.challengeToModel Sample.modelToChallenge
              2 ssa ssa' ssa' auth result Hnew eq_refl quiet_nil) as (H1 & _ & H3 & _).
  split; [exact H1|exact H3].
Defined.

Lemma FinalizeAuthorization_final_witness :
  let ssa := Sample.authority Sample.unifiedDb [] in
  let auth := withStatus Sample.pendingA StatusValid in
  let ssa2 := (FinalizeAuthorization Sample.pendingStatuses Sample.challengeToModel ssa auth).2 in
  (FinalizeAuthorization Sample.pendingStatuses Sample.challengeToModel ssa auth).1 = None
  /\ (FinalizeAuthorization Sample.pendingStatuses Sample.challengeToModel ssa2
        (withStatus auth StatusInvalid)).1 <> None
  /\ (UpdatePendingAuthorization Sample.pendingStatuses Sample.challengeToModel ssa2
        Sample.pendingA).1 <> None.
Proof.
  intros ssa auth ssa2.
  assert ((FinalizeAuthorization Sample.pendingStatuses Sample.challengeToModel ssa auth).1
          = None) as Hok by (vm_compute; reflexivity).
  split; [exact Hok|]. split.
  - exact (proj1 (proj1 (FinalizeAuthorization_final Sample.pendingStatuses
                           Sample.challengeToModel ssa ssa2 auth
                           (withStatus auth StatusInvalid) Hok eq_refl eq_refl))).
  - exact (proj1 (proj2 (FinalizeAuthorization_final Sample.pendingStatuses
                           Sample.challengeToModel ssa ssa2 auth
                           Sample.pendingA Hok eq_refl eq_refl))).
Defined.

Lemma DeactivateAuthorization_deactivates_witness :
  let ssa := Sample.authority Sample.validDb [] in
  (DeactivateAuthorization ssa "a").1 = None
  /\ located (dbMap (DeactivateAuthorization ssa "a").2) "a"
     = Some (columns (withStatus Sample.pendingA StatusDeactivated), authzTable).
Proof.
  intros ssa.
  destruct (DeactivateAuthorization_deactivates ssa "a"
              (columns (withStatus Sample.pendingA StatusValid)) authzTable
              quiet_nil eq_refl (or_intror eq_refl)) as (H1 & H2 & _).
  split; [exact H1|exact H2].
Defined.

Lemma GetValidAuthorizations_latest_witness :
  let ssa := Sample.authority Sample.validDb [] in
  exists byName ssa',
    GetValidAuthorizations Sample.Quote ssa 1 ["example.com"%string] 10
    = Returns ((byName, None), ssa')
    /\ is_Some (byName !! "example.com"%string).
Proof.
  intros ssa.
  assert (["example.com"%string] <> []) as Hne by discriminate.
  destruct (GetValidAuthorizations_latest Sample.Quote ssa 1 ["example.com"%string] 10
              Hne quiet_nil) as (byName & ssa' & Hrun & _ & _ & Hall).
  exists byName, ssa'. split; [exact Hrun|].
  exact (Hall "a"%string (columns (withStatus Sample.pendingA StatusValid)) eq_refl eq_refl).
Defined.

Lemma FinalizeAuthorization_then_valid_witness :
  let ssa := Sample.authority Sample.unifiedDb [] in
  let auth := withStatus Sample.pendingA StatusValid in
  let ssa2 := (FinalizeAuthorization Sample.pendingStatuses Sample.challengeToModel ssa auth).2 in
  exists byName ssa' a e',
    GetValidAuthorizations Sample.Quote ssa2 1 ["example.com"%string] 10
    = Returns ((byName, None), ssa')
    /\ byName !! "example.com"%string = Some a /\ Expires a = Some e' /\ 100 <= e'.
Proof.
  intros ssa auth ssa2.
  assert ((FinalizeAuthorization Sample.pendingStatuses Sample.challengeToModel ssa auth).1
          = None) as Hok by (vm_compute; reflexivity).
  assert (10 < 100) as Hnow by lia.
  assert ("example.com"%string ∈ ["example.com"%string]) as Hin by (apply elem_of_cons; by left).
  destruct (FinalizeAuthorization_then_valid Sample.pendingStatuses Sample.challengeToModel
              Sample.Quote ssa ssa2 auth "example.com" 100 10 ["example.com"%string]
              Hok eq_refl eq_refl eq_refl Hnow Hin eq_refl quiet_nil)
    as (byName & ssa' & a & e' & Hrun & Ha & He & Hle & _).
  exists byName, ssa', a, e'. split; [exact Hrun|]. split; [exact Ha|]. split; [exact He|exact Hle].
Defined.

Lemma AddCertificate_readable_witness :
  let ssa := Sample.authority emptyDb [] in
  let r := AddCertificate Sample.ParseCertificate Sample.Fingerprint256 Sample.SerialToString
             Sample.ReverseName Sample.Sum256 ssa [7] 1 in
  r.1.2 = None
  /\ (GetCertificate Sample.ValidSerial r.2 "7").1 = (mkCertificate 1 "7" "7" [7] 10 95, None).
Proof.
  intros ssa r.
  assert (r.1.2 = None) as Hok by (vm_compute; reflexivity).
  split; [exact Hok|].
  exact (proj1 (AddCertificate_readable Sample.ParseCertificate Sample.Fingerprint256
                  Sample.SerialToString Sample.ReverseName Sample.Sum256 Sample.ValidSerial
                  ssa r.2 [7] 1 Sample.cert7 eq_refl Hok eq_refl quiet_nil eq_refl)).
Defined.

Lemma CountCertificatesRange_additive_witness :
  let ssa := Sample.authority Sample.orphanDb [] in
  (CountCertificatesRange ssa 0 20).1 = (1, None)
  /\ (CountCertificatesRange ssa 0 10).1 = (0, None)
  /\ (CountCertificatesRange ssa 10 20).1 = (1, None).
Proof.
  intros ssa.
  assert (0 <= 10 <= 20) as Habc by lia.
  pose proof (CountCertificatesRange_additive ssa ssa ssa 0 10 20 Habc eq_refl eq_refl
                quiet_nil quiet_nil quiet_nil) as H.
  split; [rewrite H|]; vm_compute; repeat split.
Defined.

Lemma AddCertificate_counted_witness :
  let ssa := Sample.authority emptyDb [] in
  let r := AddCertificate Sample.ParseCertificate Sample.Fingerprint256 Sample.SerialToString
             Sample.ReverseName Sample.Sum256 ssa [7] 1 in
  (CountCertificatesRange r.2 0 20).1 = (1, None)
  /\ (CountCertificatesRange r.2 11 20).1 = (0, None).
Proof.
  intros ssa r.
  assert (r.1.2 = None) as Hok by (vm_compute; reflexivity).
  split.
  - rewrite (AddCertificate_counted Sample.ParseCertificate Sample.Fingerprint256
               Sample.SerialToString Sample.ReverseName Sample.Sum256 ssa ssa r.2 [7] 1
               Sample.cert7 0 20 eq_refl Hok eq_refl eq_refl quiet_nil quiet_nil).
    vm_compute. reflexivity.
  - rewrite (AddCertificate_counted Sample.ParseCertificate Sample.Fingerprint256
               Sample.SerialToString Sample.ReverseName Sample.Sum256 ssa ssa r.2 [7] 1
               Sample.cert7 11 20 eq_refl Hok eq_refl eq_refl quiet_nil quiet_nil).
    vm_compute. reflexivity.
Defined.

Lemma AddCertificate_then_FQDNSetExists_witness :
  let ssa := Sample.authority emptyDb [] in
  let r := AddCertificate Sample.ParseCertificate Sample.Fingerprint256 Sample.SerialToString
             Sample.ReverseName Sample.Sum256 ssa [7] 1 in
  (FQDNSetExists Sample.Sum256 r.2 ["B.example.com"; "a.example.com"]%string).1
  = (true, None).
Proof.
  intros ssa r.
  assert (r.1.2 = None) as Hok by (vm_compute; reflexivity).
  assert (nameSet ["B.example.com"; "a.example.com"]%string
          = nameSet (DNSNames Sample.cert7)) as Hnames by (vm_compute; reflexivity).
  exact (AddCertificate_then_FQDNSetExists Sample.ParseCertificate Sample.Fingerprint256
           Sample.SerialToString Sample.ReverseName Sample.Sum256 ssa r.2 [7] 1 Sample.cert7
           _ eq_refl Hok Hnames eq_refl quiet_nil).
Defined.

Lemma AddCertificate_then_CountFQDNSets_witness :
  let ssa := Sample.authority emptyDb [] in
  let r := AddCertificate Sample.ParseCertificate Sample.Fingerprint256 Sample.SerialToString
             Sample.ReverseName Sample.Sum256 ssa [7] 1 in
  (CountFQDNSets Sample.Sum256 r.2 10 ["B.example.com"; "a.example.com"]%string).1
  = (1, None)
  /\ (CountFQDNSets Sample.Sum256 r.2 5 ["B.example.com"; "a.example.com"]%string).1
     = (0, None).
Proof.
  intros ssa r.
  assert (r.1.2 = None) as Hok by (vm_compute; reflexivity).
  assert (nameSet ["B.example.com"; "a.example.com"]%string
          = nameSet (DNSNames Sample.cert7)) as Hnames by (vm_compute; reflexivity).
  split.
  - rewrite (AddCertificate_then_CountFQDNSets Sample.ParseCertificate Sample.Fingerprint256
               Sample.SerialToString Sample.ReverseName Sample.Sum256 ssa ssa r.2 [7] 1
               Sample.cert7 _ 10 eq_refl Hok Hnames eq_refl eq_refl eq_refl quiet_nil quiet_nil).
    vm_compute. reflexivity.
  - rewrite (AddCertificate_then_CountFQDNSets Sample.ParseCertificate Sample.Fingerprint256
               Sample.SerialToString Sample.ReverseName Sample.Sum256 ssa ssa r.2 [7] 1
               Sample.cert7 _ 5 eq_refl Hok Hnames eq_refl eq_refl eq_refl quiet_nil quiet_nil).
    vm_compute. reflexivity.
Defined.

Lemma MarkCertificateRevoked_revokes_witness :
  let ssa := (AddCertificate Sample.ParseCertificate Sample.Fingerprint256
                Sample.SerialToString Sample.ReverseName Sample.Sum256
                (Sample.authority emptyDb []) [7] 1).2 in
  exists ssa' st,
    MarkCertificateRevoked Sample.ValidSerial ssa "7" 1 = Returns (None, ssa')
    /\ certificateStatus (dbMap ssa') !! "7"%string = Some st
    /\ OCSPStatus st = "revoked"%string /\ RevokedDate st = 10 /\ RevokedReason st = 1.
Proof.
  intros ssa.
  destruct (MarkCertificateRevoked_revokes Sample.ValidSerial ssa "7" 1
              (mkCertificate 1 "7" "7" [7] 10 95)
              (mkCertificateStatus false "good" 0 [] "7" 0 0 0)
              quiet_nil eq_refl eq_refl eq_refl eq_refl)
    as (ssa' & st' & Hrun & Hdb & Hs & Hd & Hr & _).
  exists ssa', st'. split; [exact Hrun|]. rewrite Hdb.
  split; [apply lookup_insert_eq|]. split; [exact Hs|]. split; [exact Hd|exact Hr].
Defined.

Lemma MarkCertificateRevoked_unknown_witness :
  let ssa := Sample.authority emptyDb [Some Sample.connectionLost] in
  exists ssa',
    MarkCertificateRevoked Sample.ValidSerial ssa "7" 1
    = Returns (Some (errorString "Unable to mark certificate 7 revoked: cert not found."),
               ssa')
    /\ dbMap ssa' = emptyDb.
Proof.
  intros ssa.
  exact (proj1 (MarkCertificateRevoked_unknown Sample.ValidSerial ssa "7" 1 eq_refl)).
Defined.

Lemma GetCertificateStatus_panics_witness :
  let ssa := Sample.authority Sample.orphanDb [] in
  (exists msg, GetCertificateStatus Sample.ValidSerial ssa "7" = Panics msg)
  /\ (exists msg, MarkCertificateRevoked Sample.ValidSerial ssa "7" 1 = Panics msg).
Proof.
  intros ssa.
  exact (GetCertificateStatus_panics Sample.ValidSerial ssa "7" 1
           (mkCertificate 1 "7" "7" [7] 10 95) quiet_nil eq_refl eq_refl eq_refl).
Defined.

Lemma CountCertificatesByNames_partial_witness :
  let ssa := Sample.authority emptyDb [None; Some Sample.connectionLost] in
  let r := CountCertificatesByNames Sample.ReverseName ssa
             ["a.com"; "b.com"; "c.com"]%string 0 10 in
  r.1.2 = Some Sample.connectionLost
  /\ r.1.1 !! "a.com"%string = Some 0
  /\ r.1.1 !! "b.com"%string = None
  /\ r.1.1 !! "c.com"%string = None.
Proof.
  intros ssa r.
  assert (Sample.connectionLost <> ErrNoRows) as He by discriminate.
  destruct (CountCertificatesByNames_partial Sample.ReverseName ssa ["a.com"%string]
              "b.com" ["c.com"%string] 0 10 Sample.connectionLost [] eq_refl He)
    as [Herr Hmap].
  split; [exact Herr|].
  split; [|split]; unfold r; cbn [app]; rewrite Hmap; vm_compute; reflexivity.
Defined.

Lemma CountCertificatesByNames_counts_witness :
  let ssa := (AddCertificate Sample.ParseCertificate Sample.Fingerprint256
                Sample.SerialToString Sample.ReverseName Sample.Sum256
                (Sample.authority emptyDb []) [7] 1).2 in
  let r := CountCertificatesByNames Sample.ReverseName ssa
             ["a.example.com"; "example.org"]%string 0 10 in
  r.1.2 = None
  /\ r.1.1 !! "a.example.com"%string = Some 1
  /\ r.1.1 !! "example.org"%string = Some 0.
Proof.
  intros ssa r.
  destruct (CountCertificatesByNames_counts Sample.ReverseName ssa
              ["a.example.com"; "example.org"]%string 0 10 quiet_nil) as [Herr Hmap].
  split; [exact Herr|].
  split; unfold r; rewrite Hmap; vm_compute; reflexivity.
Defined.

Lemma NewPendingAuthorization_counted_witness :
  let ssa := Sample.authority emptyDb [] in
  let auth := mkAuthorization "" Sample.example_com 1 StatusValid (Some 100) [] in
  let result := mkAuthorization "0" Sample.example_com 1 StatusPending (Some 100) [] in
  let ssa' := mkSA (setAuthz emptyDb {[ "0"%string := columns result ]}) 10 []
                (fun n => pretty n) 1 in
  NewPendingAuthorization Sample.challengeToModel Sample.modelToChallenge 2 ssa auth
  = Some ((result, None), ssa')
  /\ (CountPendingAuthorizations Sample.pendingStatuses Sample.authorizationTables ssa 1).1
     = (0, None)
  /\ (CountPendingAuthorizations Sample.pendingStatuses Sample.authorizationTables ssa' 1).1
     = (1, None).
Proof.
  intros ssa auth result ssa'.
  assert (NewPendingAuthorization Sample.challengeToModel Sample.modelToChallenge 2 ssa auth
          = Some ((result, None), ssa')) as Hnew by (vm_compute; reflexivity).
  assert (StatusPending ∈ Sample.pendingStatuses) as Hp by (apply elem_of_cons; by left).
  assert (10 < 100) as Hnow by lia.
  assert (Forall knownTable Sample.authorizationTables) as Hk
    by (constructor; [by right|]; constructor; [by left|]; constructor).
  split; [exact Hnew|]. split; [vm_compute; reflexivity|].
  pose proof (NewPendingAuthorization_counted Sample.pendingStatuses
                Sample.authorizationTables Sample.challengeToModel Sample.modelToChallenge
                2 ssa ssa' ssa ssa' auth result 100 Hnew Hp eq_refl Hnow Hk eq_refl eq_refl
                eq_refl quiet_nil quiet_nil) as H.
  change (RegistrationID auth) with 1 in H. rewrite H.
  vm_compute. reflexivity.
Defined.

Lemma updateChallenges_rewrites_witness :
  let tx := mkTx Sample.challengedDb [] in
  match updateChallenges Sample.challengeToModel "a"
          [mkChallenge 1 "http-01" "valid" "token-1"] tx with
  | (inr _, tx') =>
      map chall_ID (challenges (tx_db tx')) = [1]
      /\ nextChallengeID (tx_db tx') = 2
  | _ => False
  end.
Proof.
  intros tx.
  destruct (updateChallenges Sample.challengeToModel "a"
              [mkChallenge 1 "http-01" "valid" "token-1"] tx) as [[e|[]] tx'] eqn:Hrun.
  - vm_compute in Hrun. discriminate Hrun.
  - destruct (updateChallenges_rewrites Sample.challengeToModel "a" _ tx tx' Hrun)
      as (_ & Hdb & Hids & _).
    split; [exact Hids|]. rewrite Hdb. reflexivity.
Defined.

Lemma UpdatePendingAuthorization_unified_witness :
  let ssa := Sample.authority Sample.challengedDb [] in
  let r := UpdatePendingAuthorization Sample.pendingStatuses Sample.challengeToModel ssa
             Sample.pendingA_validated in
  r.1 = None
  /\ challenges (dbMap r.2) = [mkChall 1 "a" "http-01" "valid" "token-1"].
Proof.
  intros ssa r.
  destruct (UpdatePendingAuthorization_unified Sample.pendingStatuses Sample.challengeToModel
              ssa Sample.pendingA_validated (columns Sample.pendingA)
              [mkChall 1 "a" "http-01" "valid" "token-1"]
              quiet_nil eq_refl eq_refl eq_refl eq_refl) as [Herr Hdb].
  split; [exact Herr|]. unfold r. rewrite Hdb. reflexivity.
Defined.
